(** * Conversion routing engine of the "convert" web application

    A shallow embedding of the routing code of [src/main.js] (the
    TypeScript version, lines 266 onwards): the option pool built by
    [buildOptionList], the step-wise executor [attemptConvertPath] with
    its forward prefix cache [convertPathCache], the breadth-first search
    [buildConvertPath], the persistent path store and the click handler of
    the convert button; then of [mimeToCategory], of the list and string
    computations of the two handlers of [src/unnamed], and of the first
    version of the router (main.js 155-212).

    JavaScript objects compared with [===] carry an explicit reference
    (a natural number standing for the object's address); asynchronous
    handler calls are sequenced, the program being single-threaded; the
    observable effects (handler calls, downloads, alerts) are logged in a
    trace. *)

From Stdlib Require Import ZArith List String Ascii Bool Lia.
From stdpp Require Import base option list strings gmap.

Local Open Scope nat_scope.

(** ** Data model *)

(** [FileFormat]: one declared capability of a handler.  [fmt_ref] is the
    identity of the JavaScript object ([c.format === format] compares
    references); [mime] may be [null]. *)
Record FileFormat := mkFormat {
  fmt_ref : nat;
  fmt_name : string;
  fmt_format : string;
  fmt_extension : string;
  fmt_mime : option string;
  fmt_from : bool;
  fmt_to : bool;
  fmt_internal : string
}.

(** [FileData]: [{ name, bytes }]. *)
Record FileData := mkFile {
  fd_name : string;
  fd_bytes : list Byte.byte
}.

(** The mutable properties of a handler object.  [hs_ready] is the
    [ready] property ([undefined] reads as [false]); [hs_supportedFormats]
    is [None] while the property is [undefined]; [hs_internal] stands for
    whatever private state the backend keeps (loaded modules, counters). *)
Record HandlerState := mkHState {
  hs_ready : bool;
  hs_supportedFormats : option (list FileFormat);
  hs_internal : nat
}.

(** A handler object: identity, name, the [supportAnyInput] flag and the
    two asynchronous methods.  [h_init] returns [false] when the promise
    rejects; [h_doConvert] returns [None] when it throws. *)
Record FormatHandler := mkHandler {
  h_ref : nat;
  h_name : string;
  h_supportAnyInput : bool;
  h_init : HandlerState -> bool * HandlerState;
  h_doConvert : nat -> list FileData -> option FileFormat -> FileFormat ->
                option (list FileData) * nat
}.

(** [ConvertPathNode]: the object [{ format, handler }]; [n_ref] is its
    identity ([path[i] !== convertPathCache[i]?.node]). *)
Record ConvertPathNode := mkNode {
  n_ref : nat;
  n_handler : FormatHandler;
  n_format : FileFormat
}.

Record CacheEntry := mkEntry {
  ce_files : list FileData;
  ce_node : ConvertPathNode
}.

(** [StoredNode] of the persistent path store. *)
Record StoredNode := mkStored {
  sn_handlerName : string;
  sn_formatMime : option string;
  sn_formatFormat : string
}.

(** Observable effects, in the order they happen. *)
Inductive Event :=
| EvInit (h : FormatHandler) (ok : bool)
| EvAttempt (path : list ConvertPathNode)
| EvPathAttempt (path : list ConvertPathNode)
| EvStepStart (path : list ConvertPathNode) (i : nat)
| EvConvert (src dst : ConvertPathNode) (input : list FileData)
            (inputFormat : option FileFormat) (out : option (list FileData))
| EvDownload (bytes : list Byte.byte) (name : string) (mime : option string)
| EvAlert (msg : string)
| EvPopup (msg : string).

(** The module-level variables of [main.ts] together with the pieces of
    the environment the router touches. *)
Record State := mkState {
  handlerStates : gmap nat HandlerState;
  supportedFormatCache : gmap string (list FileFormat);
  allOptions : list ConvertPathNode;
  convertPathCache : list CacheEntry;
  simpleMode : bool;
  pathStore : gmap string (list StoredNode);
  next_ref : nat;
  clock_reads : nat;
  trace : list Event
}.

Definition set_handlerStates (m : gmap nat HandlerState) (st : State) : State :=
  mkState m (supportedFormatCache st) (allOptions st) (convertPathCache st)
          (simpleMode st) (pathStore st) (next_ref st) (clock_reads st) (trace st).

Definition set_supportedFormatCache (m : gmap string (list FileFormat)) (st : State) : State :=
  mkState (handlerStates st) m (allOptions st) (convertPathCache st)
          (simpleMode st) (pathStore st) (next_ref st) (clock_reads st) (trace st).

Definition set_allOptions (l : list ConvertPathNode) (st : State) : State :=
  mkState (handlerStates st) (supportedFormatCache st) l (convertPathCache st)
          (simpleMode st) (pathStore st) (next_ref st) (clock_reads st) (trace st).

Definition set_convertPathCache (c : list CacheEntry) (st : State) : State :=
  mkState (handlerStates st) (supportedFormatCache st) (allOptions st) c
          (simpleMode st) (pathStore st) (next_ref st) (clock_reads st) (trace st).

Definition set_pathStore (m : gmap string (list StoredNode)) (st : State) : State :=
  mkState (handlerStates st) (supportedFormatCache st) (allOptions st) (convertPathCache st)
          (simpleMode st) m (next_ref st) (clock_reads st) (trace st).

Definition set_next_ref (n : nat) (st : State) : State :=
  mkState (handlerStates st) (supportedFormatCache st) (allOptions st) (convertPathCache st)
          (simpleMode st) (pathStore st) n (clock_reads st) (trace st).

Definition set_clock_reads (n : nat) (st : State) : State :=
  mkState (handlerStates st) (supportedFormatCache st) (allOptions st) (convertPathCache st)
          (simpleMode st) (pathStore st) (next_ref st) n (trace st).

Definition log (e : Event) (st : State) : State :=
  mkState (handlerStates st) (supportedFormatCache st) (allOptions st) (convertPathCache st)
          (simpleMode st) (pathStore st) (next_ref st) (clock_reads st) (trace st ++ [e]).

(** ** JavaScript comparisons *)

(** [a === b] on [string | null]. *)
Definition mime_eqb (a b : option string) : bool :=
  match a, b with
  | Some x, Some y => String.eqb x y
  | None, None => true
  | _, _ => false
  end.

(** Truthiness of [format.mime]: [null] and the empty string are falsy. *)
Definition mime_set (m : option string) : bool :=
  match m with
  | Some s => negb (String.eqb s EmptyString)
  | None => false
  end.

Definition format_same (a b : FileFormat) : bool := Nat.eqb (fmt_ref a) (fmt_ref b).
Definition handler_same (a b : FormatHandler) : bool := Nat.eqb (h_ref a) (h_ref b).
Definition node_same (a b : ConvertPathNode) : bool := Nat.eqb (n_ref a) (n_ref b).

(** [formats.some(c => c.mime === m && c.from)] *)
Definition readsMime (m : option string) (formats : list FileFormat) : bool :=
  existsb (fun c => mime_eqb (fmt_mime c) m && fmt_from c) formats.

Definition handlerState (st : State) (h : FormatHandler) : HandlerState :=
  default (mkHState false None 0) (handlerStates st !! h_ref h).

(** ** The executor: [attemptConvertPath] (main.js 803-842) *)

(** One turn of the [for] loop, for the hop from [path[i]] = [prev] to
    [path[i+1]] = [next].  [None] is [return null]. *)
Definition attemptStep (onStepStart : bool) (path : list ConvertPathNode) (i : nat)
    (prev next : ConvertPathNode) (files : list FileData) (st : State)
  : option (list FileData) * State :=
  let st := if onStepStart then log (EvStepStart path i) st else st in
  let handler := n_handler next in
  let cached := supportedFormatCache st !! h_name handler in
  let hs := handlerState st handler in
  let '(alive, supportedFormats, st) :=
    if hs_ready hs then (true, cached, st)
    else
      let '(ok, hs') := h_init handler hs in
      let st := log (EvInit handler ok)
                    (set_handlerStates (<[h_ref handler := hs']> (handlerStates st)) st) in
      if ok then
        match hs_supportedFormats hs' with
        | Some fs =>
            (true, Some fs,
             set_supportedFormatCache (<[h_name handler := fs]> (supportedFormatCache st)) st)
        | None => (true, cached, st)
        end
      else (false, cached, st) in
  if negb alive then (None, st)
  else
    match supportedFormats with
    | None => (None, st)
    | Some formats =>
        let inputFormat :=
          find (fun c => mime_eqb (fmt_mime c) (fmt_mime (n_format prev)) && fmt_from c)
               formats in
        let hs := handlerState st handler in
        let '(out, internal') :=
          h_doConvert handler (hs_internal hs) files inputFormat (n_format next) in
        let st := set_handlerStates
                    (<[h_ref handler :=
                         mkHState (hs_ready hs) (hs_supportedFormats hs) internal']>
                       (handlerStates st)) st in
        let st := log (EvConvert prev next files inputFormat out) st in
        match out with
        | None => (None, st)
        | Some files' =>
            if existsb (fun c => Nat.eqb (length (fd_bytes c)) 0) files'
            then (None, st)
            else (Some files',
                  set_convertPathCache (convertPathCache st ++ [mkEntry files' next]) st)
        end
    end.

Fixpoint attemptLoop (onStepStart : bool) (path : list ConvertPathNode) (i : nat)
    (hops : list (ConvertPathNode * ConvertPathNode)) (files : list FileData) (st : State)
  : option (list FileData) * State :=
  match hops with
  | [] => (Some files, st)
  | (prev, next) :: rest =>
      match attemptStep onStepStart path i prev next files st with
      | (Some files', st') => attemptLoop onStepStart path (S i) rest files' st'
      | (None, st') => (None, st')
      end
  end.

(** The pairs [(path[i], path[i+1])] for [i = start .. path.length - 2]. *)
Definition hops_from (start : nat) (path : list ConvertPathNode)
  : list (ConvertPathNode * ConvertPathNode) :=
  drop start (zip path (tail path)).

Definition attemptConvertPath (files : list FileData) (path : list ConvertPathNode)
    (onStepStart : bool) (st : State)
  : option (list FileData * list ConvertPathNode) * State :=
  let st := log (EvAttempt path) st in
  let cacheLast := last (convertPathCache st) in
  let files := match cacheLast with Some c => ce_files c | None => files end in
  let start := match cacheLast with Some _ => length (convertPathCache st) | None => 0 end in
  match attemptLoop onStepStart path start (hops_from start path) files st with
  | (Some out, st') => (Some (out, path), st')
  | (None, st') => (None, st')
  end.

(** ** Module-level constant [conversionsFromAnyInput] (main.js 292-296) *)

Definition anyInputPairs (handlers : list FormatHandler) (hss : gmap nat HandlerState)
  : list (FormatHandler * FileFormat) :=
  flat_map
    (fun h =>
       if h_supportAnyInput h then
         match hs_supportedFormats (default (mkHState false None 0) (hss !! h_ref h)) with
         | Some fs => map (fun f => (h, f)) (List.filter fmt_to fs)
         | None => []
         end
       else [])
    handlers.

(** The object literals are allocated at references [base], [base + 1], ... *)
Definition conversionsFromAnyInput (handlers : list FormatHandler)
    (hss : gmap nat HandlerState) (base : nat) : list ConvertPathNode :=
  imap (fun k hf => mkNode (base + k) (fst hf) (snd hf)) (anyInputPairs handlers hss).

(** ** The search: [buildConvertPath] (main.js 847-934) *)

Inductive SearchResult :=
| Found (files : list FileData) (path : list ConvertPathNode)
| TIMEOUT_RESULT
| NoRoute                    (* [return null] *)
| Thrown                     (* a [TypeError] escapes the function *)
| OutOfFuel.                 (* the model's loop bound was reached *)

(** The local variables of [buildConvertPath]. *)
Record SearchVars := mkVars {
  queue : list (list ConvertPathNode);
  isNestedConversion : bool;
  bestPartialPath : option (list ConvertPathNode)
}.

(** [path[i] !== convertPathCache[i]?.node] *)
Definition differs_from_cache (n : ConvertPathNode) (e : option CacheEntry) : bool :=
  match e with
  | Some c => negb (node_same n (ce_node c))
  | None => true
  end.

(** The first [i >= from] at which the realignment loop (main.js 874-879)
    finds a difference; [rest] is [path[from ..]]. *)
Fixpoint divergence (from : nat) (rest : list ConvertPathNode) (cache : list CacheEntry)
  : option nat :=
  match rest with
  | [] => None
  | n :: rest' =>
      if differs_from_cache n (cache !! from) then Some from
      else divergence (S from) rest' cache
  end.

(** [convertPathCache.length = i - 1] at the first difference.  The new
    length never exceeds the old one (lemma [divergence_within] below), so
    the assignment always truncates. *)
Definition realign (path : list ConvertPathNode) (cache : list CacheEntry) : list CacheEntry :=
  match divergence 1 (tail path) cache with
  | Some i => take (i - 1) cache
  | None => cache
  end.

Section Search.

(** The [handlers] array, the constant [conversionsFromAnyInput] and the
    readings of [Date.now()] (the [k]-th call returns [clock k]). *)
Variable handlers : list FormatHandler.
Variable anyInput : list ConvertPathNode.
Variable clock : nat -> Z.

Definition validHandlersFor (st : State) (previous : ConvertPathNode) : list FormatHandler :=
  List.filter
    (fun h => match supportedFormatCache st !! h_name h with
              | Some fs => readsMime (fmt_mime (n_format previous)) fs
              | None => false
              end)
    handlers.

(** [validHandlers.includes(h)] *)
Definition includes (hs : list FormatHandler) (h : FormatHandler) : bool :=
  existsb (handler_same h) hs.

(** The loops over closing nodes (main.js 894-901 and 913-918): each
    candidate is appended to [path] and tried; [track] is set for the
    simple-mode loop, which also maintains [bestPartialPath]. *)
Fixpoint tryEach (track : bool) (onPathAttempt : bool) (files : list FileData)
    (path : list ConvertPathNode) (candidates : list ConvertPathNode)
    (best : option (list ConvertPathNode)) (st : State)
  : option (list FileData * list ConvertPathNode) * option (list ConvertPathNode) * State :=
  match candidates with
  | [] => (None, best, st)
  | candidate :: rest =>
      let candidatePath := path ++ [candidate] in
      let st := if onPathAttempt then log (EvPathAttempt candidatePath) st else st in
      match attemptConvertPath files candidatePath false st with
      | (Some r, st') => (Some r, best, st')
      | (None, st') =>
          let best' :=
            if track && (from_option length 0 best <? length (convertPathCache st'))
            then Some candidatePath else best in
          tryEach track onPathAttempt files path rest best' st'
      end
  end.

(** The inner loop of the expansion (main.js 925-929); [ref] is the
    next free object reference. *)
Fixpoint expandFormats (path : list ConvertPathNode) (h : FormatHandler)
    (formats : list FileFormat) (ref : nat)
  : list (list ConvertPathNode) * nat :=
  match formats with
  | [] => ([], ref)
  | f :: rest =>
      if negb (fmt_to f) || negb (mime_set (fmt_mime f)) then expandFormats path h rest ref
      else if existsb (fun c => format_same (n_format c) f) path
           then expandFormats path h rest ref
      else
        let '(more, ref') := expandFormats path h rest (S ref) in
        ((path ++ [mkNode ref h f]) :: more, ref')
  end.

(** The outer loop of the expansion (main.js 922-930). *)
Fixpoint expand (st : State) (path : list ConvertPathNode) (hs : list FormatHandler)
    (ref : nat) : list (list ConvertPathNode) * nat :=
  match hs with
  | [] => ([], ref)
  | h :: rest =>
      match supportedFormatCache st !! h_name h with
      | None => expand st path rest ref
      | Some fs =>
          let '(new1, ref1) := expandFormats path h fs ref in
          let '(new2, ref2) := expand st path rest ref1 in
          (new1 ++ new2, ref2)
      end
  end.

(** The deadline test [deadlineMs && Date.now() > deadlineMs]:
    [Date.now()] is only called when [deadlineMs] is truthy. *)
Definition deadlineExceeded (deadlineMs : option Z) (st : State) : bool * State :=
  match deadlineMs with
  | Some d =>
      if Z.eqb d 0 then (false, st)
      else (Z.ltb d (clock (clock_reads st)), set_clock_reads (S (clock_reads st)) st)
  | None => (false, st)
  end.

(** The target-close phase (main.js 889-909). *)
Definition closeOnTarget (files : list FileData) (target : ConvertPathNode)
    (onPathAttempt : bool) (path : list ConvertPathNode)
    (validHandlers : list FormatHandler) (best : option (list ConvertPathNode))
    (st : State)
  : option (list FileData * list ConvertPathNode) * option (list ConvertPathNode) * State :=
  if simpleMode st then
    let candidates :=
      List.filter
        (fun opt =>
           includes validHandlers (n_handler opt)
           && mime_eqb (fmt_mime (n_format opt)) (fmt_mime (n_format target))
           && fmt_to (n_format opt))
        (allOptions st) in
    tryEach true onPathAttempt files path candidates best st
  else if includes validHandlers (n_handler target) then
    tryEach false onPathAttempt files path [target] best st
  else (None, best, st).

(** The any-input fallback (main.js 911-920), run while
    [isNestedConversion] is still [false]. *)
Definition closeOnAnyInput (files : list FileData) (target : ConvertPathNode)
    (onPathAttempt : bool) (path : list ConvertPathNode) (st : State)
  : option (list FileData * list ConvertPathNode) * State :=
  let anyConversions :=
    List.filter
      (fun c => mime_eqb (fmt_mime (n_format c)) (fmt_mime (n_format target)))
      anyInput in
  let '(r, _, st) := tryEach false onPathAttempt files path anyConversions None st in
  (r, st).

(** One turn of the [while] loop with a non-empty queue, [path] being
    the chain [queue.shift()] returns and [v] holding the rest of the
    queue: either the function returns ([inl]) or the loop goes on
    ([inr]).  The test [if (!path) continue] never fires, an array being
    truthy; an empty chain makes [previous.format] throw. *)
Definition searchIteration (files : list FileData) (target : ConvertPathNode)
    (onPathAttempt : bool) (deadlineMs : option Z)
    (path : list ConvertPathNode) (v : SearchVars) (st : State)
  : (SearchResult + SearchVars) * State :=
  let '(late, st) := deadlineExceeded deadlineMs st in
  if late then
    match last (convertPathCache st) with
    | Some c => (inl (Found (ce_files c) (map ce_node (convertPathCache st))), st)
    | None => (inl TIMEOUT_RESULT, st)
    end
  else if 5 <? length path then (inr v, st)
  else
    let st := set_convertPathCache (realign path (convertPathCache st)) st in
    match last path with
    | None => (inl Thrown, st)
    | Some previous =>
        let validHandlers := validHandlersFor st previous in
        match closeOnTarget files target onPathAttempt path validHandlers
                (bestPartialPath v) st with
        | (Some (out, p), _, st) => (inl (Found out p), st)
        | (None, best, st) =>
            match (if isNestedConversion v then (None, st)
                   else closeOnAnyInput files target onPathAttempt path st) with
            | (Some (out, p), st) => (inl (Found out p), st)
            | (None, st) =>
                let '(new, ref) := expand st path validHandlers (next_ref st) in
                (inr (mkVars (queue v ++ new) true best), set_next_ref ref st)
            end
        end
    end.

Fixpoint searchLoop (fuel : nat) (files : list FileData) (target : ConvertPathNode)
    (onPathAttempt : bool) (deadlineMs : option Z) (v : SearchVars) (st : State)
  : SearchResult * State :=
  match fuel with
  | 0 => (OutOfFuel, st)
  | S fuel' =>
      match queue v with
      | [] => (NoRoute, st)
      | path :: rest =>
          match searchIteration files target onPathAttempt deadlineMs path
                  (mkVars rest (isNestedConversion v) (bestPartialPath v)) st with
          | (inl r, st') => (r, st')
          | (inr v', st') => searchLoop fuel' files target onPathAttempt deadlineMs v' st'
          end
      end
  end.

Definition buildConvertPath (fuel : nat) (files : list FileData) (target : ConvertPathNode)
    (initialQueue : list (list ConvertPathNode)) (onPathAttempt : bool)
    (deadlineMs : option Z) (st : State) : SearchResult * State :=
  searchLoop fuel files target onPathAttempt deadlineMs
    (mkVars initialQueue false None) (set_convertPathCache [] st).

End Search.

(** ** The option pool: [buildOptionList] (main.js 540-624)

    The buttons of the output list are user interface and are left out;
    what remains is the handling of the format cache and the filling of
    [allOptions]. *)

(** The loop over [supportedFormats] (main.js 562-619): a format without a
    MIME type is skipped, every other one is pushed. *)
Fixpoint pushOptions (handler : FormatHandler) (formats : list FileFormat) (st : State)
  : State :=
  match formats with
  | [] => st
  | f :: rest =>
      if negb (mime_set (fmt_mime f)) then pushOptions handler rest st
      else
        pushOptions handler rest
          (set_next_ref (S (next_ref st))
             (set_allOptions (allOptions st ++ [mkNode (next_ref st) handler f]) st))
  end.

Fixpoint buildOptions (hs : list FormatHandler) (st : State) : State :=
  match hs with
  | [] => st
  | handler :: rest =>
      let '(go_on, st) :=
        match supportedFormatCache st !! h_name handler with
        | Some _ => (true, st)
        | None =>
            let '(ok, hs') := h_init handler (handlerState st handler) in
            let st := log (EvInit handler ok)
                          (set_handlerStates (<[h_ref handler := hs']> (handlerStates st)) st) in
            if ok then
              match hs_supportedFormats hs' with
              | Some fs =>
                  (true, set_supportedFormatCache
                           (<[h_name handler := fs]> (supportedFormatCache st)) st)
              | None => (true, st)
              end
            else (false, st)
        end in
      if go_on then
        match supportedFormatCache st !! h_name handler with
        | Some fs => buildOptions rest (pushOptions handler fs st)
        | None => buildOptions rest st
        end
      else buildOptions rest st
  end.

Definition buildOptionList (handlers : list FormatHandler) (st : State) : State :=
  buildOptions handlers (set_allOptions [] st).

(** ** The persistent path store (main.js 723-797) *)

Definition arrow : string :=
  String (Ascii.ascii_of_nat 226) (String (Ascii.ascii_of_nat 134)
    (String (Ascii.ascii_of_nat 146) EmptyString)).

(** A MIME type inside a template literal. *)
Definition mime_text (m : option string) : string := from_option id "null"%string m.

Definition pathStoreKey (inputMime outputMime : option string)
    (outputHandlerName : option string) : string :=
  let base := String.append (mime_text inputMime) (String.append arrow (mime_text outputMime)) in
  match outputHandlerName with
  | Some n => if String.eqb n EmptyString then base
              else String.append base (String.append ":" n)
  | None => base
  end.

Definition storePath (key : string) (path : list ConvertPathNode) (st : State) : State :=
  set_pathStore
    (<[key := map (fun n => mkStored (h_name (n_handler n)) (fmt_mime (n_format n))
                                     (fmt_format (n_format n))) path]> (pathStore st))
    st.

Definition recallPath (key : string) (st : State) : option (list ConvertPathNode) :=
  match pathStore st !! key with
  | None => None
  | Some [] => None
  | Some stored =>
      mapM (fun s =>
              find (fun o => String.eqb (h_name (n_handler o)) (sn_handlerName s)
                             && mime_eqb (fmt_mime (n_format o)) (sn_formatMime s)
                             && String.eqb (fmt_format (n_format o)) (sn_formatFormat s))
                   (allOptions st))
           stored
  end.

Definition evictPath (key : string) (st : State) : State :=
  set_pathStore (delete key (pathStore st)) st.

(** ** The convert button (main.js 959-1202) *)

Definition SEARCH_TIMEOUT_MS : Z := 10 * 60 * 1000.

Definition downloadFile (bytes : list Byte.byte) (name : string) (mime : option string)
    (st : State) : State :=
  log (EvDownload bytes name mime) st.

Definition downloadAll (files : list FileData) (mime : option string) (st : State) : State :=
  fold_left (fun s f => downloadFile (fd_bytes f) (fd_name f) mime s) files st.

(** The loop reading the selected files (main.js 1080-1088): a file whose
    input and output MIME types agree is downloaded as it is and does not
    enter [inputFileData]. *)
Fixpoint readInputFiles (selectedFiles : list FileData) (inputFormat outputFormat : FileFormat)
    (st : State) : list FileData * State :=
  match selectedFiles with
  | [] => ([], st)
  | inputFile :: rest =>
      if mime_eqb (fmt_mime inputFormat) (fmt_mime outputFormat) then
        readInputFiles rest inputFormat outputFormat
          (downloadFile (fd_bytes inputFile) (fd_name inputFile) (fmt_mime inputFormat) st)
      else
        let '(more, st') := readInputFiles rest inputFormat outputFormat st in
        (mkFile (fd_name inputFile) (fd_bytes inputFile) :: more, st')
  end.

Section ConvertButton.

Variable handlers : list FormatHandler.
Variable anyInput : list ConvertPathNode.
Variable clock : nat -> Z.

(** The replay of a recalled path (main.js 1096-1111). *)
Definition replayCached (cacheKey : string) (inputFileData : list FileData) (st : State)
  : option (list FileData * list ConvertPathNode) * State :=
  match recallPath cacheKey st with
  | Some cachedPath =>
      let st := set_convertPathCache [] st in
      let st := log (EvStepStart cachedPath 0) st in
      match attemptConvertPath inputFileData cachedPath true st with
      | (Some output, st') => (Some output, st')
      | (None, st') => (None, evictPath cacheKey st')
      end
  | None => (None, st)
  end.

(** What the handler does with a chain the search returned as complete
    (main.js 1160-1172): the prefix cache is emptied and the chain is
    run once more on the input files. *)
Definition rerunConfirmed (cacheKey : string) (inputFileData : list FileData)
    (confirmedPath : list ConvertPathNode) (st : State)
  : option (list FileData * list ConvertPathNode) * State :=
  let st := set_convertPathCache [] st in
  let st := log (EvStepStart confirmedPath 0) st in
  match attemptConvertPath inputFileData confirmedPath true st with
  | (Some output, st') => (Some output, storePath cacheKey (snd output) st')
  | (None, st') => (None, st')
  end.

(** The end of the handler (main.js 1176-1194). *)
Definition finish (output : option (list FileData * list ConvertPathNode))
    (outputFormat : FileFormat) (st : State) : State :=
  match output with
  | None => log (EvAlert "Failed to find conversion route.") st
  | Some (files, path) =>
      log (EvPopup "Converted") (downloadAll files (fmt_mime outputFormat) st)
  end.

(** The click handler.  [None] only when the model's loop bound for the
    search is too small. *)
Definition convertButtonClick (fuel : nat) (selectedFiles : list FileData)
    (selectedInputOption selectedOutputOption : option ConvertPathNode) (st : State)
  : option State :=
  match selectedFiles, selectedInputOption, selectedOutputOption with
  | [], _, _ => Some (log (EvAlert "Select an input file.") st)
  | _, None, _ => Some (log (EvAlert "Could not detect input file format.") st)
  | _, _, None => Some (log (EvAlert "Select an output format.") st)
  | _, Some inputOption, Some outputOption =>
      let inputFormat := n_format inputOption in
      let outputFormat := n_format outputOption in
      let cacheKey :=
        pathStoreKey (fmt_mime inputFormat) (fmt_mime outputFormat)
          (if simpleMode st then None else Some (h_name (n_handler outputOption))) in
      let startTime := clock (clock_reads st) in
      let st := set_clock_reads (S (clock_reads st)) st in
      let deadline := (startTime + SEARCH_TIMEOUT_MS)%Z in
      let '(inputFileData, st) := readInputFiles selectedFiles inputFormat outputFormat st in
      match replayCached cacheKey inputFileData st with
      | (Some output, st) => Some (finish (Some output) outputFormat st)
      | (None, st) =>
          match buildConvertPath handlers anyInput clock fuel inputFileData outputOption
                  [[inputOption]] true (Some deadline) st with
          | (OutOfFuel, _) => None
          | (Thrown, st) => Some (log (EvAlert "Unexpected error while routing:") st)
          | (TIMEOUT_RESULT, st) =>
              Some (log (EvAlert "Search timed out after 10 minutes with no usable path found.") st)
          | (NoRoute, st) => Some (finish None outputFormat st)
          | (Found files path, st) =>
              match last path with
              | Some final =>
                  if negb (mime_eqb (fmt_mime (n_format final)) (fmt_mime outputFormat)) then
                    let st := log (EvPopup "Search timed out") st in
                    let st := storePath cacheKey path st in
                    Some (downloadAll files (fmt_mime (n_format final)) st)
                  else
                    let '(output, st) := rerunConfirmed cacheKey inputFileData path st in
                    Some (finish output outputFormat st)
              | None =>
                  let '(output, st) := rerunConfirmed cacheKey inputFileData path st in
                  Some (finish output outputFormat st)
              end
          end
      end
  end.

End ConvertButton.

(** * Concrete configurations

    Small handler sets on which the model is run. *)

Module Scenario.

Local Open Scope string_scope.

Definition fmt (ref : nat) (code mime : string) (from to : bool) : FileFormat :=
  mkFormat ref code code code (Some mime) from to code.

(** An [init] that publishes [formats] and sets [ready]. *)
Definition init_with (formats : list FileFormat) (hs : HandlerState) : bool * HandlerState :=
  (true, mkHState true (Some formats) (hs_internal hs)).

(** A [doConvert] that maps every input file to one output file. *)
Definition convert_all (tag : Byte.byte) (calls : nat) (files : list FileData)
    (from : option FileFormat) (to : FileFormat) : option (list FileData) * nat :=
  (Some (map (fun f => mkFile (fd_name f) (tag :: fd_bytes f)) files), S calls).

Definition blank : State := mkState ∅ ∅ [] [] true ∅ 0 0 [].

Definition photo : list FileData := [mkFile "a.png" [Byte.x89; Byte.x50]].

(** ** Three handlers in a row: png -> bmp -> gif / tiff -> jpeg; the
    last handler cannot read the gif it is given. *)
Module Row.
Definition png := fmt 0 "png" "image/png" true false.
Definition bmp_out := fmt 1 "bmp" "image/bmp" false true.
Definition bmp_in := fmt 2 "bmp" "image/bmp" true false.
Definition gif_out := fmt 3 "gif" "image/gif" false true.
Definition tiff_out := fmt 4 "tiff" "image/tiff" false true.
Definition gif_in := fmt 5 "gif" "image/gif" true false.
Definition tiff_in := fmt 6 "tiff" "image/tiff" true false.
Definition jpeg := fmt 7 "jpeg" "image/jpeg" false true.

Definition first := mkHandler 0 "first" false (init_with [png; bmp_out])
                              (convert_all Byte.x01).
Definition second := mkHandler 1 "second" false (init_with [bmp_in; gif_out; tiff_out])
                               (convert_all Byte.x02).
Definition third :=
  mkHandler 2 "third" false (init_with [gif_in; tiff_in; jpeg])
    (fun calls files from to =>
       match from with
       | Some f => if String.eqb (fmt_format f) "gif" then (None, S calls)
                   else convert_all Byte.x03 calls files from to
       | None => (None, S calls)
       end).

Definition handlers := [first; second; third].
Definition anyInput := conversionsFromAnyInput handlers ∅ 0.
Definition clock : nat -> Z := fun _ => 5%Z.

(** The state after start-up, and the two options the user picks. *)
Definition booted : State := buildOptionList handlers blank.
Definition input : ConvertPathNode := mkNode 0 first png.
Definition output : ConvertPathNode := mkNode 8 third jpeg.
Definition start : State := set_next_ref 9 booted.

Definition search (deadlineMs : option Z) : SearchResult * State :=
  buildConvertPath handlers anyInput clock 20 photo output [[input]] false deadlineMs start.

(** A click on the convert button, the search it runs and the chain
    that search returns. *)
Definition click : option State :=
  convertButtonClick handlers anyInput clock 20 photo (Some input) (Some output) start.
Definition cacheKey : string := pathStoreKey (Some "image/png") (Some "image/jpeg") None.
Definition clicked : State := set_clock_reads 1 start.
Definition clickSearch : SearchResult * State :=
  buildConvertPath handlers anyInput clock 20 photo output [[input]] true
    (Some (5 + SEARCH_TIMEOUT_MS)%Z) clicked.
Definition foundFiles : list FileData :=
  match fst clickSearch with Found out _ => out | _ => [] end.
Definition foundPath : list ConvertPathNode :=
  match fst clickSearch with Found _ p => p | _ => [] end.
Definition rerun : option (list FileData * list ConvertPathNode) * State :=
  rerunConfirmed cacheKey photo foundPath (snd clickSearch).
End Row.

(** ** One image handler, input and output both png. *)
Module Identity.
Definition png := fmt 0 "png" "image/png" true true.
Definition magick := mkHandler 0 "ImageMagick" false (init_with [png])
                               (convert_all Byte.x01).
Definition handlers := [magick].
Definition anyInput := conversionsFromAnyInput handlers ∅ 0.
Definition clock : nat -> Z := fun _ => 0%Z.
Definition booted : State := buildOptionList handlers blank.
Definition input : ConvertPathNode := mkNode 0 magick png.
Definition output : ConvertPathNode := mkNode 1 magick png.
Definition start : State := set_next_ref 2 booted.
(** The click handler, and the search it runs: no file is left in
    [inputFileData] when the two MIME types agree. *)
Definition click : option State :=
  convertButtonClick handlers anyInput clock 20 photo (Some input) (Some output) start.
Definition search : SearchResult * State :=
  buildConvertPath handlers anyInput clock 20 [] output [[input]] true None start.
End Identity.

(** ** A handler written like [src/unnamed/part_001]: its export has no
    [ready] property, and every [init] pushes the formats it finds onto
    the same [supportedFormats] array. *)
Module Lazy.
Definition mp4 := fmt 0 "mp4" "video/mp4" true true.
Definition webm := fmt 1 "webm" "video/webm" true true.
Definition gif := fmt 2 "gif" "image/gif" true true.
Definition ffmpeg_init (hs : HandlerState) : bool * HandlerState :=
  (true, mkHState (hs_ready hs)
                  (Some (app (from_option id [] (hs_supportedFormats hs)) [mp4; webm; gif]))
                  (hs_internal hs)).
Definition ffmpeg := mkHandler 0 "FFmpeg" false ffmpeg_init (convert_all Byte.x01).
Definition handlers := [ffmpeg].
(** [supportedFormats] is the empty array until [init] runs. *)
Definition loaded : State :=
  mkState {[ 0 := mkHState false (Some []) 0 ]} ∅ [] [] true ∅ 0 0 [].
Definition booted : State := buildOptionList handlers loaded.
Definition chain : list ConvertPathNode :=
  [mkNode 0 ffmpeg mp4; mkNode 1 ffmpeg webm; mkNode 2 ffmpeg gif].
Definition run : option (list FileData * list ConvertPathNode) * State :=
  attemptConvertPath [mkFile "a.mp4" [Byte.x00]] chain false booted.
End Lazy.

(** ** An image handler and a renamer that accepts any input and only
    declares the format it writes. *)
Module Rename.
Definition png := fmt 0 "png" "image/png" true true.
Definition jpeg := fmt 1 "jpeg" "image/jpeg" true true.
Definition txt := fmt 2 "txt" "text/plain" false true.
Definition magick := mkHandler 0 "ImageMagick" false (init_with [png; jpeg])
                               (convert_all Byte.x01).
Definition rename := mkHandler 1 "rename" true (init_with [txt]) (convert_all Byte.x02).
Definition handlers := [magick; rename].
Definition loaded : State :=
  mkState {[ 1 := mkHState false (Some [txt]) 0 ]} ∅ [] [] true ∅ 1 0 [].
Definition anyInput := conversionsFromAnyInput handlers (handlerStates loaded) 0.
Definition clock : nat -> Z := fun _ => 0%Z.
Definition booted : State := buildOptionList handlers loaded.
Definition input : ConvertPathNode := mkNode 1 magick png.
Definition output : ConvertPathNode := mkNode 4 rename txt.
Definition start : State := set_next_ref 5 booted.
Definition search : SearchResult * State :=
  buildConvertPath handlers anyInput clock 20 photo output [[input]] false None start.
End Rename.

(** ** A format cache read from [cache.json] that no longer matches
    what the handler's [init] publishes. *)
Module Stale.
Definition png := fmt 0 "png" "image/png" true false.
Definition jpeg := fmt 1 "jpeg" "image/jpeg" false true.
Definition bmp := fmt 2 "bmp" "image/bmp" true false.
Definition jpeg' := fmt 3 "jpeg" "image/jpeg" false true.
Definition magick := mkHandler 0 "ImageMagick" false (init_with [bmp; jpeg'])
                               (convert_all Byte.x01).
Definition handlers := [magick].
Definition anyInput := conversionsFromAnyInput handlers ∅ 0.
Definition clock : nat -> Z := fun _ => 0%Z.
Definition loaded : State :=
  mkState ∅ {[ "ImageMagick" := [png; jpeg] ]} [] [] true ∅ 0 0 [].
Definition booted : State := buildOptionList handlers loaded.
Definition input : ConvertPathNode := mkNode 0 magick png.
Definition output : ConvertPathNode := mkNode 2 magick jpeg.
Definition start : State := set_next_ref 3 booted.
Definition search : SearchResult * State :=
  buildConvertPath handlers anyInput clock 20 photo output [[input]] false None start.
End Stale.

(** ** A handler whose [doConvert] works once and then fails. *)
Module Flaky.
Definition png := fmt 0 "png" "image/png" true false.
Definition jpeg := fmt 1 "jpeg" "image/jpeg" false true.
Definition once := mkHandler 0 "once" false (init_with [png; jpeg])
  (fun calls files from to =>
     match calls with
     | 0 => convert_all Byte.x01 calls files from to
     | S _ => (None, S calls)
     end).
Definition handlers := [once].
Definition anyInput := conversionsFromAnyInput handlers ∅ 0.
Definition clock : nat -> Z := fun _ => 0%Z.
Definition booted : State := buildOptionList handlers blank.
Definition input : ConvertPathNode := mkNode 0 once png.
Definition output : ConvertPathNode := mkNode 2 once jpeg.
Definition start : State := set_next_ref 3 booted.
Definition click : option State :=
  convertButtonClick handlers anyInput clock 20 photo (Some input) (Some output) start.
(** The search that click runs. *)
Definition clickSearch : SearchResult * State :=
  buildConvertPath handlers anyInput clock 20 photo output [[input]] true
    (Some (0 + SEARCH_TIMEOUT_MS)%Z) (set_clock_reads 1 start).
End Flaky.

(** ** A handler with a format that can neither be read nor written,
    and one without a MIME type. *)
Module Pool.
Definition png := fmt 0 "png" "image/png" true true.
Definition raw := fmt 1 "raw" "image/x-raw" false false.
Definition odd := mkFormat 2 "odd" "odd" "odd" None true true "odd".
Definition magick := mkHandler 0 "ImageMagick" false (init_with [png; raw; odd])
                               (convert_all Byte.x01).
Definition handlers := [magick].
Definition booted : State := buildOptionList handlers blank.
End Pool.

End Scenario.

(** * The rest of the repository

    The category of a MIME type, the parts of the two handlers of
    [src/unnamed] that are plain computations on strings and lists, and
    the first version of the router (main.js 1-264). *)

(** ** [mimeToCategory] (main.js 527-538) *)

Definition archiveMimes : list string :=
  ["application/zip"; "application/x-tar"; "application/x-7z-compressed";
   "application/gzip"; "application/x-rar-compressed"].

Definition mimeToCategory (mime : string) : string :=
  if String.prefix "image/" mime then "image"
  else if String.prefix "video/" mime then "video"
  else if String.prefix "audio/" mime then "audio"
  else if String.prefix "application/" mime || String.prefix "text/" mime then
         if existsb (String.eqb mime) archiveMimes then "archive" else "document"
  else "other".

(** ** The handlers ImageMagick (part_000) and FFmpeg (part_001) *)

Module Handlers.

(** [line.replaceAll("  ", " ")]: the occurrences are found from the
    left and do not overlap. *)
Fixpoint replaceDoubleSpaces (line : string) : string :=
  match line with
  | EmptyString => EmptyString
  | String c rest =>
      match rest with
      | String d rest' =>
          if Ascii.eqb c " "%char && Ascii.eqb d " "%char
          then String " "%char (replaceDoubleSpaces rest')
          else String c (replaceDoubleSpaces rest)
      | EmptyString => String c EmptyString
      end
  end.

(** The [do ... while (len !== line.length)] loop (part_000 34-38,
    part_001 44-48); [None] when the model's loop bound is too small. *)
Fixpoint collapseLoop (fuel : nat) (line : string) : option string :=
  match fuel with
  | 0 => None
  | S fuel' =>
      let len := String.length line in
      let line := replaceDoubleSpaces line in
      if len =? String.length line then Some line else collapseLoop fuel' line
  end.

Definition collapseSpaces (line : string) : option string :=
  collapseLoop (S (String.length line)) line.

(** [line.includes("  ")] *)
Fixpoint hasDoubleSpace (line : string) : bool :=
  match line with
  | EmptyString => false
  | String c rest =>
      match rest with
      | String d _ => (Ascii.eqb c " "%char && Ascii.eqb d " "%char) || hasDoubleSpace rest
      | EmptyString => false
      end
  end.

(** [l.indexOf(x)], [-1] when [x] is not in [l]. *)
Fixpoint indexOf (x : string) (l : list string) : Z :=
  match l with
  | [] => (-1)%Z
  | y :: rest =>
      if String.eqb y x then 0%Z
      else let i := indexOf x rest in if (i <? 0)%Z then (-1)%Z else (i + 1)%Z
  end.

(** [Array.prototype.sort] with a comparator.  The language fixes the
    result for a consistent comparator: the sort is stable, so the result
    is the one of an insertion sort that keeps the elements that compare
    equal in their order. *)
Fixpoint insertSorted {A : Type} (compare : A -> A -> Z) (x : A) (sorted : list A) : list A :=
  match sorted with
  | [] => [x]
  | y :: rest =>
      if (compare y x <? 0)%Z then y :: insertSorted compare x rest else x :: y :: rest
  end.

Definition sort {A : Type} (compare : A -> A -> Z) (l : list A) : list A :=
  foldr (insertSorted compare) [] l.

(** The comparator of the two [init]s (part_000 70-74, part_001 89-93). *)
Definition byPriority (prioritize : list string) (a b : FileFormat) : Z :=
  (indexOf (fmt_format b) prioritize - indexOf (fmt_format a) prioritize)%Z.

(** The end of ImageMagick's [init] (part_000 67-88): the sort, and the
    renaming of the first format called svgz.  [None] stands for the
    exception raised when there is no such format ([svgzFormat] is then
    [undefined]). *)
Fixpoint renameSvgz (formats : list FileFormat) : option (list FileFormat) :=
  match formats with
  | [] => None
  | c :: rest =>
      if String.eqb (fmt_format c) "svgz" then
        Some (mkFormat (fmt_ref c) "Scalable Vector Graphics" "svg" "svg" (fmt_mime c)
                       (fmt_from c) (fmt_to c) (fmt_internal c) :: rest)
      else option_map (cons c) (renameSvgz rest)
  end.

Definition magickFineTune (supportedFormats : list FileFormat) : option (list FileFormat) :=
  let prioritize := rev ["png"; "jpeg"; "apng"; "gif"] in
  renameSvgz (sort (byPriority prioritize) supportedFormats).

(** [l.findIndex(p)] *)
Fixpoint findIndex {A : Type} (p : A -> bool) (l : list A) : Z :=
  match l with
  | [] => (-1)%Z
  | y :: rest =>
      if p y then 0%Z
      else let i := findIndex p rest in if (i <? 0)%Z then (-1)%Z else (i + 1)%Z
  end.

(** [l.splice(start, 1)]: a negative [start] counts from the end. *)
Definition splice1 {A : Type} (start : Z) (l : list A) : list A :=
  let len := Z.of_nat (length l) in
  let actualStart := if (start <? 0)%Z then Z.max (len + start) 0 else Z.min start len in
  delete (Z.to_nat actualStart) l.

(** The end of FFmpeg's [init] (part_001 86-96). *)
Definition ffmpegFineTune (supportedFormats : list FileFormat) : list FileFormat :=
  let prioritize := rev ["webm"; "mp4"; "gif"] in
  let sorted := sort (byPriority prioritize) supportedFormats in
  splice1 (findIndex (fun c => mime_eqb (fmt_mime c) (Some "image/avif")) sorted) sorted.

(** ImageMagick's [doConvert] (part_000 92-114).  [Magick.call] is the
    library: it is given the state of the outside world, the image and
    the command, and returns the exit code, the lines of the error stream
    and the output files. *)
Record MagickResult := mkResult {
  exitCode : Z;
  stderr : list string;
  outputFiles : list (list Byte.byte)
}.

(** [cr_result] is [None] when [doConvert] throws; [cr_commands] are the
    commands given to [Magick.call], in order. *)
Record ConvertRun := mkConvertRun {
  cr_result : option (list Byte.byte);
  cr_commands : list (list string);
  cr_world : nat
}.

(** [s.includes(needle)] *)
Definition includes (s needle : string) : bool :=
  match String.index 0 needle s with Some _ => true | None => false end.

Section Magick.

Variable call : nat -> string * list Byte.byte -> list string -> MagickResult * nat.

(** [None] when the model's bound on the recursion is too small. *)
Fixpoint doConvert (fuel : nat) (inputFile : FileData) (inputFormat outputFormat : FileFormat)
    (retryWithArgs : option (list string)) (w : nat) : option ConvertRun :=
  match fuel with
  | 0 => None
  | S fuel' =>
      let command :=
        ["convert"; fd_name inputFile] ++ from_option id [] retryWithArgs
        ++ [String.append (fmt_internal outputFormat) ":out"] in
      let image := (fd_name inputFile, fd_bytes inputFile) in
      let '(result, w) := call w image command in
      if negb (exitCode result =? 0)%Z then
        match retryWithArgs, stderr result with
        | None, first :: _ =>
            if includes first "WidthOrHeightExceedsLimit" then
              option_map
                (fun run => mkConvertRun (cr_result run) (command :: cr_commands run)
                                         (cr_world run))
                (doConvert fuel' inputFile inputFormat outputFormat
                           (Some ["-resize"; "256x256"]) w)
            else Some (mkConvertRun None [command] w)
        | _, _ => Some (mkConvertRun None [command] w)
        end
      else Some (mkConvertRun (head (outputFiles result)) [command] w)
  end.

End Magick.

End Handlers.

(** ** The first version of the router (main.js 1-264)

    One file is converted; [doConvert] is given the file object and
    returns the new bytes, and the executor writes them into that same
    object.  The handlers are initialised before any option exists, so
    [supportedFormats] is a fixed list here. *)

Module Legacy.

Record Handler := mkHandler {
  lh_name : string;
  lh_supportedFormats : list FileFormat;
  lh_doConvert : nat -> FileData -> FileFormat -> FileFormat -> option (list Byte.byte) * nat
}.

Record Node := mkNode {
  ln_format : FileFormat;
  ln_handler : Handler
}.

(** The file object shared by all attempts, the state of the outside
    world and the chains handed to the executor. *)
Record Run := mkRun {
  file : FileData;
  world : nat;
  tried : list (list Node)
}.

(** [name.split(".")[0]] *)
Fixpoint beforeDot (name : string) : string :=
  match name with
  | EmptyString => EmptyString
  | String c rest => if Ascii.eqb c "."%char then EmptyString else String c (beforeDot rest)
  end.

(** The [for] loop of [attemptConvertPath] (main.js 160-170) over the
    hops that are left; [false] is [return null]. *)
Fixpoint attemptLoop (hops : list (Node * Node)) (r : Run) : bool * Run :=
  match hops with
  | [] => (true, r)
  | (prev, next) :: rest =>
      match lh_doConvert (ln_handler next) (world r) (file r) (ln_format prev) (ln_format next) with
      | (None, w) => (false, mkRun (file r) w (tried r))
      | (Some bytes, w) =>
          match bytes with
          | [] => (false, mkRun (mkFile (fd_name (file r)) bytes) w (tried r))
          | _ :: _ =>
              let name :=
                String.append (beforeDot (fd_name (file r)))
                              (String.append "." (fmt_extension (ln_format next))) in
              attemptLoop rest (mkRun (mkFile name bytes) w (tried r))
          end
      end
  end.

(** [attemptConvertPath(file, path)] (main.js 155-174); the file of the
    result is the shared object, that is [file] of the returned [Run]. *)
Definition attemptConvertPath (path : list Node) (r : Run) : option (list Node) * Run :=
  let r := mkRun (file r) (world r) (tried r ++ [path]) in
  match attemptLoop (zip path (tail path)) r with
  | (true, r') => (Some path, r')
  | (false, r') => (None, r')
  end.

Inductive SearchResult :=
| Found (path : list Node)
| NoRoute
| Thrown
| OutOfFuel.

Section Search.

Variable handlers : list Handler.

(** What the two loops of main.js 198-205 push onto the queue. *)
Definition expand (path : list Node) (previous : Node) : list (list Node) :=
  let validHandlers :=
    List.filter
      (fun handler => readsMime (fmt_mime (ln_format previous)) (lh_supportedFormats handler))
      handlers in
  flat_map
    (fun handler =>
       flat_map
         (fun format =>
            if negb (fmt_to format) then []
            else if negb (mime_set (fmt_mime format)) then []
            else if existsb (fun c => format_same (ln_format c) format) path then []
            else [path ++ [mkNode format handler]])
         (lh_supportedFormats handler))
    validHandlers.

(** [buildConvertPath(file, target, queue)] (main.js 176-212).  [Thrown]
    is the exception of [previous.format] on an empty chain. *)
Fixpoint searchLoop (fuel : nat) (target : Node) (queue : list (list Node)) (r : Run)
  : SearchResult * Run :=
  match fuel with
  | 0 => (OutOfFuel, r)
  | S fuel' =>
      match queue with
      | [] => (NoRoute, r)
      | path :: queue =>
          if 5 <? length path then searchLoop fuel' target queue r
          else
            match last path with
            | None => (Thrown, r)
            | Some previous =>
                let attempt :=
                  if readsMime (fmt_mime (ln_format previous))
                               (lh_supportedFormats (ln_handler target))
                  then attemptConvertPath (path ++ [target]) r
                  else (None, r) in
                match attempt with
                | (Some found, r') => (Found found, r')
                | (None, r') => searchLoop fuel' target (queue ++ expand path previous) r'
                end
            end
      end
  end.

Definition buildConvertPath (fuel : nat) (target : Node) (queue : list (list Node)) (r : Run)
  : SearchResult * Run :=
  searchLoop fuel target queue r.

End Search.

End Legacy.

(** * Properties *)

(** ** Traces *)

(** [extends Q st st']: the run from [st] to [st'] only added events, and
    each of them satisfies [Q]. *)
Definition extends (Q : Event -> Prop) (st st' : State) : Prop :=
  exists new, trace st' = trace st ++ new /\ Forall Q new.

Lemma extends_refl Q st : extends Q st st.
Proof. exists []. split; [by rewrite app_nil_r | constructor]. Qed.

Lemma extends_trans Q st1 st2 st3 :
  extends Q st1 st2 -> extends Q st2 st3 -> extends Q st1 st3.
Proof.
  intros (n1 & E1 & F1) (n2 & E2 & F2). exists (n1 ++ n2). split.
  - by rewrite E2, E1, app_assoc.
  - by apply Forall_app.
Qed.

Lemma extends_impl (P Q : Event -> Prop) st st' :
  (forall e, P e -> Q e) -> extends P st st' -> extends Q st st'.
Proof.
  intros HPQ (n & E & F). exists n. split; [done|].
  eapply Forall_impl; eauto.
Qed.

Lemma extends_log Q e st : Q e -> extends Q st (log e st).
Proof. intros HQ. exists [e]. split; [done | by repeat constructor]. Qed.

Lemma extends_same_trace Q st st' : trace st' = trace st -> extends Q st st'.
Proof. intros E. exists []. split; [by rewrite app_nil_r | constructor]. Qed.

(** What a run leaves alone. *)
Definition frame (st st' : State) : Prop :=
  next_ref st' = next_ref st /\ allOptions st' = allOptions st
  /\ simpleMode st' = simpleMode st /\ pathStore st' = pathStore st
  /\ clock_reads st' = clock_reads st.

Lemma frame_refl st : frame st st.
Proof. by repeat split. Qed.

Lemma frame_trans st1 st2 st3 : frame st1 st2 -> frame st2 st3 -> frame st1 st3.
Proof. unfold frame. intros (?&?&?&?&?) (?&?&?&?&?). repeat split; congruence. Qed.

(** The events of one hop: the progress callback, a possible [init], and
    at most one [doConvert] from [prev] to [next] whose input format
    satisfies [R]. *)
Definition stepEv (R : option FileFormat -> Prop) (prev next : ConvertPathNode) (e : Event)
  : Prop :=
  match e with
  | EvStepStart _ _ => True
  | EvInit h _ => h = n_handler next
  | EvConvert s d _ f _ => s = prev /\ d = next /\ R f
  | _ => False
  end.

(** The input format the executor looks up (main.js 830). *)
Definition lookupInput (formats : list FileFormat) (prev : ConvertPathNode)
  : option FileFormat :=
  find (fun c => mime_eqb (fmt_mime c) (fmt_mime (n_format prev)) && fmt_from c) formats.

Definition isReady (st : State) (h : FormatHandler) : Prop :=
  hs_ready (handlerState st h) = true.

Lemma handlerState_insert st h h' hs st0 :
  handlerStates st0 = <[h_ref h := hs]> (handlerStates st) ->
  handlerState st0 h' = if decide (h_ref h = h_ref h') then hs else handlerState st h'.
Proof.
  intros E. unfold handlerState. rewrite E, lookup_insert.
  by destruct (decide (h_ref h = h_ref h')).
Qed.

Ltac break_step :=
  repeat match goal with
         | H : context [let '(_, _) := ?x in _] |- _ => destruct x eqn:?
         | H : context [if ?b then _ else _] |- _ => destruct b eqn:?
         | H : context [match ?x with Some _ => _ | None => _ end] |- _ => destruct x eqn:?
         | H : (_, _) = (_, _) |- _ => inversion H; subst; clear H
         end.

(** One hop, whatever the state of the handler. *)
Lemma attemptStep_spec (R : option FileFormat -> Prop) b path i prev next files st r st' :
  attemptStep b path i prev next files st = (r, st') ->
  (forall formats,
      (isReady st (n_handler next) ->
       supportedFormatCache st !! h_name (n_handler next) = Some formats) ->
      R (lookupInput formats prev)) ->
  frame st st'
  /\ exists new, trace st' = trace st ++ new /\ Forall (stepEv R prev next) new
     /\ match r with
        | Some out =>
            convertPathCache st' = convertPathCache st ++ [mkEntry out next]
            /\ exists input f, In (EvConvert prev next input f (Some out)) new
        | None => convertPathCache st' = convertPathCache st
        end.
Proof.
  unfold attemptStep, isReady. intros H HR.
  set (st1 := if b then log (EvStepStart path i) st else st) in *.
  assert (Hf1 : frame st st1) by (subst st1; destruct b; by repeat split).
  assert (Hc1 : convertPathCache st1 = convertPathCache st) by (subst st1; by destruct b).
  assert (Hs1 : supportedFormatCache st1 = supportedFormatCache st) by (subst st1; by destruct b).
  assert (Hh1 : handlerState st1 (n_handler next) = handlerState st (n_handler next))
    by (subst st1; by destruct b).
  assert (Ht1 : exists n1, trace st1 = trace st ++ n1 /\ Forall (stepEv R prev next) n1).
  { subst st1; destruct b; [exists [EvStepStart path i] | exists []]; simpl;
      rewrite ?app_nil_r; split; by repeat constructor. }
  destruct Ht1 as (n1 & Ht1 & HF1).
  destruct Hf1 as (?&?&?&?&?).
  rewrite Hh1, Hs1 in H.
  break_step; simpl in *; unfold frame; simpl;
    (split; [repeat split; congruence |]);
    rewrite ?Ht1, <- ?app_assoc; simpl;
    eexists; (split; [reflexivity |]); (split; [| first [ by rewrite Hc1 | split; [by rewrite Hc1 | do 2 eexists; apply in_or_app; right; simpl; eauto] | idtac ]]);
    try (apply Forall_app; split; [done |]; repeat constructor; simpl; auto).
  all: try (split; [done | split; [done |]]).
  all: try (apply HR; intros; congruence).
  all: try (apply HR; intros Hr; rewrite Hr in *; congruence).
  all: done.
Qed.

(** A hop through a handler that is ready leaves the format cache and the
    [ready] flags alone. *)
Lemma attemptStep_ready b path i prev next files st r st' :
  attemptStep b path i prev next files st = (r, st') ->
  isReady st (n_handler next) ->
  supportedFormatCache st' = supportedFormatCache st
  /\ forall h, isReady st h -> isReady st' h.
Proof.
  unfold attemptStep, isReady. intros H Hr.
  set (st1 := if b then log (EvStepStart path i) st else st) in *.
  assert (Hs1 : supportedFormatCache st1 = supportedFormatCache st) by (subst st1; by destruct b).
  assert (Hh1 : forall h, handlerState st1 h = handlerState st h)
    by (intros; subst st1; by destruct b).
  rewrite Hh1, Hr, Hs1 in H.
  destruct (supportedFormatCache st !! h_name (n_handler next)) as [formats|] eqn:Hc;
    simpl in H; [| inversion H; subst; split; [done | intros h; by rewrite Hh1]].
  destruct (h_doConvert _ _ _ _ _) as [out internal'] eqn:Hd.
  assert (Hkeep : forall stx h,
             handlerStates stx =
               <[h_ref (n_handler next) :=
                   mkHState (hs_ready (handlerState st1 (n_handler next)))
                            (hs_supportedFormats (handlerState st1 (n_handler next)))
                            internal']> (handlerStates st1) ->
             hs_ready (handlerState st h) = true -> hs_ready (handlerState stx h) = true).
  { intros stx h E Hh. rewrite (handlerState_insert st1 (n_handler next) h _ stx E).
    destruct (decide _); simpl; rewrite Hh1; [done | done]. }
  destruct out as [files'|]; [destruct (existsb _ files') |];
    inversion H; subst; simpl; (split; [done |]); intros h Hh; eapply Hkeep; eauto.
Qed.

(** The events of a run of hops. *)
Definition loopEv (R : ConvertPathNode -> ConvertPathNode -> option FileFormat -> Prop)
    (hops : list (ConvertPathNode * ConvertPathNode)) (e : Event) : Prop :=
  match e with
  | EvStepStart _ _ => True
  | EvInit h _ => exists s d, In (s, d) hops /\ h = n_handler d
  | EvConvert s d _ f _ => In (s, d) hops /\ R s d f
  | _ => False
  end.

Lemma loopEv_mono R hops hops' e :
  (forall x, In x hops -> In x hops') -> loopEv R hops e -> loopEv R hops' e.
Proof.
  intros Hsub. destruct e; simpl; try done.
  - intros (s & d & ? & ?). eauto.
  - intros (? & ?). eauto.
Qed.

(** [converted new s d]: a [doConvert] for the hop from [s] to [d]
    returned during [new]. *)
Definition converted (new : list Event) (hop : ConvertPathNode * ConvertPathNode) : Prop :=
  exists input f out, In (EvConvert (fst hop) (snd hop) input f (Some out)) new.

Lemma converted_app_l new1 new2 hop : converted new1 hop -> converted (new1 ++ new2) hop.
Proof. intros (i & f & o & H). exists i, f, o. apply in_or_app. by left. Qed.

Lemma converted_app_r new1 new2 hop : converted new2 hop -> converted (new1 ++ new2) hop.
Proof. intros (i & f & o & H). exists i, f, o. apply in_or_app. by right. Qed.

(** The loop of the executor: it runs the hops in order up to the first
    failure, pushing one cache entry per hop that went through. *)
Lemma attemptLoop_spec (J : State -> Prop)
    (R : ConvertPathNode -> ConvertPathNode -> option FileFormat -> Prop) b path hops :
  (forall i prev next files st r st',
      In (prev, next) hops -> J st ->
      attemptStep b path i prev next files st = (r, st') -> J st') ->
  (forall prev next st formats,
      In (prev, next) hops -> J st ->
      (isReady st (n_handler next) ->
       supportedFormatCache st !! h_name (n_handler next) = Some formats) ->
      R prev next (lookupInput formats prev)) ->
  forall todo i files st r st',
    (forall x, In x todo -> In x hops) ->
    J st ->
    attemptLoop b path i todo files st = (r, st') ->
    J st' /\ frame st st'
    /\ exists new done,
        trace st' = trace st ++ new /\ Forall (loopEv R hops) new
        /\ map ce_node (convertPathCache st') = map ce_node (convertPathCache st) ++ map snd done
        /\ done `prefix_of` todo
        /\ Forall (converted new) done
        /\ match r with
           | Some out =>
               done = todo
               /\ (todo <> [] ->
                   exists s d input f, In (EvConvert s d input f (Some out)) new)
           | None => length done < length todo
           end.
Proof.
  intros HJ HR todo. induction todo as [|[prev next] rest IH]; intros i files st r st' Hsub Jst H.
  - simpl in H. inversion H; subst. split; [done|]. split; [apply frame_refl|].
    exists [], []. rewrite !app_nil_r. repeat split; try done; constructor.
  - simpl in H. destruct (attemptStep b path i prev next files st) as [[files'|] st1] eqn:Hstep.
    + assert (Hin : In (prev, next) hops) by (apply Hsub; by left).
      pose proof (HJ _ _ _ _ _ _ _ Hin Jst Hstep) as Jst1.
      destruct (attemptStep_spec (R prev next) _ _ _ _ _ _ _ _ _ Hstep
                  (fun fs Hfs => HR prev next st fs Hin Jst Hfs))
        as (Hfr1 & n1 & Ht1 & HF1 & Hc1 & Hconv).
      destruct (IH (S i) files' st1 r st' (fun x Hx => Hsub x (or_intror Hx)) Jst1 H)
        as (Jst' & Hfr2 & n2 & done & Ht2 & HF2 & Hc2 & Hpre & Hdone & Hr).
      split; [done|]. split; [eapply frame_trans; eauto|].
      exists (n1 ++ n2), ((prev, next) :: done).
      split; [by rewrite Ht2, Ht1, app_assoc|].
      split.
      { apply Forall_app. split; [|done].
        eapply Forall_impl; [exact HF1|]. intros e He. destruct e; simpl in *; try done.
        - subst. eauto.
        - destruct He as (-> & -> & ?). by split. }
      split; [rewrite Hc2, Hc1, map_app; simpl; by rewrite <- app_assoc|].
      split; [by apply prefix_cons|].
      split.
      { constructor.
        - apply converted_app_l. destruct Hconv as (input & f & Hev). by exists input, f, files'.
        - eapply Forall_impl; [exact Hdone|]. intros hop. apply converted_app_r. }
      destruct r as [out|].
      * destruct Hr as [-> Hlast]. split; [done|]. intros _.
        destruct rest as [|hop rest'].
        -- simpl in H. inversion H; subst. destruct Hconv as (input & f & Hev).
           exists prev, next, input, f. apply in_or_app. by left.
        -- destruct Hlast as (s & d & input & f & Hev); [done|].
           exists s, d, input, f. apply in_or_app. by right.
      * simpl. lia.
    + inversion H; subst.
      assert (Hin : In (prev, next) hops) by (apply Hsub; by left).
      pose proof (HJ _ _ _ _ _ _ _ Hin Jst Hstep) as Jst1.
      destruct (attemptStep_spec (R prev next) _ _ _ _ _ _ _ _ _ Hstep
                  (fun fs Hfs => HR prev next st fs Hin Jst Hfs))
        as (Hfr1 & n1 & Ht1 & HF1 & Hc1).
      split; [done|]. split; [done|].
      exists n1, []. split; [done|].
      split.
      { eapply Forall_impl; [exact HF1|]. intros e He. destruct e; simpl in *; try done.
        - subst. eauto.
        - destruct He as (-> & -> & ?). by split. }
      split; [by rewrite Hc1, app_nil_r|].
      split; [apply prefix_nil|]. split; [constructor|]. simpl. lia.
Qed.

(** ** Hops of a chain *)

Lemma hops_from_0 path : hops_from 0 path = zip path (tail path).
Proof. done. Qed.

Lemma hops_snoc path previous c :
  last path = Some previous ->
  hops_from 0 (path ++ [c]) = hops_from 0 path ++ [(previous, c)].
Proof.
  unfold hops_from. rewrite !drop_0.
  induction path as [|x rest IH]; intros Hl; [done|].
  destruct rest as [|y rest'].
  - simpl in Hl. by inversion Hl.
  - change (last (y :: rest') = Some previous) in Hl. specialize (IH Hl).
    change (((x, y) :: zip ((y :: rest') ++ [c]) (tail ((y :: rest') ++ [c])))
            = (x, y) :: (zip (y :: rest') (tail (y :: rest')) ++ [(previous, c)])).
    by rewrite IH.
Qed.

Lemma hops_snd path : map snd (hops_from 0 path) = tail path.
Proof.
  unfold hops_from. rewrite drop_0.
  induction path as [|x rest IH]; [done|].
  destruct rest as [|y rest']; [done|].
  change (snd (x, y) :: map snd (zip (y :: rest') (tail (y :: rest'))) = y :: rest').
  by rewrite IH.
Qed.

Lemma hops_length path : length (hops_from 0 path) = length (tail path).
Proof. by rewrite <- hops_snd, length_map. Qed.

Lemma hops_from_In k path x : In x (hops_from k path) -> In x (hops_from 0 path).
Proof.
  unfold hops_from. rewrite drop_0. intros H.
  rewrite <- (take_drop k (zip path (tail path))). apply in_or_app. by right.
Qed.

(** ** The executor *)

Section Attempt.

(** [J] is what is assumed of the state, [okHop] of the hops, and [R]
    what is then known of the input format handed to [doConvert]. *)
Variable J : State -> Prop.
Variable okHop : ConvertPathNode -> ConvertPathNode -> Prop.
Variable R : ConvertPathNode -> ConvertPathNode -> option FileFormat -> Prop.

Hypothesis J_stable : forall st st',
    supportedFormatCache st' = supportedFormatCache st ->
    handlerStates st' = handlerStates st -> J st -> J st'.
Hypothesis J_step : forall b path i prev next files st r st',
    okHop prev next -> J st ->
    attemptStep b path i prev next files st = (r, st') -> J st'.
Hypothesis R_step : forall prev next st formats,
    okHop prev next -> J st ->
    (isReady st (n_handler next) ->
     supportedFormatCache st !! h_name (n_handler next) = Some formats) ->
    R prev next (lookupInput formats prev).

Definition okChain (path : list ConvertPathNode) : Prop :=
  Forall (fun hop => okHop (fst hop) (snd hop)) (hops_from 0 path).

Lemma attemptConvertPath_spec files path b st r st' :
  okChain path -> J st ->
  attemptConvertPath files path b st = (r, st') ->
  J st' /\ frame st st'
  /\ exists new done,
      trace st' = trace st ++ EvAttempt path :: new
      /\ Forall (loopEv R (hops_from 0 path)) new
      /\ map ce_node (convertPathCache st')
         = map ce_node (convertPathCache st) ++ map snd done
      /\ done `prefix_of` hops_from (length (convertPathCache st)) path
      /\ Forall (converted new) done
      /\ match r with
         | Some (out, p) =>
             p = path /\ done = hops_from (length (convertPathCache st)) path
             /\ (done <> [] ->
                 exists s d input f, In (EvConvert s d input f (Some out)) new)
             /\ (done = [] ->
                 out = from_option ce_files files (last (convertPathCache st)))
         | None => length done < length (hops_from (length (convertPathCache st)) path)
         end.
Proof.
  intros Hok Jst H. unfold attemptConvertPath in H.
  set (st0 := log (EvAttempt path) st) in *.
  assert (Hstart : match last (convertPathCache st0) with
                   | Some _ => length (convertPathCache st0) | None => 0 end
                   = length (convertPathCache st)).
  { simpl. destruct (last (convertPathCache st)) eqn:Hl; [done|].
    apply last_None in Hl. by rewrite Hl. }
  rewrite Hstart in H.
  destruct (attemptLoop b path _ _ _ st0) as [r0 st1] eqn:Hloop.
  assert (Jst0 : J st0) by (eapply J_stable; [| | exact Jst]; done).
  destruct (attemptLoop_spec J R b path (hops_from 0 path)
              (fun i prev next files st r st' Hin =>
                 J_step b path i prev next files st r st'
                   (proj1 (List.Forall_forall _ _) Hok (prev, next) Hin))
              (fun prev next st formats Hin =>
                 R_step prev next st formats
                   (proj1 (List.Forall_forall _ _) Hok (prev, next) Hin))
              _ _ _ _ _ _ (hops_from_In _ path) Jst0 Hloop)
    as (Jst1 & Hfr & new & done & Ht & HF & Hc & Hpre & Hdone & Hr).
  assert (Hres : st' = st1 /\ r = (fun out => (out, path)) <$> r0).
  { destruct r0; inversion H; by subst. }
  destruct Hres as [-> ->].
  split; [done|]. split; [exact Hfr|].
  exists new, done. split; [rewrite Ht; simpl; by rewrite <- app_assoc|].
  split; [done|]. split; [done|]. split; [done|]. split; [done|].
  destruct r0 as [out|]; simpl; [|done].
  destruct Hr as [-> Hlast]. split; [done|]. split; [done|]. split; [done|].
  intros Hnil. rewrite Hnil in Hloop. simpl in Hloop. inversion Hloop; subst.
  simpl. by destruct (last (convertPathCache st)).
Qed.

End Attempt.

(** ** The prefix cache during one turn of the search *)

(** [aligned pre st path]: the nodes of the prefix cache are the first
    nodes of [path] after its head, and each of the hops they stand for
    went through [doConvert] during [pre]. *)
Definition aligned (pre : list Event) (st : State) (path : list ConvertPathNode) : Prop :=
  map ce_node (convertPathCache st) `prefix_of` tail path
  /\ Forall (converted pre) (take (length (convertPathCache st)) (hops_from 0 path)).

Lemma prefix_is_take {A} (l1 l2 : list A) : l1 `prefix_of` l2 -> l1 = take (length l1) l2.
Proof. intros [k ->]. by rewrite take_app_length. Qed.

Lemma aligned_empty pre st path : convertPathCache st = [] -> aligned pre st path.
Proof. intros E. unfold aligned. rewrite E. simpl. split; [apply prefix_nil | constructor]. Qed.

Section Closing.

Variable J : State -> Prop.
Variable okHop : ConvertPathNode -> ConvertPathNode -> Prop.
Variable R : ConvertPathNode -> ConvertPathNode -> option FileFormat -> Prop.
Variable P : list ConvertPathNode -> Prop.

Hypothesis J_stable : forall st st',
    supportedFormatCache st' = supportedFormatCache st ->
    handlerStates st' = handlerStates st -> J st -> J st'.
Hypothesis J_step : forall b path i prev next files st r st',
    okHop prev next -> J st ->
    attemptStep b path i prev next files st = (r, st') -> J st'.
Hypothesis R_step : forall prev next st formats,
    okHop prev next -> J st ->
    (isReady st (n_handler next) ->
     supportedFormatCache st !! h_name (n_handler next) = Some formats) ->
    R prev next (lookupInput formats prev).

(** The events of a search: every chain handed to the executor
    satisfies [P], and every [doConvert] belongs to a hop of such a
    chain. *)
Definition searchEv (e : Event) : Prop :=
  match e with
  | EvPathAttempt _ => True
  | EvStepStart _ _ => True
  | EvInit _ _ => True
  | EvAttempt p => P p
  | EvConvert s d _ f _ => (exists p, P p /\ In (s, d) (hops_from 0 p)) /\ R s d f
  | _ => False
  end.

Lemma aligned_more pre new st path : aligned pre st path -> aligned (pre ++ new) st path.
Proof.
  intros [H1 H2]. split; [done|]. eapply Forall_impl; [exact H2|].
  intros hop. apply converted_app_l.
Qed.

Lemma attempt_aligned pre files path previous c st r st' :
  last path = Some previous ->
  okChain okHop (path ++ [c]) -> P (path ++ [c]) ->
  J st ->
  attemptConvertPath files (path ++ [c]) false st = (r, st') ->
  J st' /\ frame st st'
  /\ exists new,
      trace st' = trace st ++ new /\ Forall searchEv new
      /\ (forall res, r = Some res -> snd res = path ++ [c])
      /\ (aligned pre st path ->
          match r with
          | None => aligned (pre ++ new) st' path
          | Some (out, p) => Forall (converted (pre ++ new)) (hops_from 0 p)
          end).
Proof.
  intros Hlast Hok HP Jst H.
  destruct (attemptConvertPath_spec J okHop R J_stable J_step R_step _ _ _ _ _ _ Hok Jst H)
    as (Jst' & Hfr & new & done & Ht & HF & Hc & Hdpre & Hdone & Hr).
  split; [done|]. split; [done|].
  exists (EvAttempt (path ++ [c]) :: new). split; [done|].
  split.
  { constructor; [exact HP|]. eapply Forall_impl; [exact HF|].
    intros e He. destruct e; simpl in *; try done.
    destruct He as [Hin HR]. split; [|done]. by exists (path ++ [c]). }
  split.
  { intros [out p] ->. by destruct Hr as (-> & _). }
  intros [Hpre Hback].
  set (k := length (convertPathCache st)) in *.
  set (hP := hops_from 0 path) in *.
  assert (HhC : hops_from 0 (path ++ [c]) = hP ++ [(previous, c)]) by by apply hops_snoc.
  assert (Hk : k <= length hP).
  { subst k hP. rewrite hops_length. apply prefix_length in Hpre.
    by rewrite length_map in Hpre. }
  assert (Htail : tail (path ++ [c]) = tail path ++ [c]).
  { destruct path; [done | done]. }
  assert (Hdone_take : done = take (length done) (drop k (hP ++ [(previous, c)]))).
  { rewrite <- HhC. apply prefix_is_take. exact Hdpre. }
  assert (Hconv_all :
            Forall (converted (pre ++ EvAttempt (path ++ [c]) :: new)) (take k hP ++ done)).
  { apply Forall_app. split.
    - eapply Forall_impl; [exact Hback|]. intros hop. apply converted_app_l.
    - eapply Forall_impl; [exact Hdone|]. intros hop Hh.
      apply converted_app_r. destruct Hh as (i & f & o & Hh). exists i, f, o. by right. }
  destruct r as [[out p]|].
  - destruct Hr as (-> & Hd & _).
    rewrite HhC. rewrite <- (take_drop k (hP ++ [(previous, c)])).
    rewrite take_app_le by done.
    change (hops_from k (path ++ [c])) with (drop k (hops_from 0 (path ++ [c]))) in Hd.
    rewrite HhC in Hd. by rewrite <- Hd.
  - change (hops_from k (path ++ [c])) with (drop k (hops_from 0 (path ++ [c]))) in Hr.
    rewrite HhC, length_drop, length_app in Hr. simpl in Hr.
    assert (Hlen : length (convertPathCache st') = k + length done).
    { rewrite <- (length_map ce_node), Hc, length_app, !length_map. done. }
    assert (Htk : take (k + length done) (hP ++ [(previous, c)]) = take k hP ++ done).
    { rewrite <- take_take_drop. rewrite take_app_le by done. by rewrite <- Hdone_take. }
    split.
    + rewrite Hc. rewrite (prefix_is_take _ _ Hpre) at 1. rewrite length_map. fold k.
      assert (Hs : map snd done = take (length done) (drop k (tail path ++ [c]))).
      { rewrite Hdone_take at 1. rewrite <- firstn_map, <- skipn_map.
        rewrite <- HhC, hops_snd, Htail. done. }
      rewrite Hs. rewrite <- (take_app_le (tail path) [c] k)
        by (rewrite <- hops_length; exact Hk).
      rewrite take_take_drop. rewrite take_app_le by (rewrite <- hops_length; fold hP; lia).
      apply prefix_take.
    + rewrite Hlen. rewrite <- (take_app_le hP [(previous, c)]) by lia.
      by rewrite Htk.
Qed.

(** The loops over closing candidates. *)
Lemma tryEach_spec track opa files path previous :
  last path = Some previous ->
  forall cands best st r best' st' pre,
    (forall c, In c cands -> okChain okHop (path ++ [c]) /\ P (path ++ [c])) ->
    J st ->
    tryEach track opa files path cands best st = (r, best', st') ->
    J st' /\ frame st st'
    /\ exists new,
        trace st' = trace st ++ new /\ Forall searchEv new
        /\ (forall res, r = Some res -> exists c, In c cands /\ snd res = path ++ [c])
        /\ (aligned pre st path ->
            match r with
            | None => aligned (pre ++ new) st' path
            | Some (out, p) => Forall (converted (pre ++ new)) (hops_from 0 p)
            end).
Proof.
  intros Hlast cands. induction cands as [|c rest IH]; intros best st r best' st' pre Hc Jst H.
  - simpl in H. inversion H; subst. split; [done|]. split; [apply frame_refl|].
    exists []. rewrite !app_nil_r. split; [done|]. split; [constructor|].
    split; [intros res E; discriminate | by intros Hal].
  - simpl in H.
    set (st0 := if opa then log (EvPathAttempt (path ++ [c])) st else st) in *.
    assert (Jst0 : J st0) by (subst st0; destruct opa; [eapply J_stable; [| |exact Jst]|]; done).
    assert (Hfr0 : frame st st0) by (subst st0; destruct opa; by repeat split).
    assert (Ht0 : exists n0, trace st0 = trace st ++ n0 /\ Forall searchEv n0).
    { subst st0. destruct opa; [exists [EvPathAttempt (path ++ [c])] | exists []]; simpl;
        rewrite ?app_nil_r; split; by repeat constructor. }
    assert (Hal0 : forall pre', aligned pre' st path -> aligned pre' st0 path).
    { subst st0. by destruct opa. }
    destruct Ht0 as (n0 & Ht0 & HF0).
    destruct (attemptConvertPath files (path ++ [c]) false st0) as [r1 st1] eqn:Hatt.
    destruct (Hc c (or_introl eq_refl)) as [Hokc HPc].
    destruct (attempt_aligned (pre ++ n0) _ _ _ _ _ _ _ Hlast Hokc HPc Jst0 Hatt)
      as (Jst1 & Hfr1 & n1 & Ht1 & HF1 & Hres1 & Hal1).
    destruct r1 as [res|].
    + inversion H; subst. split; [done|]. split; [eapply frame_trans; eauto|].
      exists (n0 ++ n1). split; [by rewrite Ht1, Ht0, app_assoc|].
      split; [by apply Forall_app|].
      split.
      { intros res' E. inversion E; subst. exists c. split; [by left | by apply Hres1]. }
      intros Hal. rewrite app_assoc. apply Hal1. apply Hal0. by apply aligned_more.
    + match type of H with tryEach _ _ _ _ _ ?b _ = _ => set (best1 := b) in * end.
      destruct (IH best1 st1 r best' st' (pre ++ n0 ++ n1)
                  (fun c' Hc' => Hc c' (or_intror Hc')) Jst1 H)
        as (Jst' & Hfr2 & n2 & Ht2 & HF2 & Hres2 & Hal2).
      split; [done|]. split; [eapply frame_trans; [|exact Hfr2]; eapply frame_trans; eauto|].
      exists (n0 ++ n1 ++ n2). split; [by rewrite Ht2, Ht1, Ht0, !app_assoc|].
      split; [by repeat (apply Forall_app; split)|].
      split.
      { intros res E. destruct (Hres2 res E) as (c' & Hin & Ec). exists c'. split; [by right|done]. }
      intros Hal. replace (pre ++ n0 ++ n1 ++ n2) with ((pre ++ n0 ++ n1) ++ n2)
        by (by rewrite !app_assoc).
      apply Hal2. rewrite app_assoc. apply Hal1. apply Hal0. by apply aligned_more.
Qed.

Lemma closeOnTarget_spec files target opa path previous vH best st r best' st' pre :
  last path = Some previous ->
  (simpleMode st = true ->
   forall c, In c (allOptions st) -> includes vH (n_handler c) = true ->
             mime_eqb (fmt_mime (n_format c)) (fmt_mime (n_format target)) = true ->
             fmt_to (n_format c) = true ->
             okChain okHop (path ++ [c]) /\ P (path ++ [c])) ->
  (simpleMode st = false -> includes vH (n_handler target) = true ->
   okChain okHop (path ++ [target]) /\ P (path ++ [target])) ->
  J st ->
  closeOnTarget files target opa path vH best st = (r, best', st') ->
  J st' /\ frame st st'
  /\ exists new,
      trace st' = trace st ++ new /\ Forall searchEv new
      /\ (forall res, r = Some res -> exists c, snd res = path ++ [c])
      /\ (aligned pre st path ->
          match r with
          | None => aligned (pre ++ new) st' path
          | Some (out, p) => Forall (converted (pre ++ new)) (hops_from 0 p)
          end).
Proof.
  intros Hlast Hsimple Hadv Jst H. unfold closeOnTarget in H.
  destruct (simpleMode st) eqn:Hmode.
  - eapply (tryEach_spec _ _ _ _ _ Hlast _ _ _ _ _ _ pre) in H; [|
      intros c Hc; apply filter_In in Hc as [Hin Hf];
      apply andb_prop in Hf as [Hf Hto]; apply andb_prop in Hf as [Hinc Hm];
      by apply Hsimple | done].
    destruct H as (? & ? & new & ? & ? & Hres & ?). split; [done|]. split; [done|].
    exists new. repeat (split; [done|]). split; [|done].
    intros res E. destruct (Hres res E) as (c & _ & ?). by exists c.
  - destruct (includes vH (n_handler target)) eqn:Hinc.
    + eapply (tryEach_spec _ _ _ _ _ Hlast _ _ _ _ _ _ pre) in H; [|
        intros c [<-|[]]; by apply Hadv | done].
      destruct H as (? & ? & new & ? & ? & Hres & ?). split; [done|]. split; [done|].
      exists new. repeat (split; [done|]). split; [|done].
      intros res E. destruct (Hres res E) as (c & _ & ?). by exists c.
    + inversion H; subst. split; [done|]. split; [apply frame_refl|].
      exists []. rewrite !app_nil_r. split; [done|]. split; [constructor|].
      split; [intros res E; discriminate | by intros Hal].
Qed.

Lemma closeOnAnyInput_spec anyInput files target opa path previous st r st' pre :
  last path = Some previous ->
  (forall c, In c anyInput ->
             mime_eqb (fmt_mime (n_format c)) (fmt_mime (n_format target)) = true ->
             okChain okHop (path ++ [c]) /\ P (path ++ [c])) ->
  J st ->
  closeOnAnyInput anyInput files target opa path st = (r, st') ->
  J st' /\ frame st st'
  /\ exists new,
      trace st' = trace st ++ new /\ Forall searchEv new
      /\ (forall res, r = Some res -> exists c, snd res = path ++ [c])
      /\ (aligned pre st path ->
          match r with
          | None => aligned (pre ++ new) st' path
          | Some (out, p) => Forall (converted (pre ++ new)) (hops_from 0 p)
          end).
Proof.
  intros Hlast Hany Jst H. unfold closeOnAnyInput in H.
  destruct (tryEach false opa files path _ None st) as [[r0 b0] st0] eqn:Htry.
  inversion H; subst.
  eapply (tryEach_spec _ _ _ _ _ Hlast _ _ _ _ _ _ pre) in Htry; [|
    intros c Hc; apply filter_In in Hc as [Hin Hf]; by apply Hany | done].
  destruct Htry as (? & ? & new & ? & ? & Hres & ?). split; [done|]. split; [done|].
  exists new. repeat (split; [done|]). split; [|done].
  intros res E. destruct (Hres res E) as (c & _ & ?). by exists c.
Qed.

End Closing.

(** ** The search loop *)

Lemma okChain_trivial path : okChain (fun _ _ => True) path.
Proof. unfold okChain. apply List.Forall_forall. done. Qed.

Lemma deadlineExceeded_state clock dl st late st' :
  deadlineExceeded clock dl st = (late, st') ->
  trace st' = trace st /\ convertPathCache st' = convertPathCache st
  /\ supportedFormatCache st' = supportedFormatCache st
  /\ handlerStates st' = handlerStates st
  /\ next_ref st' = next_ref st /\ allOptions st' = allOptions st
  /\ simpleMode st' = simpleMode st.
Proof.
  unfold deadlineExceeded. intros H.
  destruct dl as [d|]; [destruct (Z.eqb d 0)|]; inversion H; subst; by repeat split.
Qed.

Section ChainLength.

Variable handlers : list FormatHandler.
Variable anyInput : list ConvertPathNode.
Variable clock : nat -> Z.

(** Every event of the search that hands a chain to the executor
    carries a chain of at most six nodes. *)
Definition shortAttempt (e : Event) : Prop :=
  match e with
  | EvAttempt p => length p <= 6
  | _ => True
  end.

Lemma searchIteration_short files target opa dl path v st res st' :
  searchIteration handlers anyInput clock files target opa dl path v st = (res, st') ->
  extends shortAttempt st st'.
Proof.
  unfold searchIteration. intros H.
  destruct (deadlineExceeded clock dl st) as [late st1] eqn:Hd.
  apply deadlineExceeded_state in Hd as (Ht1 & _).
  destruct late.
  { destruct (last (convertPathCache st1)); inversion H; subst;
      by apply extends_same_trace. }
  destruct (5 <? length path) eqn:Hlen.
  { inversion H; subst. by apply extends_same_trace. }
  apply Nat.ltb_ge in Hlen.
  set (st2 := set_convertPathCache _ st1) in *.
  assert (Ht2 : trace st2 = trace st) by done.
  destruct (last path) as [previous|] eqn:Hlast;
    [| inversion H; subst; by apply extends_same_trace].
  assert (HP : forall c, okChain (fun _ _ => True) (path ++ [c])
                         /\ length (path ++ [c]) <= 6).
  { intros c. split; [apply okChain_trivial|]. rewrite length_app. simpl. lia. }
  assert (Hweak : forall e, searchEv (fun _ _ _ => True) (fun p => length p <= 6) e ->
                            shortAttempt e).
  { intros e. by destruct e. }
  destruct (closeOnTarget _ _ _ _ _ _ st2) as [[r1 best1] st3] eqn:Hclose.
  eapply (closeOnTarget_spec (fun _ => True) (fun _ _ => True) (fun _ _ _ => True)
            (fun p => length p <= 6)) with (pre := []) in Hclose; eauto.
  destruct Hclose as (_ & _ & n3 & Ht3 & HF3 & _).
  assert (E3 : extends shortAttempt st st3).
  { exists n3. rewrite Ht3, Ht2. split; [done|]. eapply Forall_impl; eauto. }
  destruct r1 as [[out p]|]; [inversion H; by subst|].
  destruct (isNestedConversion v).
  { destruct (expand st3 path _ _) as [new ref] eqn:Hex. inversion H; subst.
    eapply extends_trans; [exact E3|]. by apply extends_same_trace. }
  destruct (closeOnAnyInput _ _ _ _ _ st3) as [r2 st4] eqn:Hany.
  eapply (closeOnAnyInput_spec (fun _ => True) (fun _ _ => True) (fun _ _ _ => True)
            (fun p => length p <= 6)) with (pre := []) in Hany; eauto.
  destruct Hany as (_ & _ & n4 & Ht4 & HF4 & _).
  assert (E4 : extends shortAttempt st st4).
  { eapply extends_trans; [exact E3|]. exists n4. split; [done|].
    eapply Forall_impl; eauto. }
  destruct r2 as [[out p]|]; [inversion H; by subst|].
  destruct (expand st4 path _ _) as [new ref] eqn:Hex. inversion H; subst.
  eapply extends_trans; [exact E4|]. by apply extends_same_trace.
Qed.

Lemma searchLoop_short fuel files target opa dl :
  forall v st res st',
    searchLoop handlers anyInput clock fuel files target opa dl v st = (res, st') ->
    extends shortAttempt st st'.
Proof.
  induction fuel as [|fuel IH]; intros v st res st' H; simpl in H.
  - inversion H; subst. apply extends_refl.
  - destruct (queue v) as [|path rest]; [inversion H; subst; apply extends_refl|].
    destruct (searchIteration _ _ _ _ _ _ _ _ _ st) as [[r|v'] st1] eqn:Hit.
    + inversion H; subst. eapply searchIteration_short; eauto.
    + eapply extends_trans; [eapply searchIteration_short; eauto|]. eapply IH; eauto.
Qed.

End ChainLength.

(** C7 -- bounded chain length.  Whatever the handlers, the queue, the
    mode and the deadline, every chain [buildConvertPath] hands to
    [attemptConvertPath] has at most six nodes (five hops); this covers
    the chains closed with a target candidate and those closed with an
    any-input writer, both being a dequeued chain of at most five nodes
    plus one node. *)
Theorem chain_length_bounded handlers anyInput clock fuel files target initialQueue
    onPathAttempt deadlineMs st :
  exists new,
    trace (snd (buildConvertPath handlers anyInput clock fuel files target initialQueue
                  onPathAttempt deadlineMs st)) = trace st ++ new
    /\ Forall (fun e => match e with
                        | EvAttempt chain => length chain <= 6 /\ length chain - 1 <= 5
                        | _ => True
                        end) new.
Proof.
  unfold buildConvertPath.
  destruct (searchLoop _ _ _ _ _ _ _ _ _ _) as [res st'] eqn:H.
  apply searchLoop_short in H as (new & Ht & HF).
  exists new. split; [exact Ht|].
  eapply Forall_impl; [exact HF|]. intros e He. destruct e; simpl in *; try done. lia.
Qed.

(** ** What the expansion adds to the queue *)

Definition extensionOf (st : State) (path : list ConvertPathNode) (hs : list FormatHandler)
    (lo hi : nat) (p : list ConvertPathNode) : Prop :=
  exists n,
    p = path ++ [n] /\ In (n_handler n) hs
    /\ (exists fs, supportedFormatCache st !! h_name (n_handler n) = Some fs
                   /\ In (n_format n) fs)
    /\ lo <= n_ref n < hi
    /\ fmt_to (n_format n) = true /\ mime_set (fmt_mime (n_format n)) = true
    /\ existsb (fun c => format_same (n_format c) (n_format n)) path = false.

Lemma expandFormats_spec path h :
  forall fs ref new ref',
    expandFormats path h fs ref = (new, ref') ->
    ref <= ref'
    /\ Forall (fun p => exists n,
                   p = path ++ [n] /\ n_handler n = h /\ In (n_format n) fs
                   /\ ref <= n_ref n < ref'
                   /\ fmt_to (n_format n) = true /\ mime_set (fmt_mime (n_format n)) = true
                   /\ existsb (fun c => format_same (n_format c) (n_format n)) path = false)
              new.
Proof.
  induction fs as [|f rest IH]; intros ref new ref' H; simpl in H.
  - inversion H; subst. split; [lia | constructor].
  - assert (Hweak : forall r new' r', expandFormats path h rest r = (new', r') -> ref <= r ->
              ref <= r'
              /\ Forall (fun p => exists n,
                   p = path ++ [n] /\ n_handler n = h /\ In (n_format n) (f :: rest)
                   /\ ref <= n_ref n < r'
                   /\ fmt_to (n_format n) = true /\ mime_set (fmt_mime (n_format n)) = true
                   /\ existsb (fun c => format_same (n_format c) (n_format n)) path = false)
                  new').
    { intros r new' r' Hr Hle. destruct (IH _ _ _ Hr) as [Hle' HF]. split; [lia|].
      eapply Forall_impl; [exact HF|]. intros p (n & ? & ? & ? & ? & ?).
      exists n. repeat split; try tauto; try lia. by right. }
    destruct (negb (fmt_to f) || negb (mime_set (fmt_mime f))) eqn:Hskip.
    { eapply Hweak; [exact H | lia]. }
    destruct (existsb _ path) eqn:Hdup.
    { eapply Hweak; [exact H | lia]. }
    destruct (expandFormats path h rest (S ref)) as [more ref1] eqn:Hrest.
    inversion H; subst.
    destruct (Hweak _ _ _ Hrest (Nat.le_succ_diag_r _)) as [Hle HF].
    destruct (IH _ _ _ Hrest) as [Hle1 _].
    split; [lia|]. constructor; [|done].
    apply orb_false_elim in Hskip as [Hto Hm].
    apply negb_false_iff in Hto, Hm.
    exists (mkNode ref h f). simpl. repeat split; try done; try lia. by left.
Qed.

Lemma expand_spec st path :
  forall hs ref new ref',
    expand st path hs ref = (new, ref') ->
    ref <= ref' /\ Forall (extensionOf st path hs ref ref') new.
Proof.
  induction hs as [|h rest IH]; intros ref new ref' H; simpl in H.
  - inversion H; subst. split; [lia | constructor].
  - destruct (supportedFormatCache st !! h_name h) as [fs|] eqn:Hc.
    + destruct (expandFormats path h fs ref) as [new1 ref1] eqn:H1.
      destruct (expand st path rest ref1) as [new2 ref2] eqn:H2.
      inversion H; subst.
      destruct (expandFormats_spec _ _ _ _ _ _ H1) as [Hle1 HF1].
      destruct (IH _ _ _ H2) as [Hle2 HF2].
      split; [lia|]. apply Forall_app. split.
      * eapply Forall_impl; [exact HF1|].
        intros p (n & -> & <- & Hin & Hr & Hto & Hm & Hd).
        exists n. repeat split; try done; try lia; [by left | by exists fs].
      * eapply Forall_impl; [exact HF2|].
        intros p (n & -> & Hin & Hfs & Hr & Hto & Hm & Hd).
        exists n. repeat split; try done; try lia. by right.
    + destruct (IH _ _ _ H) as [Hle HF]. split; [done|].
      eapply Forall_impl; [exact HF|].
      intros p (n & -> & Hin & Hfs & Hr & Hto & Hm & Hd).
      exists n. repeat split; try done; try lia. by right.
Qed.

(** ** Adjacency of the chains the search builds *)

(** [declaresFrom fc h m]: in the format cache [fc], handler [h] has a
    format with MIME type [m] and [from = true]. *)
Definition declaresFrom (fc : gmap string (list FileFormat)) (h : FormatHandler)
    (m : option string) : bool :=
  match fc !! h_name h with
  | Some fs => readsMime m fs
  | None => false
  end.

Definition adjacentHop (fc : gmap string (list FileFormat))
    (hop : ConvertPathNode * ConvertPathNode) : Prop :=
  declaresFrom fc (n_handler (snd hop)) (fmt_mime (n_format (fst hop))) = true.

(** A chain made of a partial chain whose hops are all adjacent and of a
    closing node that is adjacent too, or else comes from
    [conversionsFromAnyInput]. *)
Definition closedChain (fc : gmap string (list FileFormat)) (anyInput : list ConvertPathNode)
    (chain : list ConvertPathNode) : Prop :=
  exists path previous c,
    chain = path ++ [c] /\ last path = Some previous
    /\ Forall (adjacentHop fc) (hops_from 0 path)
    /\ (adjacentHop fc (previous, c) \/ In c anyInput).

Lemma validHandlersFor_In handlers st previous h :
  In h (validHandlersFor handlers st previous)
  <-> In h handlers
      /\ declaresFrom (supportedFormatCache st) h (fmt_mime (n_format previous)) = true.
Proof. unfold validHandlersFor, declaresFrom. by rewrite filter_In. Qed.

Lemma includes_true hs h :
  includes hs h = true -> exists h', In h' hs /\ h_ref h = h_ref h'.
Proof.
  unfold includes. intros H. apply existsb_exists in H as (h' & Hin & Heq).
  exists h'. split; [done|]. by apply Nat.eqb_eq in Heq.
Qed.

Lemma declaresFrom_name fc h h' m :
  h_name h = h_name h' -> declaresFrom fc h m = declaresFrom fc h' m.
Proof. unfold declaresFrom. by intros ->. Qed.

Lemma tail_snoc {A} (l : list A) x y : last l = Some x -> tail (l ++ [y]) = tail l ++ [y].
Proof. by destruct l. Qed.

Section Adjacency.

Variable handlers : list FormatHandler.
Variable anyInput : list ConvertPathNode.
Variable clock : nat -> Z.
Variable target : ConvertPathNode.
Variable fc : gmap string (list FileFormat).
Variable ao : list ConvertPathNode.

(** The handler objects a search can meet. *)
Definition involved : list FormatHandler :=
  handlers ++ map n_handler ao ++ map n_handler anyInput ++ [n_handler target].

(** A reference designates one handler object, hence one name. *)
Hypothesis refs_name : forall h h',
    In h involved -> In h' involved -> h_ref h = h_ref h' -> h_name h = h_name h'.

(** The format cache is [fc] and every handler is initialised. *)
Definition steady (st : State) : Prop :=
  supportedFormatCache st = fc /\ Forall (isReady st) involved.

Definition knownHop (prev next : ConvertPathNode) : Prop := In (n_handler next) involved.

(** The input format handed to [doConvert] is the executor's lookup in
    the cached list of the handler. *)
Definition inputOK (s d : ConvertPathNode) (f : option FileFormat) : Prop :=
  exists formats, fc !! h_name (n_handler d) = Some formats /\ f = lookupInput formats s.

Lemma steady_stable st st' :
  supportedFormatCache st' = supportedFormatCache st ->
  handlerStates st' = handlerStates st -> steady st -> steady st'.
Proof.
  intros Hc Hh [H1 H2]. split; [congruence|].
  eapply Forall_impl; [exact H2|]. intros h. unfold isReady, handlerState. by rewrite Hh.
Qed.

Lemma steady_step b path i prev next files st r st' :
  knownHop prev next -> steady st ->
  attemptStep b path i prev next files st = (r, st') -> steady st'.
Proof.
  intros Hk [H1 H2] H.
  assert (Hr : isReady st (n_handler next))
    by exact (proj1 (List.Forall_forall _ _) H2 _ Hk).
  destruct (attemptStep_ready _ _ _ _ _ _ _ _ _ H Hr) as [Hc Hkeep].
  split; [congruence|]. eapply Forall_impl; [exact H2|]. exact Hkeep.
Qed.

Lemma inputOK_step prev next st formats :
  knownHop prev next -> steady st ->
  (isReady st (n_handler next) ->
   supportedFormatCache st !! h_name (n_handler next) = Some formats) ->
  inputOK prev next (lookupInput formats prev).
Proof.
  intros Hk [H1 H2] H. exists formats. split; [|done].
  rewrite <- H1. apply H. exact (proj1 (List.Forall_forall _ _) H2 _ Hk).
Qed.

(** What holds of every chain in the queue. *)
Definition pathInv (path : list ConvertPathNode) : Prop :=
  is_Some (last path)
  /\ Forall (adjacentHop fc) (hops_from 0 path)
  /\ Forall (fun n => In (n_handler n) involved) (tail path).

Lemma pathInv_okChain path previous c :
  pathInv path -> last path = Some previous -> In (n_handler c) involved ->
  okChain knownHop (path ++ [c]).
Proof.
  intros (_ & _ & Htl) Hlast Hc. unfold okChain.
  rewrite (hops_snoc _ _ _ Hlast). apply Forall_app. split.
  - apply List.Forall_forall. intros [s d] Hin. unfold knownHop. simpl.
    apply (proj1 (List.Forall_forall _ _) Htl).
    rewrite <- hops_snd. apply in_map_iff. by exists (s, d).
  - by repeat constructor.
Qed.

Lemma involved_handlers h : In h handlers -> In h involved.
Proof. intros H. apply in_or_app. by left. Qed.

Lemma involved_option c : In c ao -> In (n_handler c) involved.
Proof.
  intros H. apply in_or_app. right. apply in_or_app. left. by apply in_map.
Qed.

Lemma involved_anyInput c : In c anyInput -> In (n_handler c) involved.
Proof.
  intros H. apply in_or_app. right. apply in_or_app. right.
  apply in_or_app. left. by apply in_map.
Qed.

Lemma involved_target : In (n_handler target) involved.
Proof.
  apply in_or_app. right. apply in_or_app. right. apply in_or_app. right. by left.
Qed.

Lemma includes_adjacent st previous c :
  supportedFormatCache st = fc -> In (n_handler c) involved ->
  includes (validHandlersFor handlers st previous) (n_handler c) = true ->
  adjacentHop fc (previous, c).
Proof.
  intros Hfc Hc Hinc. apply includes_true in Hinc as (h' & Hin & Href).
  apply validHandlersFor_In in Hin as [Hin Hd]. rewrite Hfc in Hd.
  unfold adjacentHop. simpl. rewrite <- Hd. apply declaresFrom_name.
  apply refs_name; [done | by apply involved_handlers | done].
Qed.

Lemma searchIteration_adjacent files opa dl path v st res st' :
  steady st -> allOptions st = ao -> pathInv path -> Forall pathInv (queue v) ->
  searchIteration handlers anyInput clock files target opa dl path v st = (res, st') ->
  steady st' /\ allOptions st' = ao
  /\ extends (searchEv inputOK (closedChain fc anyInput)) st st'
  /\ forall v', res = inr v' -> Forall pathInv (queue v').
Proof.
  intros Hst Hao Hpath Hq H. unfold searchIteration in H.
  destruct (deadlineExceeded clock dl st) as [late st1] eqn:Hd.
  apply deadlineExceeded_state in Hd as (Ht1 & _ & Hc1 & Hh1 & _ & Hao1 & _).
  assert (Hst1 : steady st1) by (eapply steady_stable; eauto).
  destruct late.
  { destruct (last (convertPathCache st1)); inversion H; subst;
      (split; [done|]; split; [congruence|]; split; [by apply extends_same_trace|]; done). }
  destruct (5 <? length path) eqn:Hlen.
  { inversion H; subst. split; [done|]. split; [congruence|].
    split; [by apply extends_same_trace|]. intros v' E. by inversion E; subst. }
  set (st2 := set_convertPathCache _ st1) in *.
  assert (Hst2 : steady st2) by (eapply steady_stable; [| |exact Hst1]; done).
  assert (Hao2 : allOptions st2 = ao) by (simpl; congruence).
  assert (Ht2 : trace st2 = trace st) by done.
  destruct Hpath as (Hsome & Hadj & Htl).
  destruct (last path) as [previous|] eqn:Hlast; [|by destruct Hsome].
  assert (Hpath : pathInv path) by (split; [by rewrite Hlast|done]).
  set (vH := validHandlersFor handlers st2 previous) in *.
  assert (Hclosed : forall c, In (n_handler c) involved ->
            adjacentHop fc (previous, c) \/ In c anyInput ->
            okChain knownHop (path ++ [c]) /\ closedChain fc anyInput (path ++ [c])).
  { intros c Hc Hor. split; [by eapply pathInv_okChain|].
    by exists path, previous, c. }
  destruct (closeOnTarget _ _ _ _ _ _ st2) as [[r1 best1] st3] eqn:Hclose.
  eapply (closeOnTarget_spec steady knownHop inputOK (closedChain fc anyInput)
            steady_stable steady_step inputOK_step) with (pre := []) in Hclose;
    [ | exact Hlast | | | exact Hst2 ].
  2:{ intros _ c Hin Hinc _ _. rewrite Hao2 in Hin.
      apply Hclosed; [by apply involved_option|]. left.
      eapply includes_adjacent; [apply Hst2 | by apply involved_option | exact Hinc]. }
  2:{ intros _ Hinc. apply Hclosed; [apply involved_target|]. left.
      eapply includes_adjacent; [apply Hst2 | apply involved_target | exact Hinc]. }
  destruct Hclose as (Hst3 & Hfr3 & n3 & Ht3 & HF3 & _).
  assert (Hao3 : allOptions st3 = ao) by (destruct Hfr3 as (_ & -> & _); done).
  assert (E3 : extends (searchEv inputOK (closedChain fc anyInput)) st st3).
  { exists n3. by rewrite Ht3, Ht2. }
  destruct r1 as [[out p]|]; [inversion H; by subst|].
  assert (Hexpand : forall stx new ref,
            supportedFormatCache stx = fc ->
            expand stx path vH (next_ref stx) = (new, ref) ->
            Forall pathInv (queue v ++ new)).
  { intros stx new ref Hfc Hex. apply Forall_app. split; [done|].
    destruct (expand_spec _ _ _ _ _ _ Hex) as [_ HFn].
    eapply Forall_impl; [exact HFn|].
    intros p (n & -> & Hin & _). apply validHandlersFor_In in Hin as [Hin Hd].
    destruct Hst2 as [Hfc2 _]. rewrite Hfc2 in Hd.
    split; [rewrite last_snoc; eauto|]. split.
    - rewrite (hops_snoc _ _ _ Hlast). apply Forall_app. split; [done|].
      by repeat constructor.
    - rewrite (tail_snoc _ _ _ Hlast). apply Forall_app. split; [done|].
      repeat constructor. by apply involved_handlers. }
  destruct (isNestedConversion v).
  { destruct (expand st3 path _ _) as [new ref] eqn:Hex. inversion H; subst.
    split; [eapply steady_stable; [| |exact Hst3]; done|]. split; [done|].
    split; [eapply extends_trans; [exact E3|]; by apply extends_same_trace|].
    intros v' E. inversion E; subst. simpl. eapply Hexpand; [apply Hst3 | exact Hex]. }
  destruct (closeOnAnyInput _ _ _ _ _ st3) as [r2 st4] eqn:Hany.
  eapply (closeOnAnyInput_spec steady knownHop inputOK (closedChain fc anyInput)
            steady_stable steady_step inputOK_step) with (pre := []) in Hany;
    [ | exact Hlast | | exact Hst3 ].
  2:{ intros c Hin _. apply Hclosed; [by apply involved_anyInput | by right]. }
  destruct Hany as (Hst4 & Hfr4 & n4 & Ht4 & HF4 & _).
  assert (Hao4 : allOptions st4 = ao) by (destruct Hfr4 as (_ & -> & _); done).
  assert (E4 : extends (searchEv inputOK (closedChain fc anyInput)) st st4).
  { eapply extends_trans; [exact E3|]. by exists n4. }
  destruct r2 as [[out p]|]; [inversion H; by subst|].
  destruct (expand st4 path _ _) as [new ref] eqn:Hex. inversion H; subst.
  split; [eapply steady_stable; [| |exact Hst4]; done|]. split; [done|].
  split; [eapply extends_trans; [exact E4|]; by apply extends_same_trace|].
  intros v' E. inversion E; subst. simpl. eapply Hexpand; [apply Hst4 | exact Hex].
Qed.

Lemma searchLoop_adjacent fuel files opa dl :
  forall v st res st',
    steady st -> allOptions st = ao -> Forall pathInv (queue v) ->
    searchLoop handlers anyInput clock fuel files target opa dl v st = (res, st') ->
    extends (searchEv inputOK (closedChain fc anyInput)) st st'.
Proof.
  induction fuel as [|fuel IH]; intros v st res st' Hst Hao Hq H; simpl in H.
  - inversion H; subst. apply extends_refl.
  - destruct (queue v) as [|path rest] eqn:Hqv; [inversion H; subst; apply extends_refl|].
    inversion Hq as [|? ? Hp Hrest]; subst.
    destruct (searchIteration _ _ _ _ _ _ _ _ _ st) as [[r|v'] st1] eqn:Hit;
      eapply searchIteration_adjacent in Hit; eauto;
      destruct Hit as (Hst1 & Hao1 & E1 & Hq1).
    + inversion H; by subst.
    + eapply extends_trans; [exact E1|]. eapply IH; eauto.
Qed.

End Adjacency.

(** ** The prefix cache across turns of the search *)

Lemma hops_lookup (l : list ConvertPathNode) i s d :
  hops_from 0 l !! i = Some (s, d) <-> l !! i = Some s /\ l !! S i = Some d.
Proof.
  unfold hops_from. rewrite drop_0, lookup_zip_Some, lookup_tail. done.
Qed.

(** The value assigned to [convertPathCache.length] by the realignment
    loop is never larger than the length, so the assignment truncates. *)
Lemma divergence_within rest cache :
  forall from i,
    from - 1 <= length cache ->
    divergence from rest cache = Some i -> i - 1 <= length cache.
Proof.
  induction rest as [|n rest IH]; intros from i Hfrom H; simpl in H; [done|].
  destruct (cache !! from) as [e|] eqn:He; simpl in H.
  - destruct (negb (node_same n (ce_node e))); [inversion H; by subst|].
    apply (IH (S from)); [|done]. apply lookup_lt_Some in He. lia.
  - inversion H; by subst.
Qed.

(** [fresh b path]: the second node of [path] was allocated below [b],
    the later ones at or above [b]. *)
Definition fresh (b : nat) (path : list ConvertPathNode) : Prop :=
  exists x n1 rest,
    path = x :: n1 :: rest /\ n_ref n1 < b /\ Forall (fun n => b <= n_ref n) rest.

Definition cacheFresh (b : nat) (st : State) : Prop :=
  Forall (fun n => b <= n_ref n) (tail (map ce_node (convertPathCache st))).

(** Every hop between two nodes of the cache went through [doConvert]
    during [pre]. *)
Definition cacheBacked (pre : list Event) (st : State) : Prop :=
  forall hop, In hop (hops_from 0 (map ce_node (convertPathCache st))) -> converted pre hop.

Lemma realign_fresh b path cache :
  fresh b path -> Forall (fun n => b <= n_ref n) (tail (map ce_node cache)) ->
  realign path cache = [].
Proof.
  intros (x & n1 & rest & -> & Hn1 & _) Hc. unfold realign. simpl.
  destruct (cache !! 1) as [e|] eqn:He; simpl; [|done].
  assert (Hb : b <= n_ref (ce_node e)).
  { destruct cache as [|e0 [|e1 cache']]; try done. simpl in He. inversion He; subst.
    simpl in Hc. by inversion Hc. }
  unfold node_same. destruct (Nat.eqb_spec (n_ref n1) (n_ref (ce_node e))); [lia | done].
Qed.

Lemma aligned_backed pre st path : aligned pre st path -> cacheBacked pre st.
Proof.
  intros [Hpre Hback] [s d] Hin.
  apply list_elem_of_In, list_elem_of_lookup in Hin as [i Hi].
  apply hops_lookup in Hi as [Hs Hd].
  rewrite (prefix_is_take _ _ Hpre), length_map in Hs, Hd.
  apply lookup_take_Some in Hs as [Hs Hlt1]. apply lookup_take_Some in Hd as [Hd Hlt2].
  rewrite lookup_tail in Hs, Hd.
  apply (proj1 (List.Forall_forall _ _) Hback (s, d)).
  apply list_elem_of_In, list_elem_of_lookup. exists (S i).
  apply lookup_take_Some. split; [|done]. by apply hops_lookup.
Qed.

Lemma aligned_cacheFresh pre st b path :
  aligned pre st path -> fresh b path -> cacheFresh b st.
Proof.
  intros [Hpre _] (x & n1 & rest & -> & _ & Hrest). unfold cacheFresh.
  destruct Hpre as [k Hk]. simpl in Hk.
  destruct (map ce_node (convertPathCache st)) as [|c0 cs]; [constructor|].
  simpl in *. inversion Hk; subst. by apply Forall_app in Hrest as [? _].
Qed.

Lemma aligned_single pre st x : aligned pre st [x] -> convertPathCache st = [].
Proof.
  intros [Hpre _]. simpl in Hpre. apply prefix_nil_inv in Hpre.
  by destruct (convertPathCache st).
Qed.

Section PrefixCache.

Variable handlers : list FormatHandler.
Variable anyInput : list ConvertPathNode.
Variable clock : nat -> Z.

(** The queue is still the initial one and the cache is empty, or the
    first turn is over and the references are layered. *)
Definition layered (path : list ConvertPathNode) (v : SearchVars) (st : State) : Prop :=
  (tail path = [] /\ queue v = [] /\ convertPathCache st = [])
  \/ exists b, fresh b path /\ Forall (fresh b) (queue v)
               /\ b <= next_ref st /\ cacheFresh b st.

Definition layeredQueue (v : SearchVars) (st : State) : Prop :=
  exists b, Forall (fresh b) (queue v) /\ b <= next_ref st /\ cacheFresh b st.

Lemma searchIteration_backed pre files target opa dl path v st res st' :
  cacheBacked pre st -> layered path v st ->
  searchIteration handlers anyInput clock files target opa dl path v st = (res, st') ->
  exists new,
    trace st' = trace st ++ new
    /\ match res with
       | inl (Found out p) =>
           forall hop, In hop (hops_from 0 p) -> converted (pre ++ new) hop
       | inl _ => True
       | inr v' => cacheBacked (pre ++ new) st' /\ layeredQueue v' st'
       end.
Proof.
  intros Hback Hlay H. unfold searchIteration in H.
  destruct (deadlineExceeded clock dl st) as [late st1] eqn:Hd.
  apply deadlineExceeded_state in Hd as (Ht1 & Hcc1 & _ & _ & Hn1 & _).
  destruct late.
  { exists []. rewrite !app_nil_r.
    destruct (last (convertPathCache st1)); inversion H; subst; split; try done.
    intros hop Hin. apply Hback. by rewrite <- Hcc1. }
  destruct (5 <? length path) eqn:Hlen.
  { inversion H; subst. exists []. rewrite !app_nil_r. split; [done|]. split.
    - intros hop. rewrite Hcc1. apply Hback.
    - destruct Hlay as [(Htl & _)|(b & _ & Hq & Hb & Hcf)].
      + apply Nat.ltb_lt in Hlen. destruct path as [|x [|y rest]]; simpl in *; try done; lia.
      + exists b. unfold cacheFresh in *. rewrite Hcc1, Hn1. done. }
  set (st2 := set_convertPathCache _ st1) in *.
  assert (Hc2 : convertPathCache st2 = []).
  { simpl. rewrite Hcc1. destruct Hlay as [(Htl & _ & Hc)|(b & Hf & _ & _ & Hcf)].
    - rewrite Hc. unfold realign. by rewrite Htl.
    - by eapply realign_fresh. }
  assert (Ht2 : trace st2 = trace st) by done.
  assert (Hn2 : next_ref st2 = next_ref st) by done.
  destruct (last path) as [previous|] eqn:Hlast;
    [| inversion H; subst; exists []; by rewrite app_nil_r].
  assert (Htriv : forall c, okChain (fun _ _ => True) (path ++ [c]) /\ True).
  { intros c. split; [apply okChain_trivial | done]. }
  (* what the queue looks like after the expansion *)
  assert (Hexpand : forall stx new ref pre',
            aligned pre' stx path -> next_ref stx = next_ref st ->
            expand stx path (validHandlersFor handlers st2 previous) (next_ref stx)
            = (new, ref) ->
            cacheBacked pre' (set_next_ref ref stx)
            /\ layeredQueue (mkVars (queue v ++ new) true (bestPartialPath v))
                            (set_next_ref ref stx)).
  { intros stx new ref pre' Hal Hnx Hex.
    split; [eapply aligned_backed; exact Hal|].
    destruct (expand_spec _ _ _ _ _ _ Hex) as [Hle HFn].
    destruct Hlay as [(Htl & Hq & _)|(b & Hf & Hq & Hb & _)].
    - exists ref. simpl. split; [|split; [done|]].
      + rewrite Hq. simpl. eapply Forall_impl; [exact HFn|].
        intros p (n & -> & _ & _ & Hr & _).
        destruct path as [|x [|y rest]]; try done.
        exists x, n, []. repeat split; [lia | constructor].
      + unfold cacheFresh. simpl.
        destruct path as [|x [|y rest]]; try done.
        apply aligned_single in Hal. rewrite Hal. constructor.
    - exists b. simpl. split; [|split; [lia|]].
      + apply Forall_app. split; [done|]. eapply Forall_impl; [exact HFn|].
        intros p (n & -> & _ & _ & Hr & _).
        destruct Hf as (x & n1 & rest & -> & Hn1' & Hrest).
        exists x, n1, (rest ++ [n]). repeat split; [done|].
        apply Forall_app. split; [done|]. repeat constructor. lia.
      + eapply (aligned_cacheFresh pre' stx b path); [exact Hal | exact Hf]. }
  destruct (closeOnTarget _ _ _ _ _ _ st2) as [[r1 best1] st3] eqn:Hclose.
  eapply (closeOnTarget_spec (fun _ => True) (fun _ _ => True) (fun _ _ _ => True)
            (fun _ => True)) with (pre := pre) in Hclose; eauto.
  destruct Hclose as (_ & Hfr3 & n3 & Ht3 & _ & _ & Hal3).
  specialize (Hal3 (aligned_empty _ _ _ Hc2)).
  destruct r1 as [[out p]|].
  { inversion H; subst. exists n3. split; [by rewrite Ht3, Ht2|].
    intros hop Hin. exact (proj1 (List.Forall_forall _ _) Hal3 hop Hin). }
  assert (Hn3 : next_ref st3 = next_ref st) by (destruct Hfr3 as (-> & _); done).
  destruct (isNestedConversion v).
  { destruct (expand st3 path _ _) as [new ref] eqn:Hex. inversion H; subst.
    exists n3. split; [by rewrite <- Ht2, <- Ht3|].
    destruct (Hexpand _ _ _ _ Hal3 Hn3 Hex) as [Hb Hl]. split; [exact Hb|].
    destruct Hl as (b & ? & ? & ?). by exists b. }
  destruct (closeOnAnyInput _ _ _ _ _ st3) as [r2 st4] eqn:Hany.
  eapply (closeOnAnyInput_spec (fun _ => True) (fun _ _ => True) (fun _ _ _ => True)
            (fun _ => True)) with (pre := pre ++ n3) in Hany; eauto.
  destruct Hany as (_ & Hfr4 & n4 & Ht4 & _ & _ & Hal4).
  specialize (Hal4 Hal3). rewrite <- app_assoc in Hal4.
  assert (Ht : trace st4 = trace st ++ n3 ++ n4) by (by rewrite Ht4, Ht3, Ht2, app_assoc).
  destruct r2 as [[out p]|].
  { inversion H; subst. exists (n3 ++ n4). split; [done|].
    intros hop Hin. exact (proj1 (List.Forall_forall _ _) Hal4 hop Hin). }
  assert (Hn4 : next_ref st4 = next_ref st) by (destruct Hfr4 as (-> & _); congruence).
  destruct (expand st4 path _ _) as [new ref] eqn:Hex. inversion H; subst.
  exists (n3 ++ n4). split; [done|].
  destruct (Hexpand _ _ _ _ Hal4 Hn4 Hex) as [Hb Hl]. split; [exact Hb|].
  destruct Hl as (b & ? & ? & ?). by exists b.
Qed.

Lemma searchLoop_backed fuel files target opa dl :
  forall pre v st out p st',
    cacheBacked pre st ->
    (exists x, queue v = [[x]] /\ convertPathCache st = []) \/ layeredQueue v st ->
    searchLoop handlers anyInput clock fuel files target opa dl v st = (Found out p, st') ->
    exists new,
      trace st' = trace st ++ new
      /\ forall hop, In hop (hops_from 0 p) -> converted (pre ++ new) hop.
Proof.
  induction fuel as [|fuel IH]; intros pre v st out p st' Hback Hq H; simpl in H; [done|].
  destruct (queue v) as [|path rest] eqn:Hqv; [done|].
  assert (Hlay : layered path (mkVars rest (isNestedConversion v) (bestPartialPath v)) st).
  { destruct Hq as [(x & E & Hc)|(b & HF & Hb & Hcf)].
    - inversion E; subst. by left.
    - right. exists b. rewrite Hqv in HF. inversion HF; subst.
      split; [done|]. split; [done|]. by split. }
  destruct (searchIteration _ _ _ _ _ _ _ _ _ st) as [[r|v'] st1] eqn:Hit;
    destruct (searchIteration_backed pre _ _ _ _ _ _ _ _ _ Hback Hlay Hit)
      as (n1 & Ht1 & Hres).
  - inversion H; subst. by exists n1.
  - destruct Hres as [Hb1 Hl1].
    destruct (IH (pre ++ n1) v' st1 out p st' Hb1 (or_intror Hl1) H) as (n2 & Ht2 & Hc).
    exists (n1 ++ n2). split; [by rewrite Ht2, Ht1, app_assoc|].
    intros hop Hin. rewrite app_assoc. by apply Hc.
Qed.

End PrefixCache.

(** * The claims *)

(** ** C4: the deadline *)

(** What the deadline branch returns (main.js 863-867). *)
Definition deadlineReturn (st : State) : SearchResult :=
  match last (convertPathCache st) with
  | Some c => Found (ce_files c) (map ce_node (convertPathCache st))
  | None => TIMEOUT_RESULT
  end.

(** The claim as the specification words it: at the top of a turn, once
    the time read exceeds the deadline [d], the search returns at once. *)
Definition deadlineClaim (handlers : list FormatHandler) (anyInput : list ConvertPathNode)
    (clock : nat -> Z) (fuel : nat) (files : list FileData) (target : ConvertPathNode)
    (onPathAttempt : bool) (d : Z) (v : SearchVars) (st : State) : Prop :=
  queue v <> [] -> (d < clock (clock_reads st))%Z ->
  fst (searchLoop handlers anyInput clock (S fuel) files target onPathAttempt (Some d) v st)
  = deadlineReturn st.




(** ** C9: the option pool *)

Definition optionPair (n : ConvertPathNode) : FormatHandler * FileFormat :=
  (n_handler n, n_format n).

(** The options a handler contributes, given the format cache. *)
Definition optionsOf (fc : gmap string (list FileFormat)) (h : FormatHandler)
  : list (FormatHandler * FileFormat) :=
  match fc !! h_name h with
  | Some fs => map (fun f => (h, f)) (List.filter (fun f => mime_set (fmt_mime f)) fs)
  | None => []
  end.

Lemma pushOptions_spec handler :
  forall formats st,
    map optionPair (allOptions (pushOptions handler formats st))
    = map optionPair (allOptions st)
      ++ map (fun f => (handler, f)) (List.filter (fun f => mime_set (fmt_mime f)) formats)
    /\ supportedFormatCache (pushOptions handler formats st) = supportedFormatCache st
    /\ handlerStates (pushOptions handler formats st) = handlerStates st.
Proof.
  induction formats as [|f rest IH]; intros st; simpl.
  - by rewrite app_nil_r.
  - destruct (mime_set (fmt_mime f)) eqn:Hm; simpl.
    + destruct (IH (set_next_ref (S (next_ref st))
                      (set_allOptions (allOptions st ++ [mkNode (next_ref st) handler f]) st)))
        as (Ha & Hc & Hh).
      rewrite Ha, Hc, Hh. simpl. rewrite map_app. simpl. by rewrite <- app_assoc.
    + apply IH.
Qed.

(** An entry of the format cache is never overwritten by
    [buildOptionList], and only the names of the handlers it visits can
    gain one. *)
Lemma buildOptions_cache :
  forall hs st name,
    (forall fs, supportedFormatCache st !! name = Some fs ->
                supportedFormatCache (buildOptions hs st) !! name = Some fs)
    /\ (~ In name (map h_name hs) ->
        supportedFormatCache (buildOptions hs st) !! name = supportedFormatCache st !! name).
Proof.
  induction hs as [|h rest IH]; intros st name; [done|]. simpl.
  destruct (supportedFormatCache st !! h_name h) as [fs0|] eqn:Hc.
  - rewrite Hc. destruct (pushOptions_spec h fs0 st) as (_ & Hpc & _).
    destruct (IH (pushOptions h fs0 st) name) as [IH1 IH2]. rewrite Hpc in IH1, IH2.
    split; [done|]. intros Hn. apply IH2. tauto.
  - destruct (h_init h (handlerState st h)) as [ok hs'] eqn:Hi.
    destruct ok; [destruct (hs_supportedFormats hs') as [fs|] eqn:Hf|]; simpl.
    + rewrite lookup_insert_eq.
      match goal with |- context [pushOptions h fs ?s] => set (st1 := s) end.
      destruct (pushOptions_spec h fs st1) as (_ & Hpc & _).
      destruct (IH (pushOptions h fs st1) name) as [IH1 IH2]. rewrite Hpc in IH1, IH2.
      subst st1. simpl in *. split.
      * intros fs1 E. apply IH1. rewrite lookup_insert_ne; [done|]. congruence.
      * intros Hn. rewrite IH2 by tauto. rewrite lookup_insert_ne; [done|]. tauto.
    + rewrite Hc. destruct (IH (log (EvInit h true)
                                  (set_handlerStates (<[h_ref h:=hs']> (handlerStates st)) st))
                               name) as [IH1 IH2].
      simpl in *. split; [done|]. intros Hn. apply IH2. tauto.
    + destruct (IH (log (EvInit h false)
                      (set_handlerStates (<[h_ref h:=hs']> (handlerStates st)) st))
                   name) as [IH1 IH2].
      simpl in *. split; [done|]. intros Hn. apply IH2. tauto.
Qed.

Lemma buildOptions_spec :
  forall hs st,
    List.NoDup (map h_name hs) ->
    map optionPair (allOptions (buildOptions hs st))
    = map optionPair (allOptions st)
      ++ flat_map (optionsOf (supportedFormatCache (buildOptions hs st))) hs.
Proof.
  induction hs as [|h rest IH]; intros st Hnd; simpl; [by rewrite app_nil_r|].
  inversion Hnd as [|? ? Hnotin Hnd']; subst.
  unfold optionsOf at 1.
  destruct (supportedFormatCache st !! h_name h) as [fs0|] eqn:Hc.
  - rewrite Hc. destruct (pushOptions_spec h fs0 st) as (Hpa & Hpc & _).
    rewrite (IH _ Hnd'), Hpa, <- app_assoc.
    destruct (buildOptions_cache rest (pushOptions h fs0 st) (h_name h)) as [Hkeep _].
    rewrite (Hkeep fs0) by (by rewrite Hpc). done.
  - destruct (h_init h (handlerState st h)) as [ok hs'] eqn:Hi.
    destruct ok; [destruct (hs_supportedFormats hs') as [fs|] eqn:Hf|]; simpl.
    + rewrite lookup_insert_eq.
      match goal with |- context [pushOptions h fs ?s] => set (st1 := s) end.
      destruct (pushOptions_spec h fs st1) as (Hpa & Hpc & _).
      rewrite (IH _ Hnd'), Hpa, <- app_assoc.
      destruct (buildOptions_cache rest (pushOptions h fs st1) (h_name h)) as [Hkeep _].
      rewrite (Hkeep fs) by (rewrite Hpc; subst st1; simpl; apply lookup_insert_eq). done.
    + rewrite Hc.
      match goal with |- context [buildOptions rest ?s] => set (st1 := s) end.
      rewrite (IH _ Hnd').
      destruct (buildOptions_cache rest st1 (h_name h)) as [_ Hsame].
      rewrite (Hsame Hnotin). subst st1. simpl. by rewrite Hc.
    + match goal with |- context [buildOptions rest ?s] => set (st1 := s) end.
      rewrite (IH _ Hnd').
      destruct (buildOptions_cache rest st1 (h_name h)) as [_ Hsame].
      rewrite (Hsame Hnotin). subst st1. simpl. by rewrite Hc.
Qed.

(** The claim as the specification words it: nothing in the pool has a
    format that can neither be read nor written. *)
Definition poolFiltersFlagless (st : State) : Prop :=
  forall n, In n (allOptions st) -> fmt_from (n_format n) = true \/ fmt_to (n_format n) = true.

(** C9, counter-example.  [buildOptionList] has no test on [from] and
    [to]: a format with a MIME type and neither flag is pushed. *)
Lemma pool_keeps_flagless_format : ~ poolFiltersFlagless Scenario.Pool.booted.
Proof.
  intros H.
  destruct (H (mkNode 1 Scenario.Pool.magick Scenario.Pool.raw)) as [E|E].
  - vm_compute. right. by left.
  - discriminate E.
  - discriminate E.
Qed.

(** C9, amended.  With handler names that are pairwise different, the
    pool built by [buildOptionList] is, handler by handler and in order,
    one option per format of the handler's cached list whose MIME type is
    set (handlers without a cached list, among them those whose [init]
    failed, contribute nothing); so a format without a MIME type never
    appears in the pool.  No test on [from] or [to] is made. *)
Theorem option_pool_contents handlers st :
  List.NoDup (map h_name handlers) ->
  map optionPair (allOptions (buildOptionList handlers st))
  = flat_map (optionsOf (supportedFormatCache (buildOptionList handlers st))) handlers
  /\ Forall (fun n => mime_set (fmt_mime (n_format n)) = true)
            (allOptions (buildOptionList handlers st)).
Proof.
  intros Hnd. unfold buildOptionList.
  pose proof (buildOptions_spec handlers (set_allOptions [] st) Hnd) as Hspec.
  simpl in Hspec. split; [exact Hspec|].
  apply List.Forall_forall. intros n Hin.
  apply (in_map optionPair) in Hin. rewrite Hspec in Hin.
  apply in_flat_map in Hin as (h & _ & Hin). unfold optionsOf in Hin.
  destruct (supportedFormatCache _ !! h_name h) as [fs|]; [|done].
  apply in_map_iff in Hin as (f & E & Hf). apply filter_In in Hf as [_ Hm].
  unfold optionPair in E. by inversion E; subst.
Qed.

(** The pool built for the handler of [Scenario.Pool]. *)
Lemma option_pool_contents_witness :
  map optionPair (allOptions (buildOptionList Scenario.Pool.handlers Scenario.blank))
  = [(Scenario.Pool.magick, Scenario.Pool.png); (Scenario.Pool.magick, Scenario.Pool.raw)].
Proof.
  refine (eq_trans (proj1 (option_pool_contents Scenario.Pool.handlers Scenario.blank _)) _).
  - repeat constructor. simpl. tauto.
  - vm_compute. reflexivity.
Defined.

(** ** C5 and C8: adjacency, and the executor's lookup *)

Definition allReady (st : State) (hs : list FormatHandler) : bool :=
  forallb (fun h => hs_ready (handlerState st h)) hs.

(** Two handler objects with the same reference have the same name. *)
Definition refsConsistent (hs : list FormatHandler) : bool :=
  forallb (fun h =>
             forallb (fun h' => implb (Nat.eqb (h_ref h) (h_ref h'))
                                      (String.eqb (h_name h) (h_name h'))) hs) hs.

Lemma refsConsistent_spec hs h h' :
  refsConsistent hs = true -> In h hs -> In h' hs -> h_ref h = h_ref h' -> h_name h = h_name h'.
Proof.
  unfold refsConsistent. intros H Hh Hh' E.
  rewrite forallb_forall in H. specialize (H h Hh). rewrite forallb_forall in H.
  specialize (H h' Hh'). apply Nat.eqb_eq in E. rewrite E in H. simpl in H.
  by apply String.eqb_eq.
Qed.

(** The events of a search started on a steady state. *)
Lemma search_events_steady handlers anyInput clock fuel files target inp opa dl st :
  allReady st (involved handlers anyInput target (allOptions st)) = true ->
  refsConsistent (involved handlers anyInput target (allOptions st)) = true ->
  extends (searchEv (inputOK (supportedFormatCache st))
                    (closedChain (supportedFormatCache st) anyInput))
          st
          (snd (buildConvertPath handlers anyInput clock fuel files target [[inp]] opa dl st)).
Proof.
  intros Hready Hrefs. unfold buildConvertPath.
  destruct (searchLoop _ _ _ _ _ _ _ _ _ _) as [res st'] eqn:H. simpl.
  eapply (searchLoop_adjacent handlers anyInput clock target (supportedFormatCache st)
            (allOptions st)) in H.
  - destruct H as (new & Ht & HF). by exists new.
  - intros h h'. by apply refsConsistent_spec.
  - split; [done|]. apply List.Forall_forall. intros h Hh.
    unfold allReady in Hready. rewrite forallb_forall in Hready. exact (Hready h Hh).
  - done.
  - simpl. repeat constructor. by exists inp.
Qed.

(** The claims as the specification words them. *)
Definition adjacentChain (fc : gmap string (list FileFormat)) (chain : list ConvertPathNode)
  : Prop :=
  Forall (adjacentHop fc) (hops_from 0 chain).

Definition lookupNeverEmpty (tr : list Event) : Prop :=
  forall s d input f out, In (EvConvert s d input f out) tr -> is_Some f.





(** The lookup also finds nothing when the executor has to initialise
    the handler and the list [init] publishes differs from the cached
    one the chain was built from; hence the condition on the handlers in
    the amended statements. *)
Lemma stale_cache_lookup_finds_nothing :
  Scenario.Stale.anyInput = []
  /\ In (EvConvert Scenario.Stale.input (mkNode 1 Scenario.Stale.magick Scenario.Stale.jpeg)
           Scenario.photo None (Some [mkFile "a.png" [Byte.x01; Byte.x89; Byte.x50]]))
        (trace (snd Scenario.Stale.search)).
Proof. split; [reflexivity|]. vm_compute. right. right. by left. Qed.

Lemma lookupInput_found formats prev :
  readsMime (fmt_mime (n_format prev)) formats = true ->
  exists c, lookupInput formats prev = Some c /\ In c formats
            /\ mime_eqb (fmt_mime c) (fmt_mime (n_format prev)) = true /\ fmt_from c = true.
Proof.
  unfold readsMime, lookupInput. intros H.
  apply existsb_exists in H as (x & Hx & Hp).
  destruct (find _ formats) as [c|] eqn:Hf.
  - apply find_some in Hf as [Hin Hc]. apply andb_prop in Hc as [? ?]. by exists c.
  - by rewrite (find_none _ _ Hf x Hx) in Hp.
Qed.



(** ** C10: the chain the search found is run once more *)

Definition isConvertOf (hop : ConvertPathNode * ConvertPathNode) (e : Event) : bool :=
  match e with
  | EvConvert s d _ _ _ => node_same s (fst hop) && node_same d (snd hop)
  | _ => false
  end.

(** The number of [doConvert] calls made for a hop. *)
Definition convertCalls (hop : ConvertPathNode * ConvertPathNode) (tr : list Event) : nat :=
  length (List.filter (isConvertOf hop) tr).

Lemma convertCalls_app hop tr1 tr2 :
  convertCalls hop (tr1 ++ tr2) = convertCalls hop tr1 + convertCalls hop tr2.
Proof. unfold convertCalls. by rewrite List.filter_app, length_app. Qed.

Lemma converted_calls new hop : converted new hop -> 1 <= convertCalls hop new.
Proof.
  intros (input & f & out & Hin). unfold convertCalls.
  induction new as [|e new IH]; [done|]. simpl in Hin. destruct Hin as [->|Hin].
  - simpl. unfold node_same. rewrite !Nat.eqb_refl. simpl. lia.
  - simpl. destruct (isConvertOf hop e); simpl; [|by apply IH].
    specialize (IH Hin). lia.
Qed.

Lemma rerunConfirmed_spec cacheKey files path st output st2 :
  rerunConfirmed cacheKey files path st = (output, st2) ->
  exists rerun,
    trace st2 = trace st ++ EvStepStart path 0 :: EvAttempt path :: rerun
    /\ Forall (loopEv (fun _ _ _ => True) (hops_from 0 path)) rerun
    /\ match output with
       | Some (files', path') =>
           path' = path
           /\ Forall (converted rerun) (hops_from 0 path)
           /\ (hops_from 0 path <> [] ->
               exists s d input f, In (EvConvert s d input f (Some files')) rerun)
       | None => True
       end.
Proof.
  unfold rerunConfirmed. intros H.
  set (st0 := log (EvStepStart path 0) (set_convertPathCache [] st)) in *.
  destruct (attemptConvertPath files path true st0) as [r st1] eqn:Hatt.
  destruct (attemptConvertPath_spec (fun _ => True) (fun _ _ => True) (fun _ _ _ => True)
              (fun _ _ _ _ _ => I) (fun _ _ _ _ _ _ _ _ _ _ _ _ => I) (fun _ _ _ _ _ _ _ => I)
              _ _ _ _ _ _ (okChain_trivial path) I Hatt)
    as (_ & _ & new & done & Ht & HF & _ & _ & Hdone & Hr).
  assert (Htr : trace st1 = trace st ++ EvStepStart path 0 :: EvAttempt path :: new).
  { rewrite Ht. subst st0. simpl. by rewrite <- app_assoc. }
  destruct r as [[files' path']|]; inversion H; subst; simpl; exists new;
    (split; [exact Htr|]); (split; [exact HF|]); [|done].
  destruct Hr as (Hp & Hd & Hlast & _). simpl in Hd. subst st0. simpl in Hd.
  rewrite <- Hd. by repeat split.
Qed.

Lemma downloadAll_trace files mime st :
  trace (downloadAll files mime st)
  = trace st ++ map (fun f => EvDownload (fd_bytes f) (fd_name f) mime) files.
Proof.
  unfold downloadAll. revert st. induction files as [|f rest IH]; intros st; simpl.
  - by rewrite app_nil_r.
  - rewrite IH. simpl. by rewrite <- app_assoc.
Qed.

(** After a search that found a chain, the handler can still end on
    "Failed to find conversion route.": the handler [once] converts during
    the search and fails during the second run. *)
Definition rerunCanFail : Prop :=
  (exists out path final,
      fst Scenario.Flaky.clickSearch = Found out path /\ last path = Some final
      /\ fmt_mime (n_format final) = fmt_mime (n_format Scenario.Flaky.output))
  /\ exists st', Scenario.Flaky.click = Some st'
                 /\ last (trace st') = Some (EvAlert "Failed to find conversion route.").

Lemma rerun_can_fail : rerunCanFail.
Proof.
  split.
  - exists [mkFile "a.png" [Byte.x01; Byte.x89; Byte.x50]],
           [Scenario.Flaky.input; mkNode 1 Scenario.Flaky.once Scenario.Flaky.jpeg],
           (mkNode 1 Scenario.Flaky.once Scenario.Flaky.jpeg).
    repeat split; vm_compute; reflexivity.
  - eexists. split; [vm_compute; reflexivity|]. vm_compute. reflexivity.
Qed.

(** C10.  When nothing could be replayed from the path store and the
    search returns a chain that ends on the requested MIME type, the
    click handler empties the prefix cache and hands the chain to
    [attemptConvertPath] again with the input files: the second run
    starts at hop 0, and when it succeeds every hop of the chain has gone
    through [doConvert] once during the search and once more during the
    second run (at least two calls); the files downloaded are those the
    second run returned (the output of its last [doConvert]); when the
    second run fails the handler alerts "Failed to find conversion
    route.", and that does happen although the search had succeeded
    ([rerunCanFail]). *)
Theorem found_chain_is_run_again handlers anyInput clock fuel selectedFiles inp outp st0
    files stA st out path st1 output st2 :
  let cacheKey :=
    pathStoreKey (fmt_mime (n_format inp)) (fmt_mime (n_format outp))
      (if simpleMode st0 then None else Some (h_name (n_handler outp))) in
  let deadline := (clock (clock_reads st0) + SEARCH_TIMEOUT_MS)%Z in
  selectedFiles <> [] ->
  readInputFiles selectedFiles (n_format inp) (n_format outp)
    (set_clock_reads (S (clock_reads st0)) st0) = (files, stA) ->
  replayCached cacheKey files stA = (None, st) ->
  buildConvertPath handlers anyInput clock fuel files outp [[inp]] true (Some deadline) st
  = (Found out path, st1) ->
  (forall final, last path = Some final ->
                 mime_eqb (fmt_mime (n_format final)) (fmt_mime (n_format outp)) = true) ->
  rerunConfirmed cacheKey files path st1 = (output, st2) ->
  convertButtonClick handlers anyInput clock fuel selectedFiles (Some inp) (Some outp) st0
  = Some (finish output (n_format outp) st2)
  /\ (exists searched rerun,
         trace st1 = trace st ++ searched
         /\ trace st2 = trace st1 ++ EvStepStart path 0 :: EvAttempt path :: rerun
         /\ Forall (loopEv (fun _ _ _ => True) (hops_from 0 path)) rerun
         /\ match output with
            | Some (files', path') =>
                path' = path
                /\ (forall hop, In hop (hops_from 0 path) ->
                                converted searched hop /\ converted rerun hop
                                /\ 2 <= convertCalls hop (searched ++ rerun))
                /\ (hops_from 0 path <> [] ->
                    exists s d input f, In (EvConvert s d input f (Some files')) rerun)
                /\ trace (finish output (n_format outp) st2)
                   = trace st2
                     ++ map (fun f => EvDownload (fd_bytes f) (fd_name f)
                                                 (fmt_mime (n_format outp))) files'
                     ++ [EvPopup "Converted"]
            | None =>
                trace (finish output (n_format outp) st2)
                = trace st2 ++ [EvAlert "Failed to find conversion route."]
            end)
  /\ rerunCanFail.
Proof.
  intros cacheKey deadline Hsel Hread Hreplay Hsearch Hcomplete Hrerun.
  split; [|split; [|exact rerun_can_fail]].
  - unfold convertButtonClick. destruct selectedFiles as [|f0 fs]; [done|].
    fold cacheKey. fold deadline. rewrite Hread, Hreplay, Hsearch.
    destruct (last path) as [final|] eqn:Hlast.
    + rewrite (Hcomplete final eq_refl). simpl. by rewrite Hrerun.
    + by rewrite Hrerun.
  - pose proof Hsearch as Hs. unfold buildConvertPath in Hs.
    apply (searchLoop_backed handlers anyInput clock fuel files outp true (Some deadline) [])
      in Hs; [| intros hop [] | left; by exists inp ].
    destruct Hs as (searched & Ht1 & Hconv). simpl in Ht1, Hconv.
    destruct (rerunConfirmed_spec _ _ _ _ _ _ Hrerun) as (rerun & Ht2 & HF & Hout).
    exists searched, rerun. split; [exact Ht1|]. split; [exact Ht2|]. split; [exact HF|].
    destruct output as [[files' path']|]; [|done].
    destruct Hout as (-> & Hre & Hlast). split; [done|].
    split; [|split; [exact Hlast | simpl; by rewrite downloadAll_trace, <- app_assoc]].
    intros hop Hin.
    pose proof (Hconv hop Hin) as H1.
    pose proof (proj1 (List.Forall_forall _ _) Hre hop Hin) as H2.
    split; [done|]. split; [done|].
    rewrite convertCalls_app.
    apply converted_calls in H1, H2. lia.
Qed.

(** A click on the handlers of [Scenario.Row]: the search finds
    png-bmp-tiff-jpeg and the second run succeeds. *)
Lemma found_chain_is_run_again_witness :
  Scenario.Row.click
  = Some (finish (fst Scenario.Row.rerun) Scenario.Row.jpeg (snd Scenario.Row.rerun))
  /\ exists files' path', fst Scenario.Row.rerun = Some (files', path').
Proof.
  split.
  - refine (proj1 (found_chain_is_run_again Scenario.Row.handlers Scenario.Row.anyInput
                     Scenario.Row.clock 20 Scenario.photo Scenario.Row.input
                     Scenario.Row.output Scenario.Row.start
                     Scenario.photo Scenario.Row.clicked Scenario.Row.clicked
                     Scenario.Row.foundFiles Scenario.Row.foundPath
                     (snd Scenario.Row.clickSearch)
                     (fst Scenario.Row.rerun) (snd Scenario.Row.rerun) _ _ _ _ _ _)).
    + discriminate.
    + vm_compute. reflexivity.
    + vm_compute. reflexivity.
    + vm_compute. reflexivity.
    + intros final Hlast. vm_compute in Hlast. inversion Hlast; subst. reflexivity.
    + vm_compute. reflexivity.
  - vm_compute. eauto.
Defined.

(** ** C1: what the prefix cache saves between two attempts *)

Fixpoint convertsBeforeNextAttempt (tr : list Event) : nat :=
  match tr with
  | [] => 0
  | EvAttempt _ :: _ => 0
  | EvConvert _ _ _ _ _ :: rest => S (convertsBeforeNextAttempt rest)
  | _ :: rest => convertsBeforeNextAttempt rest
  end.

(** Each chain handed to the executor, with the number of [doConvert]
    calls that attempt made. *)
Fixpoint hopsPerAttempt (tr : list Event) : list (list ConvertPathNode * nat) :=
  match tr with
  | [] => []
  | EvAttempt p :: rest => (p, convertsBeforeNextAttempt rest) :: hopsPerAttempt rest
  | _ :: rest => hopsPerAttempt rest
  end.

(** The length of the longest common prefix of two chains, nodes being
    compared as objects. *)
Fixpoint sharedPrefix (a b : list ConvertPathNode) : nat :=
  match a, b with
  | x :: a', y :: b' => if node_same x y then S (sharedPrefix a' b') else 0
  | _, _ => 0
  end.

(** C1, on the handlers of [Scenario.Row].  The search makes two attempts
    in a row, on png-bmp-gif-jpeg and then on png-bmp-tiff-jpeg.  The two
    chains share the nodes png and bmp, that is one hop, and that hop went
    through in the first attempt; the second attempt nevertheless calls
    [doConvert] three times, once per hop of the chain, where the claim
    allows 4 - 1 - 1 = 2: the realignment loop compares [path[i]] with
    [convertPathCache[i]], which holds [path[i+1]] of the previous chain,
    and so empties the cache. *)
Theorem prefix_cache_reruns_shared_hop :
  exists first second,
    hopsPerAttempt (trace (snd (Scenario.Row.search None))) = [(first, 3); (second, 3)]
    /\ length second = 4
    /\ sharedPrefix first second = 2
    /\ sharedPrefix (tail first) (tail second) = 1
    /\ 3 <> length second - 1 - sharedPrefix (tail first) (tail second).
Proof.
  eexists _, _. split; [vm_compute; reflexivity|].
  repeat split; vm_compute; congruence.
Qed.

(** ** C2: repeated formats *)

Definition formatRefs (path : list ConvertPathNode) : list nat :=
  map (fun n => fmt_ref (n_format n)) path.

(** The expansion (main.js 922-930) keeps the chains of the queue free of
    repeated formats. *)
Lemma expand_formats_distinct st path hs ref new ref' :
  List.NoDup (formatRefs path) ->
  expand st path hs ref = (new, ref') ->
  Forall (fun p => List.NoDup (formatRefs p)) new.
Proof.
  intros Hnd Hex. destruct (expand_spec _ _ _ _ _ _ Hex) as [_ HF].
  eapply Forall_impl; [exact HF|].
  intros p (n & -> & _ & _ & _ & _ & _ & Hnew).
  unfold formatRefs in *. rewrite map_app. simpl.
  apply NoDup_ListNoDup, NoDup_app. split; [by apply NoDup_ListNoDup|]. split.
  - intros x Hx Hx'. apply list_elem_of_singleton in Hx'. subst x.
    apply list_elem_of_In, in_map_iff in Hx as (c & Hc & Hin).
    assert (Hex' : existsb (fun c => format_same (n_format c) (n_format n)) path = true).
    { apply existsb_exists. exists c. split; [done|]. by apply Nat.eqb_eq. }
    congruence.
  - apply NoDup_singleton.
Qed.

(** C2, on the handler of [Scenario.Identity].  With png chosen on both
    sides the search closes the chain [png] with the option of the same
    handler and format, and returns the chain png-png as a success: the
    test of main.js 927 is made when a chain is extended, not when it is
    closed. *)
Theorem closing_node_repeats_format :
  exists files path,
    fst Scenario.Identity.search = Found files path
    /\ formatRefs path = [0; 0]
    /\ ~ List.NoDup (formatRefs path).
Proof.
  eexists _, _. split; [vm_compute; reflexivity|]. split; [reflexivity|].
  intros H. inversion H as [|x l Hnot _]; subst. apply Hnot. by left.
Qed.

(** ** C3: the pass-through *)

(** C3, on the handler of [Scenario.Identity].  The input file is
    downloaded unchanged, but the handler goes on after the loop over the
    files: it runs the search on an empty file list, a chain is built and
    handed to the executor, and [doConvert] is called (during the search
    and again during the second run). *)
Theorem passthrough_still_searches :
  exists st' new,
    Scenario.Identity.click = Some st'
    /\ trace st' = trace Scenario.Identity.start ++ new
    /\ In (EvDownload [Byte.x89; Byte.x50] "a.png" (Some "image/png"%string)) new
    /\ In (EvAttempt [Scenario.Identity.input; Scenario.Identity.input]) new
    /\ convertCalls (Scenario.Identity.input, Scenario.Identity.input) new = 2.
Proof.
  eexists _, _. split; [vm_compute; reflexivity|].
  split; [vm_compute; reflexivity|].
  split; [by left|]. split; [right; right; by left|]. vm_compute. reflexivity.
Qed.

(** ** C6: how often [init] runs *)

(** The number of [init] calls on [h] that resolved. *)
Definition initCalls (h : FormatHandler) (tr : list Event) : nat :=
  length (List.filter (fun e => match e with
                                | EvInit h' true => handler_same h' h
                                | _ => false
                                end) tr).


(** * Further properties of the code *)

(** ** The persistent path store (main.js 748-797) *)

Definition toStored (n : ConvertPathNode) : StoredNode :=
  mkStored (h_name (n_handler n)) (fmt_mime (n_format n)) (fmt_format (n_format n)).

(** The option [recallPath] picks for a stored node: the first one of the
    pool with the same handler name, MIME type and format code. *)
Definition optionFor (st : State) (s : StoredNode) : option ConvertPathNode :=
  find (fun o => String.eqb (h_name (n_handler o)) (sn_handlerName s)
                 && mime_eqb (fmt_mime (n_format o)) (sn_formatMime s)
                 && String.eqb (fmt_format (n_format o)) (sn_formatFormat s))
       (allOptions st).

Lemma mapM_resolved (st : State) (path : list ConvertPathNode) :
  Forall (fun n => optionFor st (toStored n) = Some n) path ->
  mapM (optionFor st) (map toStored path) = Some path.
Proof.
  induction path as [|n rest IH]; intros H; [done|].
  inversion H as [|? ? Hn Hrest]; subst. simpl. rewrite Hn. simpl.
  rewrite (IH Hrest). done.
Qed.

Lemma recallPath_unfold key st :
  recallPath key st
  = match pathStore st !! key with
    | None => None
    | Some [] => None
    | Some stored => mapM (optionFor st) stored
    end.
Proof. done. Qed.





Lemma find_matches {A} (p : A -> bool) (l : list A) x :
  find p l = Some x -> In x l /\ p x = true.
Proof. apply find_some. Qed.



Lemma string_length_append (a b : string) :
  String.length (String.append a b) = String.length a + String.length b.
Proof. induction a as [|c a IH]; simpl; [done | by rewrite IH]. Qed.

(** X4.  For the same pair of MIME types the key of advanced mode (a
    handler name that is not empty) differs from the key of simple mode;
    an empty handler name gives the key of simple mode. *)
Theorem pathStoreKey_modes inputMime outputMime handlerName :
  handlerName <> EmptyString ->
  pathStoreKey inputMime outputMime (Some handlerName)
  <> pathStoreKey inputMime outputMime None
  /\ pathStoreKey inputMime outputMime (Some EmptyString)
     = pathStoreKey inputMime outputMime None.
Proof.
  intros Hne. split; [|done]. unfold pathStoreKey.
  destruct (String.eqb_spec handlerName EmptyString) as [E|_]; [done|].
  intros E. apply (f_equal String.length) in E.
  rewrite !string_length_append in E. simpl in E. lia.
Qed.

Lemma pathStoreKey_modes_witness :
  pathStoreKey (Some "image/png"%string) (Some "image/jpeg"%string) (Some "FFmpeg"%string)
  <> pathStoreKey (Some "image/png"%string) (Some "image/jpeg"%string) None
  /\ pathStoreKey (Some "image/png"%string) (Some "image/jpeg"%string) (Some EmptyString)
     = pathStoreKey (Some "image/png"%string) (Some "image/jpeg"%string) None.
Proof.
  apply (pathStoreKey_modes (Some "image/png"%string) (Some "image/jpeg"%string)
           "FFmpeg"%string).
  discriminate.
Defined.

(** ** The executor (main.js 803-842) *)

Lemma hops_from_beyond k path : length path <= S k -> hops_from k path = [].
Proof.
  intros H. pose proof (hops_length path) as Hl. unfold hops_from in *.
  rewrite drop_0 in Hl. apply drop_ge. rewrite Hl.
  destruct path; simpl in *; lia.
Qed.

(** X5.  The executor takes the prefix cache on trust: when the cache has
    at least as many entries as the chain has hops, no handler is called
    whatever the nodes of the chain are, the cache stays as it is, and the
    files returned are those of the last cache entry (the files passed in
    when the cache is empty). *)
Theorem attempt_trusts_cache files path onStepStart st :
  length path <= S (length (convertPathCache st)) ->
  attemptConvertPath files path onStepStart st
  = (Some (from_option ce_files files (last (convertPathCache st)), path),
     log (EvAttempt path) st).
Proof.
  intros Hlen. unfold attemptConvertPath. simpl.
  destruct (last (convertPathCache st)) as [c|] eqn:Hl; simpl.
  - by rewrite (hops_from_beyond _ _ Hlen).
  - apply last_None in Hl. rewrite Hl in Hlen. simpl in Hlen.
    by rewrite (hops_from_beyond 0 path Hlen).
Qed.

(** With one entry in the cache, a chain of two nodes that have nothing
    to do with that entry is "converted" without any call. *)
Lemma attempt_trusts_cache_witness :
  attemptConvertPath Scenario.photo [Scenario.Row.input; Scenario.Row.output] false
    (set_convertPathCache
       [mkEntry [mkFile "old.gif" [Byte.x47]] (mkNode 3 Scenario.Row.second Scenario.Row.gif_out)]
       Scenario.Row.start)
  = (Some ([mkFile "old.gif" [Byte.x47]], [Scenario.Row.input; Scenario.Row.output]),
     log (EvAttempt [Scenario.Row.input; Scenario.Row.output])
       (set_convertPathCache
          [mkEntry [mkFile "old.gif" [Byte.x47]]
                   (mkNode 3 Scenario.Row.second Scenario.Row.gif_out)]
          Scenario.Row.start)).
Proof.
  apply (attempt_trusts_cache Scenario.photo [Scenario.Row.input; Scenario.Row.output] false).
  simpl. lia.
Defined.

Definition noEmptyFile (files : list FileData) : Prop :=
  Forall (fun c => fd_bytes c <> []) files.

Lemma attemptStep_output b path i prev next files st out st' :
  attemptStep b path i prev next files st = (Some out, st') -> noEmptyFile out.
Proof.
  unfold attemptStep. intros H.
  assert (Hne : forall l : list FileData,
             existsb (fun c => Nat.eqb (length (fd_bytes c)) 0) l = false -> noEmptyFile l).
  { intros l Hl. apply List.Forall_forall. intros c Hc Hb.
    assert (existsb (fun c => Nat.eqb (length (fd_bytes c)) 0) l = true); [|congruence].
    apply existsb_exists. exists c. split; [done|]. by rewrite Hb. }
  break_step; try discriminate; by apply Hne.
Qed.

Lemma attemptLoop_output b path :
  forall todo i files st out st',
    todo <> [] ->
    attemptLoop b path i todo files st = (Some out, st') -> noEmptyFile out.
Proof.
  induction todo as [|[prev next] rest IH]; intros i files st out st' Hne H; [done|].
  simpl in H.
  destruct (attemptStep b path i prev next files st) as [[files'|] st1] eqn:Hstep; [|done].
  destruct rest as [|hop rest'].
  - simpl in H. inversion H; subst. by eapply attemptStep_output.
  - eapply IH; [|exact H]. done.
Qed.

(** X6.  When [attemptConvertPath] succeeds after running at least one
    hop (the chain has more hops than the cache has entries), none of the
    files it returns is empty. *)
Theorem attempt_output_not_empty files path onStepStart st out p st' :
  S (length (convertPathCache st)) < length path ->
  attemptConvertPath files path onStepStart st = (Some (out, p), st') ->
  noEmptyFile out.
Proof.
  intros Hlen H. unfold attemptConvertPath in H.
  set (st0 := log (EvAttempt path) st) in *.
  assert (Hstart : match last (convertPathCache st0) with
                   | Some _ => length (convertPathCache st0) | None => 0 end
                   = length (convertPathCache st)).
  { simpl. destruct (last (convertPathCache st)) eqn:Hl; [done|].
    apply last_None in Hl. by rewrite Hl. }
  rewrite Hstart in H.
  destruct (attemptLoop onStepStart path _ _ _ st0) as [[o|] st1] eqn:Hloop; [|done].
  assert (Hne : hops_from (length (convertPathCache st)) path <> []).
  { intros E. apply (f_equal length) in E.
    pose proof (hops_length path) as Hl. unfold hops_from in *.
    rewrite drop_0 in Hl. rewrite length_drop, Hl in E.
    destruct path; simpl in *; lia. }
  assert (o = out) by (by inversion H). subst o.
  eapply attemptLoop_output; [exact Hne | exact Hloop].
Qed.

Lemma attempt_output_not_empty_witness :
  noEmptyFile [mkFile "a.png" [Byte.x01; Byte.x89; Byte.x50]].
Proof.
  refine (attempt_output_not_empty Scenario.photo
            [Scenario.Row.input; mkNode 1 Scenario.Row.first Scenario.Row.bmp_out] false
            Scenario.Row.start _ _
            (snd (attemptConvertPath Scenario.photo
                    [Scenario.Row.input; mkNode 1 Scenario.Row.first Scenario.Row.bmp_out]
                    false Scenario.Row.start)) _ _).
  - vm_compute. lia.
  - vm_compute. reflexivity.
Defined.

Lemma hops_from_snd k path : map snd (hops_from k path) = drop k (tail path).
Proof.
  change (hops_from k path) with (drop k (hops_from 0 path)).
  by rewrite <- skipn_map, hops_snd.
Qed.

(** X7.  What an attempt leaves in the prefix cache: after a success, one
    entry more for every node of the chain beyond those the cache already
    stood for, in order; after a failure, entries for a strict prefix of
    those nodes (the hops before the one that failed); the executor
    changes neither the option pool, the path store nor the mode. *)
Theorem attempt_cache_nodes files path onStepStart st r st' :
  attemptConvertPath files path onStepStart st = (r, st') ->
  let rest := drop (length (convertPathCache st)) (tail path) in
  (exists n,
      map ce_node (convertPathCache st') = map ce_node (convertPathCache st) ++ take n rest
      /\ match r with
         | Some (out, p) => p = path /\ length rest <= n
         | None => n < length rest
         end)
  /\ allOptions st' = allOptions st /\ pathStore st' = pathStore st
  /\ simpleMode st' = simpleMode st.
Proof.
  intros H rest.
  destruct (attemptConvertPath_spec (fun _ => True) (fun _ _ => True) (fun _ _ _ => True)
              (fun _ _ _ _ _ => I) (fun _ _ _ _ _ _ _ _ _ _ _ _ => I) (fun _ _ _ _ _ _ _ => I)
              _ _ _ _ _ _ (okChain_trivial path) I H)
    as (_ & Hfr & new & done & _ & _ & Hc & Hpre & _ & Hr).
  split; [|destruct Hfr as (_ & ? & ? & ? & _); by repeat split].
  exists (length done). split.
  - rewrite Hc. f_equal. subst rest. rewrite <- hops_from_snd.
    rewrite (prefix_is_take _ _ Hpre) at 1. by rewrite firstn_map.
  - subst rest. rewrite <- hops_from_snd, length_map.
    destruct r as [[out p]|].
    + destruct Hr as (-> & -> & _). done.
    + exact Hr.
Qed.

(** The attempt on png-bmp from the state [Scenario.Row.start]. *)
Lemma attempt_cache_nodes_witness :
  let run := attemptConvertPath Scenario.photo
               [Scenario.Row.input; mkNode 1 Scenario.Row.first Scenario.Row.bmp_out]
               false Scenario.Row.start in
  let rest := drop (length (convertPathCache Scenario.Row.start))
                   (tail [Scenario.Row.input;
                          mkNode 1 Scenario.Row.first Scenario.Row.bmp_out]) in
  (exists n,
      map ce_node (convertPathCache (snd run))
      = map ce_node (convertPathCache Scenario.Row.start) ++ take n rest
      /\ match fst run with
         | Some (out, p) =>
             p = [Scenario.Row.input; mkNode 1 Scenario.Row.first Scenario.Row.bmp_out]
             /\ length rest <= n
         | None => n < length rest
         end)
  /\ allOptions (snd run) = allOptions Scenario.Row.start
  /\ pathStore (snd run) = pathStore Scenario.Row.start
  /\ simpleMode (snd run) = simpleMode Scenario.Row.start.
Proof.
  intros run.
  apply (attempt_cache_nodes Scenario.photo
           [Scenario.Row.input; mkNode 1 Scenario.Row.first Scenario.Row.bmp_out]
           false Scenario.Row.start (fst run) (snd run)).
  apply surjective_pairing.
Defined.

(** ** The search (main.js 847-934) *)

(** The shape of a chain the search tries: a chain [path] taken from the
    queue, which starts with the input option, has at most five nodes and
    no format twice, followed by one closing node with the MIME type of
    the target, which is a [to] option of the pool, the target itself or
    an any-input node. *)
Definition triedShape (anyInput ao : list ConvertPathNode) (target inp : ConvertPathNode)
    (chain : list ConvertPathNode) : Prop :=
  exists path c,
    chain = path ++ [c] /\ head path = Some inp
    /\ List.NoDup (formatRefs path) /\ length path <= 5
    /\ mime_eqb (fmt_mime (n_format c)) (fmt_mime (n_format target)) = true
    /\ ((In c ao /\ fmt_to (n_format c) = true) \/ c = target \/ In c anyInput).

Definition queued (inp : ConvertPathNode) (path : list ConvertPathNode) : Prop :=
  head path = Some inp /\ List.NoDup (formatRefs path).

(** What the search leaves alone. *)
Definition kept (st st' : State) : Prop :=
  allOptions st' = allOptions st /\ pathStore st' = pathStore st
  /\ simpleMode st' = simpleMode st /\ next_ref st <= next_ref st'.

Lemma kept_refl st : kept st st.
Proof. by repeat split. Qed.

Lemma kept_trans st1 st2 st3 : kept st1 st2 -> kept st2 st3 -> kept st1 st3.
Proof.
  unfold kept. intros (?&?&?&?) (?&?&?&?). repeat split; try congruence. lia.
Qed.

Lemma frame_kept st st' : frame st st' -> kept st st'.
Proof. intros (?&?&?&?&?). repeat split; try done. lia. Qed.

Definition trivialJ : State -> Prop := fun _ => True.
Definition trivialHop : ConvertPathNode -> ConvertPathNode -> Prop := fun _ _ => True.
Definition trivialR : ConvertPathNode -> ConvertPathNode -> option FileFormat -> Prop :=
  fun _ _ _ => True.

Lemma tryEach_result track opa files path previous cands best st res best' st' :
  last path = Some previous ->
  tryEach track opa files path cands best st = (Some res, best', st') ->
  exists c, In c cands /\ snd res = path ++ [c].
Proof.
  intros Hlast H.
  destruct (tryEach_spec trivialJ trivialHop trivialR (fun _ => True)
              (fun _ _ _ _ _ => I) (fun _ _ _ _ _ _ _ _ _ _ _ _ => I) (fun _ _ _ _ _ _ _ => I)
              track opa files path previous Hlast cands best st (Some res) best' st' []
              (fun c _ => conj (okChain_trivial _) I) I H)
    as (_ & _ & new & _ & _ & Hres & _).
  exact (Hres res eq_refl).
Qed.

Section Shape.

Variable handlers : list FormatHandler.
Variable anyInput : list ConvertPathNode.
Variable clock : nat -> Z.
Variable target inp : ConvertPathNode.
Variable ao : list ConvertPathNode.

Definition shapeEv := searchEv trivialR (triedShape anyInput ao target inp).

Lemma searchIteration_shape files opa dl path v st res st' :
  queued inp path -> Forall (queued inp) (queue v) -> allOptions st = ao ->
  searchIteration handlers anyInput clock files target opa dl path v st = (res, st') ->
  kept st st' /\ extends shapeEv st st'
  /\ (forall out p, res = inl (Found out p) ->
                    triedShape anyInput ao target inp p
                    \/ (dl <> None /\ p = map ce_node (convertPathCache st)))
  /\ (forall v', res = inr v' -> Forall (queued inp) (queue v'))
  /\ (dl = None -> res <> inl TIMEOUT_RESULT /\ clock_reads st' = clock_reads st).
Proof.
  intros [Hhead Hnd] Hq Hao H. unfold searchIteration in H.
  destruct (deadlineExceeded clock dl st) as [late st1] eqn:Hd.
  assert (Hnone : dl = None -> late = false /\ clock_reads st1 = clock_reads st).
  { intros ->. simpl in Hd. by inversion Hd. }
  assert (Hps1 : pathStore st1 = pathStore st).
  { unfold deadlineExceeded in Hd.
    destruct dl as [d|]; [destruct (Z.eqb d 0)|]; by inversion Hd. }
  apply deadlineExceeded_state in Hd as (Ht1 & Hcc1 & _ & _ & Hn1 & Hao1 & Hsm1).
  assert (Hk1 : kept st st1) by (repeat split; try done; lia).
  destruct late.
  { assert (dl <> None) by (intros E; by destruct (Hnone E)).
    destruct (last (convertPathCache st1)); inversion H; subst;
      (split; [done|]; split; [by apply extends_same_trace|]);
      (split; [intros out p E; inversion E; subst; right; by rewrite Hcc1|]);
      (split; [done|]); intros E; done. }
  destruct (5 <? length path) eqn:Hlen.
  { inversion H; subst. split; [done|]. split; [by apply extends_same_trace|].
    split; [done|]. split; [intros v' E; by inversion E; subst|].
    intros E. split; [done | by apply Hnone]. }
  apply Nat.ltb_ge in Hlen.
  set (st2 := set_convertPathCache _ st1) in *.
  assert (Hk2 : kept st st2) by (destruct Hk1 as (?&?&?&?); by repeat split).
  assert (Ht2 : trace st2 = trace st) by done.
  assert (Hcr2 : dl = None -> clock_reads st2 = clock_reads st)
    by (intros E; by apply Hnone).
  destruct (last path) as [previous|] eqn:Hlast.
  2:{ apply last_None in Hlast. subst path. done. }
  set (vH := validHandlersFor handlers st2 previous) in *.
  assert (Hshape : forall c,
             mime_eqb (fmt_mime (n_format c)) (fmt_mime (n_format target)) = true ->
             (In c ao /\ fmt_to (n_format c) = true) \/ c = target \/ In c anyInput ->
             okChain trivialHop (path ++ [c]) /\ triedShape anyInput ao target inp (path ++ [c])).
  { intros c Hm Hc. split; [apply okChain_trivial|]. by exists path, c. }
  assert (Hao2 : allOptions st2 = ao) by (simpl; congruence).
  destruct (closeOnTarget _ _ _ _ _ _ st2) as [[r1 best1] st3] eqn:Hclose.
  assert (Hres1 : forall rs, r1 = Some rs -> triedShape anyInput ao target inp (snd rs)).
  { intros rs ->. unfold closeOnTarget in Hclose.
    destruct (simpleMode st2); [|destruct (includes vH (n_handler target)) eqn:Hinc].
    - destruct (tryEach_result _ _ _ _ _ _ _ _ _ _ _ Hlast Hclose) as (c & Hin & ->).
      apply filter_In in Hin as [Hin Hf].
      apply andb_prop in Hf as [Hf Hto]. apply andb_prop in Hf as [_ Hm].
      apply Hshape; [done|]. left. by rewrite <- Hao2.
    - destruct (tryEach_result _ _ _ _ _ _ _ _ _ _ _ Hlast Hclose) as (c & [<-|[]] & ->).
      apply Hshape; [|by right; left].
      unfold mime_eqb. destruct (fmt_mime (n_format target)); [apply String.eqb_refl|done].
    - done. }
  eapply (closeOnTarget_spec trivialJ trivialHop trivialR (triedShape anyInput ao target inp))
    with (pre := []) in Hclose; [ | done | done | done | exact Hlast | | | done ].
  2:{ intros _ c Hin _ Hm Hto. apply Hshape; [done|]. left. by rewrite <- Hao2. }
  2:{ intros _ _. apply Hshape; [|by right; left].
      unfold mime_eqb. destruct (fmt_mime (n_format target)); [apply String.eqb_refl|done]. }
  destruct Hclose as (_ & Hfr3 & n3 & Ht3 & HF3 & _).
  assert (Hk3 : kept st st3) by (eapply kept_trans; [exact Hk2 | by apply frame_kept]).
  assert (E3 : extends shapeEv st st3) by (exists n3; by rewrite Ht3, Ht2).
  assert (Hcr3 : dl = None -> clock_reads st3 = clock_reads st).
  { intros E. destruct Hfr3 as (_ & _ & _ & _ & ->). by apply Hcr2. }
  destruct r1 as [[out p]|].
  { inversion H; subst. split; [done|]. split; [done|].
    split; [intros o q E; inversion E; subst; left; exact (Hres1 _ eq_refl)|].
    split; [done|]. intros E. split; [done | by apply Hcr3]. }
  assert (Hexpand : forall stx new ref,
             expand stx path vH (next_ref stx) = (new, ref) ->
             next_ref stx <= ref /\ Forall (queued inp) (queue v ++ new)).
  { intros stx new ref Hex. destruct (expand_spec _ _ _ _ _ _ Hex) as [Hle HFn].
    split; [done|]. apply Forall_app. split; [done|].
    pose proof (expand_formats_distinct _ _ _ _ _ _ Hnd Hex) as Hdist.
    apply List.Forall_forall. intros q Hin.
    pose proof (proj1 (List.Forall_forall _ _) HFn q Hin) as (n & -> & _).
    split; [by destruct path | exact (proj1 (List.Forall_forall _ _) Hdist _ Hin)]. }
  destruct (isNestedConversion v).
  { destruct (expand st3 path _ _) as [new ref] eqn:Hex. inversion H; subst.
    destruct (Hexpand _ _ _ Hex) as [Hle HQ].
    split; [destruct Hk3 as (?&?&?&?); repeat split; try done; simpl; lia|].
    split; [eapply extends_trans; [exact E3|]; by apply extends_same_trace|].
    split; [done|]. split; [intros v' E; by inversion E; subst|].
    intros E. split; [done | by apply Hcr3]. }
  destruct (closeOnAnyInput _ _ _ _ _ st3) as [r2 st4] eqn:Hany.
  assert (Hres2 : forall rs, r2 = Some rs -> triedShape anyInput ao target inp (snd rs)).
  { intros rs ->. unfold closeOnAnyInput in Hany.
    destruct (tryEach false opa files path _ None st3) as [[r0 b0] st0] eqn:Htry.
    inversion Hany; subst.
    destruct (tryEach_result _ _ _ _ _ _ _ _ _ _ _ Hlast Htry) as (c & Hin & ->).
    apply filter_In in Hin as [Hin Hm]. apply Hshape; [done | by right; right]. }
  eapply (closeOnAnyInput_spec trivialJ trivialHop trivialR
            (triedShape anyInput ao target inp))
    with (pre := []) in Hany; [ | done | done | done | exact Hlast | | done ].
  2:{ intros c Hin Hm. apply Hshape; [done | by right; right]. }
  destruct Hany as (_ & Hfr4 & n4 & Ht4 & HF4 & _).
  assert (Hk4 : kept st st4) by (eapply kept_trans; [exact Hk3 | by apply frame_kept]).
  assert (E4 : extends shapeEv st st4) by (eapply extends_trans; [exact E3 | by exists n4]).
  assert (Hcr4 : dl = None -> clock_reads st4 = clock_reads st).
  { intros E. destruct Hfr4 as (_ & _ & _ & _ & ->). by apply Hcr3. }
  destruct r2 as [[out p]|].
  { inversion H; subst. split; [done|]. split; [done|].
    split; [intros o q E; inversion E; subst; left; exact (Hres2 _ eq_refl)|].
    split; [done|]. intros E. split; [done | by apply Hcr4]. }
  destruct (expand st4 path _ _) as [new ref] eqn:Hex. inversion H; subst.
  destruct (Hexpand _ _ _ Hex) as [Hle HQ].
  split; [destruct Hk4 as (?&?&?&?); repeat split; try done; simpl; lia|].
  split; [eapply extends_trans; [exact E4|]; by apply extends_same_trace|].
  split; [done|]. split; [intros v' E; by inversion E; subst|].
  intros E. split; [done | by apply Hcr4].
Qed.

Lemma searchLoop_shape fuel files opa dl :
  forall v st res st',
    Forall (queued inp) (queue v) -> allOptions st = ao ->
    searchLoop handlers anyInput clock fuel files target opa dl v st = (res, st') ->
    kept st st' /\ extends shapeEv st st'
    /\ (forall out p, res = Found out p ->
                      triedShape anyInput ao target inp p \/ dl <> None)
    /\ (dl = None -> res <> TIMEOUT_RESULT /\ clock_reads st' = clock_reads st).
Proof.
  induction fuel as [|fuel IH]; intros v st res st' Hq Hao H; simpl in H.
  - inversion H; subst. split; [apply kept_refl|]. split; [apply extends_refl|]. done.
  - destruct (queue v) as [|path rest] eqn:Hqv.
    { inversion H; subst. split; [apply kept_refl|]. split; [apply extends_refl|]. done. }
    inversion Hq as [|? ? Hp Hrest]; subst.
    destruct (searchIteration _ _ _ _ _ _ _ _ _ st) as [[r|v'] st1] eqn:Hit;
      eapply searchIteration_shape in Hit; eauto;
      destruct Hit as (Hk1 & E1 & Hf1 & Hq1 & Hn1).
    + inversion H; subst. split; [done|]. split; [done|]. split.
      * intros out p ->. destruct (Hf1 out p eq_refl) as [?|[? _]]; [by left | by right].
      * intros E. destruct (Hn1 E) as [Hne Hc]. split; [congruence | done].
    + assert (Hao1 : allOptions st1 = ao) by (destruct Hk1 as (-> & _); done).
      destruct (IH v' st1 res st' (Hq1 v' eq_refl) Hao1 H) as (Hk2 & E2 & Hf2 & Hn2).
      split; [eapply kept_trans; eauto|]. split; [eapply extends_trans; eauto|].
      split; [done|]. intros E. destruct (Hn1 E) as [_ Hc1]. destruct (Hn2 E) as [? Hc2].
      split; [done | congruence].
Qed.

End Shape.

Lemma buildConvertPath_shape handlers anyInput clock fuel files target inp opa dl st res st' :
  buildConvertPath handlers anyInput clock fuel files target [[inp]] opa dl st = (res, st') ->
  kept st st' /\ extends (shapeEv anyInput target inp (allOptions st)) st st'
  /\ (forall out p, res = Found out p ->
                    triedShape anyInput (allOptions st) target inp p \/ dl <> None)
  /\ (dl = None -> res <> TIMEOUT_RESULT /\ clock_reads st' = clock_reads st).
Proof.
  unfold buildConvertPath. intros H.
  eapply (searchLoop_shape handlers anyInput clock target inp (allOptions st)) in H.
  - exact H.
  - repeat constructor. simpl. intros [].
  - done.
Qed.

(** X8.  Whatever the handlers, the mode and the deadline, every chain
    the search started on [[input]] hands to the executor is a chain of
    the queue that starts with the input option, has at most five nodes
    and no format object twice, followed by one closing node whose MIME
    type is the target's and which is a [to] option of the pool, the
    target itself or an any-input node. *)
Theorem searched_chains_shape handlers anyInput clock fuel files target inp opa dl st :
  exists new,
    trace (snd (buildConvertPath handlers anyInput clock fuel files target [[inp]] opa dl st))
    = trace st ++ new
    /\ Forall (fun e => match e with
                        | EvAttempt chain =>
                            triedShape anyInput (allOptions st) target inp chain
                        | _ => True
                        end) new.
Proof.
  destruct (buildConvertPath _ _ _ _ _ _ _ _ _ st) as [res st'] eqn:H.
  apply buildConvertPath_shape in H as (_ & (new & Ht & HF) & _).
  exists new. split; [exact Ht|].
  eapply Forall_impl; [exact HF|]. intros e He. by destruct e.
Qed.

(** X9.  Without a deadline, a chain the search returns starts with the
    input option, ends on a node with the MIME type of the target, has
    between two and six nodes, and has no format object twice before its
    last node. *)
Theorem found_chain_endpoints handlers anyInput clock fuel files target inp opa st out p st' :
  buildConvertPath handlers anyInput clock fuel files target [[inp]] opa None st
  = (Found out p, st') ->
  head p = Some inp
  /\ (exists c, last p = Some c
                /\ mime_eqb (fmt_mime (n_format c)) (fmt_mime (n_format target)) = true)
  /\ 2 <= length p <= 6
  /\ List.NoDup (formatRefs (removelast p)).
Proof.
  intros H. apply buildConvertPath_shape in H as (_ & _ & Hf & _).
  destruct (Hf out p eq_refl) as [(path & c & -> & Hhead & Hnd & Hlen & Hm & _)|?]; [|done].
  split; [by destruct path|]. split; [exists c; by rewrite last_snoc|].
  split; [rewrite length_app; simpl; destruct path; simpl in *; [done | lia]|].
  by rewrite removelast_last.
Qed.

Lemma found_chain_endpoints_witness :
  head [Scenario.Row.input; mkNode 9 Scenario.Row.first Scenario.Row.bmp_out;
        mkNode 11 Scenario.Row.second Scenario.Row.tiff_out;
        mkNode 7 Scenario.Row.third Scenario.Row.jpeg] = Some Scenario.Row.input
  /\ (exists c, last [Scenario.Row.input; mkNode 9 Scenario.Row.first Scenario.Row.bmp_out;
                      mkNode 11 Scenario.Row.second Scenario.Row.tiff_out;
                      mkNode 7 Scenario.Row.third Scenario.Row.jpeg] = Some c
                /\ mime_eqb (fmt_mime (n_format c))
                            (fmt_mime (n_format Scenario.Row.output)) = true)
  /\ 2 <= length [Scenario.Row.input; mkNode 9 Scenario.Row.first Scenario.Row.bmp_out;
                  mkNode 11 Scenario.Row.second Scenario.Row.tiff_out;
                  mkNode 7 Scenario.Row.third Scenario.Row.jpeg] <= 6
  /\ List.NoDup (formatRefs (removelast
                   [Scenario.Row.input; mkNode 9 Scenario.Row.first Scenario.Row.bmp_out;
                    mkNode 11 Scenario.Row.second Scenario.Row.tiff_out;
                    mkNode 7 Scenario.Row.third Scenario.Row.jpeg])).
Proof.
  refine (found_chain_endpoints Scenario.Row.handlers Scenario.Row.anyInput
            Scenario.Row.clock 20 Scenario.photo Scenario.Row.output Scenario.Row.input
            false Scenario.Row.start
            [mkFile "a.png" [Byte.x03; Byte.x02; Byte.x01; Byte.x89; Byte.x50]] _
            (snd (Scenario.Row.search None)) _).
  vm_compute. reflexivity.
Defined.

(** X10.  Without a deadline the search never reads the clock and never
    returns the time-out value. *)
Theorem search_without_deadline handlers anyInput clock fuel files target inp opa st :
  fst (buildConvertPath handlers anyInput clock fuel files target [[inp]] opa None st)
  <> TIMEOUT_RESULT
  /\ clock_reads (snd (buildConvertPath handlers anyInput clock fuel files target [[inp]]
                         opa None st))
     = clock_reads st.
Proof.
  destruct (buildConvertPath _ _ _ _ _ _ _ _ _ st) as [res st'] eqn:H.
  apply buildConvertPath_shape in H as (_ & _ & _ & Hn). by apply Hn.
Qed.

(** X11.  The search changes neither the option pool, the path store nor
    the mode, and object references are only ever allocated upwards. *)
Theorem search_leaves_registry handlers anyInput clock fuel files target inp opa dl st :
  let st' := snd (buildConvertPath handlers anyInput clock fuel files target [[inp]]
                    opa dl st) in
  allOptions st' = allOptions st /\ pathStore st' = pathStore st
  /\ simpleMode st' = simpleMode st /\ next_ref st <= next_ref st'.
Proof.
  destruct (buildConvertPath _ _ _ _ _ _ _ _ _ st) as [res st'] eqn:H.
  apply buildConvertPath_shape in H as (Hk & _). exact Hk.
Qed.

Lemma filter_none {A} (p : A -> bool) (l : list A) :
  (forall x, In x l -> p x = false) -> List.filter p l = [].
Proof.
  induction l as [|x l IH]; intros H; [done|]. simpl.
  rewrite (H x (or_introl eq_refl)). apply IH. intros y Hy. apply H. by right.
Qed.

(** X12.  When no handler has, in the format cache, a [from] format with
    the MIME type of the input option, and no any-input node has the MIME
    type of the target, the search returns [null] after one turn, without
    handing any chain to the executor and without calling any handler. *)
Theorem search_without_readers handlers anyInput clock fuel files target inp opa st :
  validHandlersFor handlers st inp = [] ->
  List.filter (fun c => mime_eqb (fmt_mime (n_format c)) (fmt_mime (n_format target)))
              anyInput = [] ->
  fst (buildConvertPath handlers anyInput clock (S (S fuel)) files target [[inp]] opa None st)
  = NoRoute
  /\ trace (snd (buildConvertPath handlers anyInput clock (S (S fuel)) files target [[inp]]
                   opa None st))
     = trace st.
Proof.
  intros Hvalid Hany. unfold buildConvertPath.
  change (searchLoop handlers anyInput clock (S (S fuel)) files target opa None
            (mkVars [[inp]] false None) (set_convertPathCache [] st))
    with (match searchIteration handlers anyInput clock files target opa None [inp]
                  (mkVars [] false None) (set_convertPathCache [] st) with
          | (inl r, st') => (r, st')
          | (inr v', st') =>
              searchLoop handlers anyInput clock (S fuel) files target opa None v' st'
          end).
  unfold searchIteration. simpl deadlineExceeded. cbv iota beta.
  change (5 <? length [inp]) with false. cbv iota.
  change (last [inp]) with (Some inp). cbv iota beta.
  change (validHandlersFor handlers
            (set_convertPathCache (realign [inp] (convertPathCache (set_convertPathCache [] st)))
               (set_convertPathCache [] st)) inp)
    with (validHandlersFor handlers st inp).
  rewrite Hvalid.
  assert (Hclose : forall s best,
             closeOnTarget files target opa [inp] [] best s = (None, best, s)).
  { intros s best. unfold closeOnTarget. destruct (simpleMode s); [|done].
    rewrite filter_none; [done|]. intros x _. done. }
  rewrite Hclose. cbv iota beta. simpl isNestedConversion. cbv iota.
  unfold closeOnAnyInput. rewrite Hany. simpl. done.
Qed.

(** A handler that reads gif only, asked to start from png. *)
Lemma search_without_readers_witness :
  fst (buildConvertPath [Scenario.Row.third] [] Scenario.Row.clock 2 Scenario.photo
         Scenario.Row.output [[Scenario.Row.input]] false None Scenario.Row.start)
  = NoRoute
  /\ trace (snd (buildConvertPath [Scenario.Row.third] [] Scenario.Row.clock 2 Scenario.photo
                   Scenario.Row.output [[Scenario.Row.input]] false None Scenario.Row.start))
     = trace Scenario.Row.start.
Proof.
  apply (search_without_readers [Scenario.Row.third] [] Scenario.Row.clock 0 Scenario.photo
           Scenario.Row.output Scenario.Row.input false Scenario.Row.start).
  - vm_compute. reflexivity.
  - reflexivity.
Defined.

(** ** The option pool and the any-input nodes (main.js 292-296, 540-567) *)

Lemma pushOptions_trace handler :
  forall formats st, trace (pushOptions handler formats st) = trace st.
Proof.
  induction formats as [|f rest IH]; intros st; simpl; [done|].
  destruct (mime_set (fmt_mime f)); simpl; by rewrite IH.
Qed.

(** X13.  When the format cache has an entry for every handler (the case
    of a complete [cache.json]), [buildOptionList] calls no [init] at all:
    it adds no event and leaves the format cache and the handlers as they
    are. *)
Theorem buildOptionList_from_cache handlers st :
  Forall (fun h => is_Some (supportedFormatCache st !! h_name h)) handlers ->
  trace (buildOptionList handlers st) = trace st
  /\ supportedFormatCache (buildOptionList handlers st) = supportedFormatCache st
  /\ handlerStates (buildOptionList handlers st) = handlerStates st.
Proof.
  unfold buildOptionList. intros H.
  assert (Hgen : forall hs s,
             Forall (fun h => is_Some (supportedFormatCache s !! h_name h)) hs ->
             trace (buildOptions hs s) = trace s
             /\ supportedFormatCache (buildOptions hs s) = supportedFormatCache s
             /\ handlerStates (buildOptions hs s) = handlerStates s).
  { induction hs as [|h rest IH]; intros s Hs; [done|].
    inversion Hs as [|? ? [fs Hfs] Hrest]; subst. simpl. rewrite Hfs. simpl. rewrite Hfs.
    destruct (pushOptions_spec h fs s) as (_ & Hpc & Hph).
    destruct (IH (pushOptions h fs s)) as (Ht & Hc & Hh); [by rewrite Hpc|].
    rewrite Ht, Hc, Hh, pushOptions_trace. done. }
  destruct (Hgen handlers (set_allOptions [] st) H) as (? & ? & ?). done.
Qed.

(** A second build, after start-up has filled the cache. *)
Lemma buildOptionList_from_cache_witness :
  trace (buildOptionList Scenario.Row.handlers Scenario.Row.booted)
  = trace Scenario.Row.booted
  /\ supportedFormatCache (buildOptionList Scenario.Row.handlers Scenario.Row.booted)
     = supportedFormatCache Scenario.Row.booted
  /\ handlerStates (buildOptionList Scenario.Row.handlers Scenario.Row.booted)
     = handlerStates Scenario.Row.booted.
Proof.
  apply (buildOptionList_from_cache Scenario.Row.handlers Scenario.Row.booted).
  repeat constructor; vm_compute; eauto.
Defined.


(** ** The click handler (main.js 961-1202) *)

Lemma downloadAll_frame files mime st : frame st (downloadAll files mime st).
Proof.
  unfold downloadAll. revert st. induction files as [|f rest IH]; intros st; simpl.
  - apply frame_refl.
  - eapply frame_trans; [|apply IH]. by repeat split.
Qed.

Lemma readInputFiles_eq selectedFiles inputFormat outputFormat st :
  readInputFiles selectedFiles inputFormat outputFormat st
  = if mime_eqb (fmt_mime inputFormat) (fmt_mime outputFormat)
    then ([], downloadAll selectedFiles (fmt_mime inputFormat) st)
    else (selectedFiles, st).
Proof.
  revert st. induction selectedFiles as [|f rest IH]; intros st.
  - simpl. by destruct (mime_eqb _ _).
  - cbn [readInputFiles].
    destruct (mime_eqb (fmt_mime inputFormat) (fmt_mime outputFormat)); rewrite IH; [done|].
    by destruct f.
Qed.

Lemma readInputFiles_frame selectedFiles inputFormat outputFormat st :
  frame st (snd (readInputFiles selectedFiles inputFormat outputFormat st)).
Proof.
  rewrite readInputFiles_eq. destruct (mime_eqb _ _); simpl.
  - apply downloadAll_frame.
  - apply frame_refl.
Qed.

(** X15.  The loop over the selected files either downloads every file
    as it is, in order, and leaves [inputFileData] empty (equal MIME
    types), or downloads nothing and passes every file on, in order. *)
Theorem readInputFiles_split selectedFiles inputFormat outputFormat st :
  let '(inputFileData, st') := readInputFiles selectedFiles inputFormat outputFormat st in
  if mime_eqb (fmt_mime inputFormat) (fmt_mime outputFormat)
  then inputFileData = []
       /\ trace st'
          = trace st ++ map (fun f => EvDownload (fd_bytes f) (fd_name f) (fmt_mime inputFormat))
                            selectedFiles
  else inputFileData = selectedFiles /\ st' = st.
Proof.
  rewrite readInputFiles_eq. destruct (mime_eqb _ _); [|done].
  split; [done|]. apply downloadAll_trace.
Qed.

Lemma okChain_all path : okChain trivialHop path.
Proof. unfold okChain. apply List.Forall_forall. intros ? _. exact I. Qed.

(** The replay and the second run start the executor on an empty prefix
    cache; what it then adds to the trace. *)
Lemma attempt_from_scratch files path st r st1 :
  attemptConvertPath files path true
    (log (EvStepStart path 0) (set_convertPathCache [] st)) = (r, st1) ->
  frame st st1
  /\ (exists new,
         trace st1 = trace st ++ EvStepStart path 0 :: EvAttempt path :: new
         /\ Forall (loopEv trivialR (hops_from 0 path)) new)
  /\ match r with Some output => snd output = path | None => True end.
Proof.
  intros Hatt.
  destruct (attemptConvertPath_spec trivialJ trivialHop trivialR
              (fun _ _ _ _ _ => I) (fun _ _ _ _ _ _ _ _ _ _ _ _ => I) (fun _ _ _ _ _ _ _ => I)
              _ _ _ _ _ _ (okChain_all path) I Hatt)
    as (_ & Hfr & new & done & Ht & HF & _ & _ & _ & Hr).
  split; [|split].
  - eapply frame_trans; [|exact Hfr]. by repeat split.
  - exists new. split; [|done]. rewrite Ht. simpl. by rewrite <- app_assoc.
  - destruct r as [[out p]|]; [|done]. by destruct Hr as (-> & _).
Qed.







(** ** The realignment of the prefix cache (main.js 874-879) *)

Lemma divergence_agrees rest cache :
  forall from i,
    divergence from rest cache = Some i ->
    from <= i < from + length rest
    /\ forall j, from <= j < i ->
         exists n e, rest !! (j - from) = Some n /\ cache !! j = Some e
                     /\ node_same n (ce_node e) = true.
Proof.
  induction rest as [|n rest IH]; intros from i H; simpl in H; [done|].
  destruct (differs_from_cache n (cache !! from)) eqn:Hd.
  - inversion H; subst. split; [simpl; lia|]. intros j Hj. lia.
  - destruct (IH _ _ H) as (Hi & Hall). split; [simpl; lia|].
    intros j Hj. destruct (decide (j = from)) as [->|Hne].
    + rewrite Nat.sub_diag. unfold differs_from_cache in Hd.
      destruct (cache !! from) as [e|]; [|done]. exists n, e.
      repeat split; try done. by apply negb_false_iff in Hd.
    + destruct (Hall j ltac:(lia)) as (n' & e & Hn' & He & Hs). exists n', e.
      replace (j - from) with (S (j - S from)) by lia. done.
Qed.

(** X19.  When the realignment loop finds a difference at index [i], that
    index is inside the chain, every earlier index from 1 on has a cache
    entry whose node is the node of the chain at that same index, and the
    length [i - 1] it assigns is at most the length the cache has: the
    assignment truncates, what is kept is a prefix of the cache. *)
Theorem realign_truncates path cache i :
  divergence 1 (tail path) cache = Some i ->
  1 <= i < length path
  /\ i - 1 <= length cache
  /\ realign path cache = take (i - 1) cache
  /\ forall j, 1 <= j < i ->
       exists n e, path !! j = Some n /\ cache !! j = Some e
                   /\ node_same n (ce_node e) = true.
Proof.
  intros H. destruct (divergence_agrees _ _ _ _ H) as (Hi & Hall).
  split; [destruct path; simpl in *; lia|]. split.
  - apply (divergence_within (tail path) cache 1 i); [simpl; lia | done].
  - split; [unfold realign; by rewrite H|].
    intros j Hj. destruct (Hall j Hj) as (n & e & Hn & He & Hs).
    exists n, e. rewrite lookup_tail in Hn.
    replace (S (j - 1)) with j in Hn by lia. done.
Qed.

Lemma realign_truncates_witness :
  1 <= 1 < length Scenario.Row.foundPath
  /\ 1 - 1 <= length (convertPathCache (snd Scenario.Row.clickSearch))
  /\ realign Scenario.Row.foundPath (convertPathCache (snd Scenario.Row.clickSearch))
     = take (1 - 1) (convertPathCache (snd Scenario.Row.clickSearch))
  /\ forall j, 1 <= j < 1 ->
       exists n e, Scenario.Row.foundPath !! j = Some n
                   /\ convertPathCache (snd Scenario.Row.clickSearch) !! j = Some e
                   /\ node_same n (ce_node e) = true.
Proof.
  apply (realign_truncates Scenario.Row.foundPath
           (convertPathCache (snd Scenario.Row.clickSearch)) 1).
  vm_compute. reflexivity.
Defined.

(** ** [mimeToCategory] (main.js 527-538) *)

(** X20.  A MIME type is put in the category archive exactly when it is
    one of the five archive types of the list, and every MIME type gets
    one of six categories. *)
Theorem mimeToCategory_archive mime :
  (mimeToCategory mime = "archive" <-> In mime archiveMimes)
  /\ In (mimeToCategory mime) ["image"; "video"; "audio"; "archive"; "document"; "other"].
Proof.
  split; [split|].
  - unfold mimeToCategory. intros H.
    destruct (String.prefix "image/" mime); [done|].
    destruct (String.prefix "video/" mime); [done|].
    destruct (String.prefix "audio/" mime); [done|].
    destruct (String.prefix "application/" mime || String.prefix "text/" mime); [|done].
    destruct (existsb (String.eqb mime) archiveMimes) eqn:He; [|done].
    apply existsb_exists in He as (x & Hx & Heq). apply String.eqb_eq in Heq. by subst.
  - intros H. unfold archiveMimes in H. simpl in H.
    destruct H as [<-|[<-|[<-|[<-|[<-|[]]]]]]; vm_compute; reflexivity.
  - unfold mimeToCategory.
    destruct (String.prefix "image/" mime); [simpl; tauto|].
    destruct (String.prefix "video/" mime); [simpl; tauto|].
    destruct (String.prefix "audio/" mime); [simpl; tauto|].
    destruct (String.prefix "application/" mime || String.prefix "text/" mime); [|simpl; tauto].
    destruct (existsb (String.eqb mime) archiveMimes); simpl; tauto.
Qed.

(** ** The handlers (part_000, part_001) *)

Lemma replaceDoubleSpaces_cons c d rest :
  Handlers.replaceDoubleSpaces (String c (String d rest))
  = if Ascii.eqb c " "%char && Ascii.eqb d " "%char
    then String " "%char (Handlers.replaceDoubleSpaces rest)
    else String c (Handlers.replaceDoubleSpaces (String d rest)).
Proof. reflexivity. Qed.

Lemma hasDoubleSpace_cons c d rest :
  Handlers.hasDoubleSpace (String c (String d rest))
  = (Ascii.eqb c " "%char && Ascii.eqb d " "%char) || Handlers.hasDoubleSpace (String d rest).
Proof. reflexivity. Qed.

(** One pass: it never lengthens the line, changes nothing in a line
    without two spaces in a row, and shortens any other line. *)
Lemma replaceDoubleSpaces_length n :
  forall line,
    String.length line <= n ->
    String.length (Handlers.replaceDoubleSpaces line) <= String.length line
    /\ (Handlers.hasDoubleSpace line = false -> Handlers.replaceDoubleSpaces line = line)
    /\ (Handlers.hasDoubleSpace line = true ->
        String.length (Handlers.replaceDoubleSpaces line) < String.length line).
Proof.
  induction n as [|n IH]; intros line Hn.
  - destruct line; simpl in Hn; [|lia]. simpl. repeat split; done || lia.
  - destruct line as [|c [|d rest]]; [simpl; repeat split; done || lia ..|].
    rewrite replaceDoubleSpaces_cons, hasDoubleSpace_cons.
    destruct (Ascii.eqb c " "%char && Ascii.eqb d " "%char) eqn:Hcd.
    + destruct (IH rest) as (Hle & _ & _); [simpl in Hn; lia|].
      rewrite orb_true_l. cbn [String.length] in *.
      split; [lia|]. split; [done|]. intros _. lia.
    + destruct (IH (String d rest)) as (Hle & Hsame & Hlt); [simpl in Hn |- *; lia|].
      rewrite orb_false_l. cbn [String.length] in *. split; [lia|]. split.
      * intros H. by rewrite (Hsame H).
      * intros H. specialize (Hlt H). lia.
Qed.

Lemma collapseLoop_spec fuel :
  forall line,
    String.length line < fuel ->
    exists r, Handlers.collapseLoop fuel line = Some r
              /\ Handlers.hasDoubleSpace r = false
              /\ String.length r <= String.length line
              /\ (Handlers.hasDoubleSpace line = false -> r = line)
              /\ (Handlers.hasDoubleSpace line = true -> String.length r < String.length line).
Proof.
  induction fuel as [|fuel IH]; intros line Hf; [lia|].
  destruct (replaceDoubleSpaces_length _ line (le_n _)) as (Hle & Hsame & Hlt).
  cbn [Handlers.collapseLoop].
  destruct (String.length line =? String.length (Handlers.replaceDoubleSpaces line)) eqn:Hlen.
  - apply Nat.eqb_eq in Hlen. exists (Handlers.replaceDoubleSpaces line).
    destruct (Handlers.hasDoubleSpace line) eqn:Hd.
    + specialize (Hlt eq_refl). lia.
    + rewrite (Hsame eq_refl). repeat split; try done.
  - apply Nat.eqb_neq in Hlen.
    destruct (IH (Handlers.replaceDoubleSpaces line)) as (r & Hr & Hnd & Hrl & _ & _); [lia|].
    exists r. repeat split; try done; try lia.
    intros Hd. rewrite (Hsame Hd) in Hlen. done.
Qed.

(** X21.  The loop that collapses spaces ends, on a line in which no two
    spaces follow each other any more; a line that had none is returned
    as it is, any other line gets shorter. *)
Theorem collapseSpaces_result line :
  exists r, Handlers.collapseSpaces line = Some r
            /\ Handlers.hasDoubleSpace r = false
            /\ if Handlers.hasDoubleSpace line
               then String.length r < String.length line
               else r = line.
Proof.
  destruct (collapseLoop_spec (S (String.length line)) line (Nat.lt_succ_diag_r _))
    as (r & Hr & Hnd & _ & Hsame & Hlt).
  exists r. split; [exact Hr|]. split; [exact Hnd|].
  destruct (Handlers.hasDoubleSpace line); [by apply Hlt | by apply Hsame].
Qed.

(** *** The order of the formats *)

Lemma In_insertSorted {A : Type} (compare : A -> A -> Z) x y l :
  In y (Handlers.insertSorted compare x l) <-> y = x \/ In y l.
Proof.
  induction l as [|z l IH]; simpl; [intuition|].
  destruct (compare z x <? 0)%Z; simpl; [rewrite IH|]; intuition.
Qed.

Lemma In_sort {A : Type} (compare : A -> A -> Z) y l :
  In y (Handlers.sort compare l) <-> In y l.
Proof.
  induction l as [|x l IH]; simpl; [done|].
  rewrite In_insertSorted, IH. intuition.
Qed.

Lemma length_insertSorted {A : Type} (compare : A -> A -> Z) x l :
  length (Handlers.insertSorted compare x l) = S (length l).
Proof.
  induction l as [|z l IH]; simpl; [done|].
  destruct (compare z x <? 0)%Z; simpl; [by rewrite IH | done].
Qed.

Lemma length_sort {A : Type} (compare : A -> A -> Z) l :
  length (Handlers.sort compare l) = length l.
Proof.
  induction l as [|x l IH]; simpl; [done|]. by rewrite length_insertSorted, IH.
Qed.

(** A sort whose comparator orders by a key, larger keys first, gives
    the elements grouped by key, each group in the order of the input. *)
Section StableSort.

Context {A : Type}.
Variable compare : A -> A -> Z.
Variable key : A -> nat.
Hypothesis compare_key : forall y x, (compare y x <? 0)%Z = (key x <? key y).

Definition keyGroups (l : list A) (keys : list nat) : list A :=
  flat_map (fun k => List.filter (fun c => key c =? k) l) keys.

Lemma insertSorted_between x a b :
  Forall (fun y => key x < key y) a -> Forall (fun y => key y <= key x) b ->
  Handlers.insertSorted compare x (a ++ b) = a ++ x :: b.
Proof.
  intros Ha Hb. induction a as [|y a IH]; simpl.
  - destruct b as [|y b]; [done|]. simpl. rewrite compare_key.
    inversion Hb; subst. destruct (Nat.ltb_spec (key x) (key y)); [lia | done].
  - inversion Ha; subst. rewrite compare_key.
    destruct (Nat.ltb_spec (key x) (key y)); [|lia]. by rewrite IH.
Qed.

Lemma keyGroups_key l keys y : In y (keyGroups l keys) -> In (key y) keys.
Proof.
  unfold keyGroups. intros H. apply in_flat_map in H as (k & Hk & Hy).
  apply filter_In in Hy as [_ Hy]. apply Nat.eqb_eq in Hy. by subst.
Qed.

Lemma keyGroups_cons_other x l keys :
  ~ In (key x) keys -> keyGroups (x :: l) keys = keyGroups l keys.
Proof.
  unfold keyGroups. induction keys as [|k keys IH]; intros Hn; [done|].
  cbn [flat_map]. rewrite IH by (intros Hin; apply Hn; by right).
  f_equal. cbn [List.filter].
  destruct (Nat.eqb_spec (key x) k) as [E|Hne]; [|done].
  exfalso. apply Hn. left. by rewrite E.
Qed.

Lemma keyGroups_nil keys : keyGroups [] keys = [].
Proof. unfold keyGroups. induction keys; simpl; done. Qed.

Lemma sort_keyGroups n l :
  (forall x, key x <= n) ->
  Handlers.sort compare l = keyGroups l (rev (seq 0 (S n))).
Proof.
  intros Hn. induction l as [|x l IH]; [by rewrite keyGroups_nil|].
  change (Handlers.sort compare (x :: l))
    with (Handlers.insertSorted compare x (Handlers.sort compare l)).
  rewrite IH. set (r := key x).
  assert (Hsplit : rev (seq 0 (S n)) = rev (seq (S r) (n - r)) ++ r :: rev (seq 0 r)).
  { replace (S n) with (r + S (n - r)) by (specialize (Hn x); lia).
    rewrite seq_app. cbn [seq]. rewrite rev_app_distr. simpl rev.
    rewrite <- app_assoc. simpl. by replace (r + S (n - r) - r) with (S (n - r)) by lia. }
  rewrite Hsplit. unfold keyGroups at 1 2. rewrite !flat_map_app. cbn [flat_map].
  fold (keyGroups l (rev (seq (S r) (n - r)))). fold (keyGroups l (rev (seq 0 r))).
  fold (keyGroups (x :: l) (rev (seq (S r) (n - r)))). fold (keyGroups (x :: l) (rev (seq 0 r))).
  rewrite insertSorted_between.
  - rewrite !keyGroups_cons_other.
    + cbn [List.filter]. fold r. by rewrite Nat.eqb_refl.
    + rewrite <- in_rev, in_seq. fold r. lia.
    + rewrite <- in_rev, in_seq. fold r. lia.
  - apply List.Forall_forall. intros y Hy. apply keyGroups_key in Hy.
    rewrite <- in_rev, in_seq in Hy. fold r. lia.
  - apply List.Forall_forall. intros y Hy. apply in_app_or in Hy as [Hy|Hy].
    + apply filter_In in Hy as [_ Hy]. apply Nat.eqb_eq in Hy. fold r. lia.
    + apply keyGroups_key in Hy. rewrite <- in_rev, in_seq in Hy. fold r. lia.
Qed.

End StableSort.

Lemma indexOf_range x l : (-1 <= Handlers.indexOf x l < Z.of_nat (length l))%Z.
Proof.
  induction l as [|y l IH]; simpl; [lia|].
  destruct (String.eqb y x); [lia|].
  destruct (Z.ltb_spec (Handlers.indexOf x l) 0); lia.
Qed.

(** The key of a format under [byPriority]: its index in the list,
    plus one. *)
Definition priorityKey (prioritize : list string) (c : FileFormat) : nat :=
  Z.to_nat (Handlers.indexOf (fmt_format c) prioritize + 1).

Lemma byPriority_key prioritize y x :
  (Handlers.byPriority prioritize y x <? 0)%Z
  = (priorityKey prioritize x <? priorityKey prioritize y).
Proof.
  unfold Handlers.byPriority, priorityKey.
  pose proof (indexOf_range (fmt_format x) prioritize).
  pose proof (indexOf_range (fmt_format y) prioritize).
  destruct (Z.ltb_spec (Handlers.indexOf (fmt_format x) prioritize
                        - Handlers.indexOf (fmt_format y) prioritize) 0);
    destruct (Nat.ltb_spec (Z.to_nat (Handlers.indexOf (fmt_format x) prioritize + 1))
                           (Z.to_nat (Handlers.indexOf (fmt_format y) prioritize + 1)));
    try done; lia.
Qed.

Lemma sort_byPriority prioritize l :
  Handlers.sort (Handlers.byPriority prioritize) l
  = keyGroups (priorityKey prioritize) l (rev (seq 0 (S (length prioritize)))).
Proof.
  apply sort_keyGroups.
  - apply byPriority_key.
  - intros x. unfold priorityKey.
    pose proof (indexOf_range (fmt_format x) prioritize). lia.
Qed.

(** The formats with a given code, and those whose code is not in a
    list, in the order of the input. *)
Definition withCode (code : string) (formats : list FileFormat) : list FileFormat :=
  List.filter (fun c => String.eqb (fmt_format c) code) formats.

Definition unlisted (codes : list string) (formats : list FileFormat) : list FileFormat :=
  List.filter (fun c => negb (existsb (String.eqb (fmt_format c)) codes)) formats.

Ltac split_code s code :=
  destruct (String.eqb_spec s code) as [->|?]; [by vm_compute|].

Ltac other_code s code :=
  match goal with
  | H : s <> code |- _ =>
      rewrite (proj2 (String.eqb_neq code s)) by (intros E; apply H; symmetry; exact E);
      try rewrite (proj2 (String.eqb_neq s code)) by exact H
  end.

Lemma magick_keys s :
  let k := Z.to_nat (Handlers.indexOf s (rev ["png"; "jpeg"; "apng"; "gif"]) + 1) in
  (k =? 4) = String.eqb s "png" /\ (k =? 3) = String.eqb s "jpeg"
  /\ (k =? 2) = String.eqb s "apng" /\ (k =? 1) = String.eqb s "gif"
  /\ (k =? 0) = negb (existsb (String.eqb s) ["png"; "jpeg"; "apng"; "gif"]).
Proof.
  split_code s "png". split_code s "jpeg". split_code s "apng". split_code s "gif".
  cbn [rev app Handlers.indexOf existsb].
  other_code s "png". other_code s "jpeg". other_code s "apng". other_code s "gif".
  by vm_compute.
Qed.

Lemma ffmpeg_keys s :
  let k := Z.to_nat (Handlers.indexOf s (rev ["webm"; "mp4"; "gif"]) + 1) in
  (k =? 3) = String.eqb s "webm" /\ (k =? 2) = String.eqb s "mp4"
  /\ (k =? 1) = String.eqb s "gif"
  /\ (k =? 0) = negb (existsb (String.eqb s) ["webm"; "mp4"; "gif"]).
Proof.
  split_code s "webm". split_code s "mp4". split_code s "gif".
  cbn [rev app Handlers.indexOf existsb].
  other_code s "webm". other_code s "mp4". other_code s "gif".
  by vm_compute.
Qed.

Lemma magick_sorted formats :
  Handlers.sort (Handlers.byPriority (rev ["png"; "jpeg"; "apng"; "gif"])) formats
  = withCode "png" formats ++ withCode "jpeg" formats ++ withCode "apng" formats
    ++ withCode "gif" formats ++ unlisted ["png"; "jpeg"; "apng"; "gif"] formats.
Proof.
  rewrite sort_byPriority. unfold keyGroups, withCode, unlisted, priorityKey.
  cbn [rev length seq app flat_map]. rewrite app_nil_r.
  assert (Hk : forall c, _) by exact (fun c => magick_keys (fmt_format c)).
  repeat (apply (f_equal2 app);
          [apply List.filter_ext; intros c; destruct (Hk c) as (?&?&?&?&?); done|]).
  apply List.filter_ext; intros c; destruct (Hk c) as (?&?&?&?&?); done.
Qed.

Lemma ffmpeg_sorted formats :
  Handlers.sort (Handlers.byPriority (rev ["webm"; "mp4"; "gif"])) formats
  = withCode "webm" formats ++ withCode "mp4" formats ++ withCode "gif" formats
    ++ unlisted ["webm"; "mp4"; "gif"] formats.
Proof.
  rewrite sort_byPriority. unfold keyGroups, withCode, unlisted, priorityKey.
  cbn [rev length seq app flat_map]. rewrite app_nil_r.
  assert (Hk : forall c, _) by exact (fun c => ffmpeg_keys (fmt_format c)).
  repeat (apply (f_equal2 app);
          [apply List.filter_ext; intros c; destruct (Hk c) as (?&?&?&?); done|]).
  apply List.filter_ext; intros c; destruct (Hk c) as (?&?&?&?); done.
Qed.

Lemma renameSvgz_app a b :
  Forall (fun c => fmt_format c <> "svgz") a ->
  Handlers.renameSvgz (a ++ b) = option_map (app a) (Handlers.renameSvgz b).
Proof.
  induction a as [|c a IH]; intros Ha; simpl.
  - by destruct (Handlers.renameSvgz b).
  - inversion Ha as [|? ? Hc Hrest]; subst.
    rewrite (proj2 (String.eqb_neq _ _) Hc), (IH Hrest).
    by destruct (Handlers.renameSvgz b).
Qed.

Lemma renameSvgz_None l :
  Handlers.renameSvgz l = None <-> Forall (fun c => fmt_format c <> "svgz") l.
Proof.
  induction l as [|c l IH]; simpl; [done|].
  destruct (String.eqb_spec (fmt_format c) "svgz") as [E|N].
  - split; [done|]. intros H. by inversion H.
  - destruct (Handlers.renameSvgz l); simpl.
    + split; [done|]. intros H. inversion H as [|? ? _ Hl]; subst.
      apply IH in Hl. done.
    + split; [|done]. intros _. constructor; [done|]. by apply IH.
Qed.

Lemma withCode_code code formats :
  Forall (fun c => fmt_format c = code) (withCode code formats).
Proof.
  apply List.Forall_forall. intros c Hc. apply filter_In in Hc as [_ Hc].
  by apply String.eqb_eq.
Qed.

(** X22.  The end of ImageMagick's [init]: the formats png, jpeg, apng
    and gif come first, in this order, every other format follows in the
    order it was listed in, and the first format called svgz is renamed
    svg.  The [init] throws exactly when no format is called svgz. *)
Theorem magickFineTune_order supportedFormats :
  Handlers.magickFineTune supportedFormats
  = option_map
      (fun others =>
         withCode "png" supportedFormats ++ withCode "jpeg" supportedFormats
         ++ withCode "apng" supportedFormats ++ withCode "gif" supportedFormats ++ others)
      (Handlers.renameSvgz (unlisted ["png"; "jpeg"; "apng"; "gif"] supportedFormats))
  /\ (Handlers.magickFineTune supportedFormats = None
      <-> Forall (fun c => fmt_format c <> "svgz") supportedFormats).
Proof.
  unfold Handlers.magickFineTune. split.
  - rewrite magick_sorted.
    rewrite !renameSvgz_app;
      try (eapply Forall_impl; [apply withCode_code|]; by intros c ->).
    by destruct (Handlers.renameSvgz _).
  - rewrite renameSvgz_None, !List.Forall_forall. split; intros H c Hc; apply H.
    + by apply In_sort.
    + by apply In_sort in Hc.
Qed.

Lemma findIndex_spec {A : Type} (p : A -> bool) l :
  (Handlers.findIndex p l = (-1)%Z /\ Forall (fun y => p y = false) l)
  \/ exists l1 a l2, l = l1 ++ a :: l2 /\ p a = true /\ Forall (fun y => p y = false) l1
                     /\ Handlers.findIndex p l = Z.of_nat (length l1).
Proof.
  induction l as [|y l IH]; simpl; [by left|].
  destruct (p y) eqn:Hy.
  - right. exists [], y, l. by repeat split.
  - destruct IH as [[E F]|(l1 & a & l2 & -> & Ha & F & E)].
    + left. rewrite E. simpl. split; [done|]. by constructor.
    + right. exists (y :: l1), a, l2. rewrite E.
      destruct (Z.ltb_spec (Z.of_nat (length l1)) 0); [lia|].
      repeat split; try done; [by constructor|]. simpl length. lia.
Qed.

Lemma delete_last {A : Type} (l : list A) : delete (length l - 1) l = removelast l.
Proof.
  induction l as [|x l IH]; [done|].
  destruct l as [|y l]; [done|].
  change (removelast (x :: y :: l)) with (x :: removelast (y :: l)).
  rewrite <- IH. simpl length. replace (S (S (length l)) - 1) with (S (S (length l) - 1)) by lia.
  done.
Qed.

Lemma splice1_last {A : Type} (l : list A) : Handlers.splice1 (-1) l = removelast l.
Proof.
  unfold Handlers.splice1. change (-1 <? 0)%Z with true. cbv iota.
  rewrite <- delete_last. f_equal. lia.
Qed.

Lemma delete_middle {A : Type} (l1 : list A) a l2 :
  delete (length l1) (l1 ++ a :: l2) = l1 ++ l2.
Proof.
  induction l1 as [|x l1 IH]; [done|].
  change (x :: delete (length l1) (l1 ++ a :: l2) = x :: (l1 ++ l2)). by rewrite IH.
Qed.

Lemma splice1_at {A : Type} (l1 : list A) a l2 :
  Handlers.splice1 (Z.of_nat (length l1)) (l1 ++ a :: l2) = l1 ++ l2.
Proof.
  unfold Handlers.splice1.
  destruct (Z.ltb_spec (Z.of_nat (length l1)) 0); [lia|].
  etrans; [|apply (delete_middle l1 a l2)]. f_equal.
  rewrite length_app. simpl length. lia.
Qed.

(** X23.  The end of FFmpeg's [init] always removes one format (unless
    there is none): the first one with MIME type image/avif of the sorted
    list (webm, mp4 and gif first, the others in the order they were
    listed in), or, when no format has that MIME type, the last format of
    the sorted list. *)
Theorem ffmpegFineTune_removes_one supportedFormats :
  let avif := fun c => mime_eqb (fmt_mime c) (Some "image/avif") in
  let sorted :=
    withCode "webm" supportedFormats ++ withCode "mp4" supportedFormats
    ++ withCode "gif" supportedFormats ++ unlisted ["webm"; "mp4"; "gif"] supportedFormats in
  length (Handlers.ffmpegFineTune supportedFormats) = length supportedFormats - 1
  /\ if existsb avif supportedFormats
     then exists before a after,
         sorted = before ++ a :: after /\ avif a = true
         /\ Forall (fun c => avif c = false) before
         /\ Handlers.ffmpegFineTune supportedFormats = before ++ after
     else Handlers.ffmpegFineTune supportedFormats = removelast sorted.
Proof.
  intros avif sorted. unfold Handlers.ffmpegFineTune. fold avif.
  assert (Hs : Handlers.sort (Handlers.byPriority (rev ["webm"; "mp4"; "gif"])) supportedFormats
               = sorted) by apply ffmpeg_sorted.
  assert (Hlen : length sorted = length supportedFormats)
    by (rewrite <- Hs; apply length_sort).
  assert (Hin : forall c, In c sorted <-> In c supportedFormats)
    by (intros c; rewrite <- Hs; apply In_sort).
  rewrite Hs.
  destruct (findIndex_spec avif sorted) as [[E F]|(l1 & a & l2 & Hsplit & Ha & F & E)];
    rewrite E.
  - rewrite splice1_last. split.
    + rewrite <- Hlen. destruct sorted; [done|].
      rewrite (app_removelast_last f (l := f :: sorted)) at 2 by done.
      rewrite length_app. simpl length. lia.
    + destruct (existsb avif supportedFormats) eqn:Hex; [|done].
      apply existsb_exists in Hex as (c & Hc & Hav).
      apply Hin in Hc. rewrite List.Forall_forall in F. rewrite (F c Hc) in Hav. done.
  - rewrite Hsplit, splice1_at. split.
    + rewrite <- Hlen, Hsplit, !length_app. simpl length. lia.
    + destruct (existsb avif supportedFormats) eqn:Hex.
      * exists l1, a, l2. by rewrite <- Hsplit.
      * assert (Hc : In a supportedFormats).
        { apply Hin. rewrite Hsplit. apply in_or_app. right. by left. }
        assert (existsb avif supportedFormats = true)
          by (apply existsb_exists; by exists a).
        congruence.
Qed.

(** *** ImageMagick's [doConvert] (part_000 92-114) *)

(** The command line: [convert], the file name, the extra arguments of a
    retry, and the output. *)
Definition magickCommand (inputFile : FileData) (outputFormat : FileFormat)
    (args : list string) : list string :=
  ["convert"; fd_name inputFile] ++ args ++ [String.append (fmt_internal outputFormat) ":out"].

(** X24.  ImageMagick's [doConvert] calls the library once or twice and
    then returns or throws: the second call, with [-resize 256x256], is
    made exactly when the first one failed and the first line of its
    error stream names the size limit; a failure of the second call is
    final.  The bytes returned are the first output file of the call
    that ended with exit code 0. *)
Theorem magick_doConvert_retries_once call fuel inputFile inputFormat outputFormat w :
  let image := (fd_name inputFile, fd_bytes inputFile) in
  let r1 := call w image (magickCommand inputFile outputFormat []) in
  let r2 := call (snd r1) image (magickCommand inputFile outputFormat ["-resize"; "256x256"]) in
  let output :=
    fun r : Handlers.MagickResult * nat =>
      if (Handlers.exitCode (fst r) =? 0)%Z then head (Handlers.outputFiles (fst r)) else None in
  Handlers.doConvert call (S (S fuel)) inputFile inputFormat outputFormat None w
  = Some (if negb (Handlers.exitCode (fst r1) =? 0)%Z
             && match Handlers.stderr (fst r1) with
                | line :: _ => Handlers.includes line "WidthOrHeightExceedsLimit"
                | [] => false
                end
          then Handlers.mkConvertRun (output r2)
                 [magickCommand inputFile outputFormat [];
                  magickCommand inputFile outputFormat ["-resize"; "256x256"]] (snd r2)
          else Handlers.mkConvertRun (output r1) [magickCommand inputFile outputFormat []]
                 (snd r1)).
Proof.
  intros image r1 r2 output. subst output r2 r1 image.
  cbn [Handlers.doConvert from_option]. unfold magickCommand. cbn [app id].
  destruct (call w _ _) as [res1 w1]. cbn [fst snd].
  destruct (Handlers.exitCode res1 =? 0)%Z; cbn [negb andb]; [done|].
  destruct (Handlers.stderr res1) as [|line rest]; [done|].
  destruct (Handlers.includes line _); [|done].
  destruct (call w1 _ _) as [res2 w2]. cbn [fst snd].
  destruct (Handlers.exitCode res2 =? 0)%Z; cbn [negb option_map]; [done|].
  by destruct (Handlers.stderr res2).
Qed.

(** ** The first version of the router (main.js 155-212) *)

Lemma zip_tail_snoc {A : Type} (l : list A) prev x :
  last l = Some prev ->
  zip (l ++ [x]) (tail (l ++ [x])) = zip l (tail l) ++ [(prev, x)].
Proof.
  induction l as [|a l IH]; intros Hl; [done|].
  destruct l as [|b l].
  - simpl in Hl. inversion Hl; by subst.
  - change (last (a :: b :: l)) with (last (b :: l)) in Hl.
    specialize (IH Hl). simpl in IH |- *. by rewrite IH.
Qed.

Lemma last_zip_tail {A : Type} (l : list A) p n :
  last (zip l (tail l)) = Some (p, n) -> last l = Some n.
Proof.
  induction l as [|a l IH]; intros H; [done|].
  destruct l as [|b l]; [done|].
  destruct l as [|c l].
  - simpl in H. inversion H; by subst.
  - change (last (a :: b :: c :: l)) with (last (b :: c :: l)).
    apply IH. exact H.
Qed.

Lemma beforeDot_append base rest :
  Legacy.beforeDot (String.append (Legacy.beforeDot base) (String.append "." rest))
  = Legacy.beforeDot base.
Proof.
  induction base as [|c base IH]; simpl; [done|].
  destruct (Ascii.eqb c "."%char) eqn:Hc; simpl; [done|]. by rewrite Hc, IH.
Qed.

(** The name the executor gives the file after the hop to [next]. *)
Definition renamed (name : string) (next : Legacy.Node) : string :=
  String.append (Legacy.beforeDot name)
                (String.append "." (fmt_extension (Legacy.ln_format next))).

Lemma legacy_attemptLoop_success hops :
  forall r r',
    Legacy.attemptLoop hops r = (true, r') ->
    Legacy.tried r' = Legacy.tried r
    /\ forall prev next,
        last hops = Some (prev, next) ->
        fd_name (Legacy.file r') = renamed (fd_name (Legacy.file r)) next
        /\ fd_bytes (Legacy.file r') <> [].
Proof.
  induction hops as [|[p n] hops IH]; intros r r' H.
  - simpl in H. inversion H; subst. split; [done|]. intros ? ? Hl. done.
  - cbn [Legacy.attemptLoop] in H.
    destruct (Legacy.lh_doConvert _ _ _ _ _) as [[bytes|] w]; [|done].
    destruct bytes as [|b bytes]; [done|].
    destruct (IH _ _ H) as (Ht & Hlast). split; [done|].
    intros prev next Hl. destruct hops as [|h hops].
    + simpl in Hl. inversion Hl; subst. simpl in H. inversion H; subst. done.
    + change (last ((p, n) :: h :: hops)) with (last (h :: hops)) in Hl.
      destruct (Hlast _ _ Hl) as (Hn & Hb). split; [|done].
      rewrite Hn. unfold renamed. simpl. by rewrite beforeDot_append.
Qed.

Lemma legacy_attemptLoop_tried hops :
  forall f w t t',
    Legacy.attemptLoop hops (Legacy.mkRun f w t')
    = (fst (Legacy.attemptLoop hops (Legacy.mkRun f w t)),
       Legacy.mkRun (Legacy.file (snd (Legacy.attemptLoop hops (Legacy.mkRun f w t))))
                    (Legacy.world (snd (Legacy.attemptLoop hops (Legacy.mkRun f w t)))) t').
Proof.
  induction hops as [|[p n] hops IH]; intros f w t t'; [done|].
  cbn [Legacy.attemptLoop Legacy.file Legacy.world Legacy.tried].
  destruct (Legacy.lh_doConvert _ _ _ _ _) as [[bytes|] w1]; [|done].
  destruct bytes as [|b bytes]; [done|]. apply IH.
Qed.

Lemma legacy_attemptLoop_app hops1 hops2 :
  forall r,
    Legacy.attemptLoop (hops1 ++ hops2) r
    = match Legacy.attemptLoop hops1 r with
      | (true, r1) => Legacy.attemptLoop hops2 r1
      | (false, r1) => (false, r1)
      end.
Proof.
  induction hops1 as [|[p n] hops1 IH]; intros r; [done|].
  cbn [app Legacy.attemptLoop].
  destruct (Legacy.lh_doConvert _ _ _ _ _) as [[bytes|] w1]; [|done].
  destruct bytes as [|b bytes]; [done|]. apply IH.
Qed.

Lemma legacy_attempt_success path r p r' :
  Legacy.attemptConvertPath path r = (Some p, r') ->
  p = path /\ Legacy.tried r' = Legacy.tried r ++ [path]
  /\ (2 <= length path ->
      exists final, last path = Some final
                    /\ fd_name (Legacy.file r') = renamed (fd_name (Legacy.file r)) final
                    /\ fd_bytes (Legacy.file r') <> []).
Proof.
  unfold Legacy.attemptConvertPath. intros H.
  destruct (Legacy.attemptLoop _ _) as [[|] r1] eqn:Hloop; [|done].
  injection H as <- <-. destruct (legacy_attemptLoop_success _ _ _ Hloop) as (Ht & Hlast).
  split; [done|]. split; [done|]. intros Hlen.
  destruct (last (zip path (tail path))) as [[prev next]|] eqn:Hl.
  - exists next. split; [by apply (last_zip_tail path prev next)|]. by apply (Hlast prev).
  - apply last_None in Hl. destruct path as [|a [|b rest]]; simpl in *; try lia. done.
Qed.

(** X25.  When the first executor succeeds on a chain of two or more
    nodes, the file object holds bytes that are not empty and is named
    after the part of the input name before its first dot and the
    extension of the last node of the chain. *)
Theorem legacy_attempt_names_file path r p r' :
  2 <= length path ->
  Legacy.attemptConvertPath path r = (Some p, r') ->
  p = path
  /\ exists final,
      last path = Some final
      /\ fd_name (Legacy.file r')
         = String.append (Legacy.beforeDot (fd_name (Legacy.file r)))
                         (String.append "." (fmt_extension (Legacy.ln_format final)))
      /\ fd_bytes (Legacy.file r') <> [].
Proof.
  intros Hlen H. destruct (legacy_attempt_success _ _ _ _ H) as (Hp & _ & Hfinal).
  split; [done|]. by apply Hfinal.
Qed.

(** X26.  A chain that fails at some hop leaves in the file object what
    the chain up to that hop produced: if the executor succeeds on [pre]
    and the hop from the end of [pre] to [next] throws, then after the
    failed attempt on [pre ++ next :: post] the file object is the one
    the attempt on [pre] leaves, not the input file. *)
Theorem legacy_failure_keeps_partial pre prev next post r r1 :
  last pre = Some prev ->
  Legacy.attemptConvertPath pre r = (Some pre, r1) ->
  fst (Legacy.lh_doConvert (Legacy.ln_handler next) (Legacy.world r1) (Legacy.file r1)
                           (Legacy.ln_format prev) (Legacy.ln_format next)) = None ->
  exists r', Legacy.attemptConvertPath (pre ++ next :: post) r = (None, r')
             /\ Legacy.file r' = Legacy.file r1.
Proof.
  unfold Legacy.attemptConvertPath. intros Hlast Hpre Hthrow.
  destruct (Legacy.attemptLoop (zip pre (tail pre)) _) as [[|] r0] eqn:Hloop; [|done].
  inversion Hpre; subst r0. clear Hpre.
  replace (pre ++ next :: post) with ((pre ++ [next]) ++ post)
    by (by rewrite <- app_assoc).
  assert (Hzip : zip ((pre ++ [next]) ++ post) (tail ((pre ++ [next]) ++ post))
                 = zip pre (tail pre) ++ (prev, next) :: zip (next :: post) post).
  { clear -Hlast. revert prev Hlast. induction pre as [|a pre IH]; intros prev Hlast; [done|].
    destruct pre as [|b pre].
    - simpl in Hlast. inversion Hlast; by subst.
    - change (last (a :: b :: pre)) with (last (b :: pre)) in Hlast.
      specialize (IH _ Hlast). simpl in IH |- *. by rewrite IH. }
  rewrite Hzip, legacy_attemptLoop_app.
  rewrite (legacy_attemptLoop_tried _ _ _ (Legacy.tried r ++ [pre])).
  cbn [Legacy.file Legacy.world Legacy.tried] in *. rewrite Hloop. cbn [fst snd].
  cbn [Legacy.attemptLoop Legacy.file Legacy.world Legacy.tried].
  destruct (Legacy.lh_doConvert _ _ _ _ _) as [[bytes|] w1]; [done|].
  eexists. split; [reflexivity|]. done.
Qed.

(** A small configuration for the first router: [first] reads png and
    writes bmp, [second] reads bmp and writes jpeg; [broken] declares
    what [second] declares and throws. *)
Module LegacyRow.
Definition png := Scenario.fmt 0 "png" "image/png" true false.
Definition bmp_out := Scenario.fmt 1 "bmp" "image/bmp" false true.
Definition bmp_in := Scenario.fmt 2 "bmp" "image/bmp" true false.
Definition jpeg := Scenario.fmt 3 "jpeg" "image/jpeg" false true.
Definition tagging (tag : Byte.byte) (w : nat) (f : FileData) (from to : FileFormat)
  : option (list Byte.byte) * nat :=
  (Some (tag :: fd_bytes f), S w).
Definition throwing (w : nat) (f : FileData) (from to : FileFormat)
  : option (list Byte.byte) * nat :=
  (None, S w).
Definition first := Legacy.mkHandler "first" [png; bmp_out] (tagging Byte.x01).
Definition second := Legacy.mkHandler "second" [bmp_in; jpeg] (tagging Byte.x02).
Definition broken := Legacy.mkHandler "broken" [bmp_in; jpeg] throwing.
Definition input := Legacy.mkNode png first.
Definition middle := Legacy.mkNode bmp_out first.
Definition output := Legacy.mkNode jpeg second.
Definition brokenOutput := Legacy.mkNode jpeg broken.
Definition start := Legacy.mkRun (mkFile "photo.old.png" [Byte.x89]) 0 [].
End LegacyRow.

Lemma legacy_attempt_names_file_witness :
  [LegacyRow.input; LegacyRow.middle; LegacyRow.output]
  = [LegacyRow.input; LegacyRow.middle; LegacyRow.output]
  /\ exists final,
      last [LegacyRow.input; LegacyRow.middle; LegacyRow.output] = Some final
      /\ fd_name (Legacy.file
                    (snd (Legacy.attemptConvertPath
                            [LegacyRow.input; LegacyRow.middle; LegacyRow.output]
                            LegacyRow.start)))
         = String.append (Legacy.beforeDot "photo.old.png")
                         (String.append "." (fmt_extension (Legacy.ln_format final)))
      /\ fd_bytes (Legacy.file
                     (snd (Legacy.attemptConvertPath
                             [LegacyRow.input; LegacyRow.middle; LegacyRow.output]
                             LegacyRow.start))) <> [].
Proof.
  apply (legacy_attempt_names_file
           [LegacyRow.input; LegacyRow.middle; LegacyRow.output] LegacyRow.start
           [LegacyRow.input; LegacyRow.middle; LegacyRow.output]
           (snd (Legacy.attemptConvertPath
                   [LegacyRow.input; LegacyRow.middle; LegacyRow.output] LegacyRow.start))).
  - simpl. lia.
  - vm_compute. reflexivity.
Defined.

Lemma legacy_failure_keeps_partial_witness :
  exists r',
    Legacy.attemptConvertPath [LegacyRow.input; LegacyRow.middle; LegacyRow.brokenOutput]
      LegacyRow.start = (None, r')
    /\ Legacy.file r'
       = Legacy.file (snd (Legacy.attemptConvertPath [LegacyRow.input; LegacyRow.middle]
                             LegacyRow.start)).
Proof.
  apply (legacy_failure_keeps_partial [LegacyRow.input; LegacyRow.middle] LegacyRow.middle
           LegacyRow.brokenOutput [] LegacyRow.start
           (snd (Legacy.attemptConvertPath [LegacyRow.input; LegacyRow.middle]
                   LegacyRow.start))).
  - reflexivity.
  - vm_compute. reflexivity.
  - vm_compute. reflexivity.
Defined.

(** *** The first search (main.js 176-212) *)

(** A hop the search accepts: the handler of the destination declares a
    [from] format with the MIME type of the source. *)
Definition legacyHop (hop : Legacy.Node * Legacy.Node) : Prop :=
  readsMime (fmt_mime (Legacy.ln_format (fst hop)))
            (Legacy.lh_supportedFormats (Legacy.ln_handler (snd hop))) = true.

Definition legacyRefs (path : list Legacy.Node) : list nat :=
  map (fun n => fmt_ref (Legacy.ln_format n)) path.

(** A node the expansion adds. *)
Definition legacyAdded (handlers : list Legacy.Handler) (n : Legacy.Node) : Prop :=
  In (Legacy.ln_handler n) handlers
  /\ In (Legacy.ln_format n) (Legacy.lh_supportedFormats (Legacy.ln_handler n))
  /\ fmt_to (Legacy.ln_format n) = true
  /\ mime_set (fmt_mime (Legacy.ln_format n)) = true.

(** What holds of every chain of the queue. *)
Definition legacyQueued (handlers : list Legacy.Handler) (inp : Legacy.Node)
    (path : list Legacy.Node) : Prop :=
  head path = Some inp
  /\ List.NoDup (legacyRefs path)
  /\ Forall legacyHop (zip path (tail path))
  /\ Forall (legacyAdded handlers) (tail path).

Lemma legacy_expand_queued handlers inp path previous :
  legacyQueued handlers inp path ->
  last path = Some previous ->
  Forall (legacyQueued handlers inp) (Legacy.expand handlers path previous).
Proof.
  intros (Hhead & Hnd & Hhops & Hadded) Hlast. apply List.Forall_forall. intros new Hnew.
  unfold Legacy.expand in Hnew.
  apply in_flat_map in Hnew as (handler & Hh & Hnew).
  apply filter_In in Hh as [Hin Hreads].
  apply in_flat_map in Hnew as (format & Hf & Hnew).
  destruct (fmt_to format) eqn:Hto; [|done]. simpl in Hnew.
  destruct (mime_set (fmt_mime format)) eqn:Hmime; [|done]. simpl in Hnew.
  destruct (existsb _ path) eqn:Hseen; [done|].
  destruct Hnew as [<-|[]].
  destruct path as [|a path]; [done|]. simpl in Hhead. inversion Hhead; subst a.
  split; [done|]. split; [|split].
  - unfold legacyRefs in *. rewrite map_app.
    change (map _ [Legacy.mkNode format handler]) with [fmt_ref format].
    apply NoDup_ListNoDup, NoDup_app. split; [by apply NoDup_ListNoDup|]. split.
    + intros ref Hin1 Hin2. apply list_elem_of_In in Hin1, Hin2.
      simpl in Hin2. destruct Hin2 as [<-|[]].
      apply in_map_iff in Hin1 as (c & Hc & Hcin).
      assert (existsb (fun c => format_same (Legacy.ln_format c) format) (inp :: path) = true).
      { apply existsb_exists. exists c. split; [done|].
        unfold format_same. rewrite Hc. apply Nat.eqb_refl. }
      congruence.
    + apply NoDup_ListNoDup. repeat constructor. by intros [].
  - rewrite (zip_tail_snoc _ previous) by done. apply Forall_app. split; [done|].
    repeat constructor. exact Hreads.
  - change (tail ((inp :: path) ++ [Legacy.mkNode format handler]))
      with (path ++ [Legacy.mkNode format handler]).
    apply Forall_app. split; [done|]. repeat constructor; done.
Qed.

Lemma legacy_searchLoop_found handlers inp target fuel :
  forall queue r p r',
    Forall (legacyQueued handlers inp) queue ->
    Legacy.searchLoop handlers fuel target queue r = (Legacy.Found p, r') ->
    exists path previous,
      legacyQueued handlers inp path /\ length path <= 5 /\ p = path ++ [target]
      /\ last path = Some previous /\ legacyHop (previous, target)
      /\ last (Legacy.tried r') = Some p
      /\ fd_bytes (Legacy.file r') <> [].
Proof.
  induction fuel as [|fuel IH]; intros queue r p r' Hq H; [done|].
  cbn [Legacy.searchLoop] in H. destruct queue as [|path queue]; [done|].
  inversion Hq as [|? ? Hpath Hrest]; subst.
  destruct (Nat.ltb_spec 5 (length path)) as [Hlong|Hshort]; [by apply (IH _ _ _ _ Hrest H)|].
  destruct (last path) as [previous|] eqn:Hlast; [|done].
  destruct (readsMime _ _) eqn:Hreads.
  - destruct (Legacy.attemptConvertPath _ _) as [[found|] r1] eqn:Hatt.
    + inversion H; subst. destruct (legacy_attempt_success _ _ _ _ Hatt) as (-> & Ht & Hfile).
      exists path, previous. repeat split; try done; try apply Hpath.
      * rewrite Ht. apply last_snoc.
      * destruct Hfile as (final & _ & _ & Hb); [|done].
        rewrite length_app. simpl. destruct path; [done|]. simpl. lia.
    + apply (IH _ _ _ _) in H; [done|]. apply Forall_app. split; [done|].
      by apply legacy_expand_queued.
  - apply (IH _ _ _ _) in H; [done|]. apply Forall_app. split; [done|].
    by apply legacy_expand_queued.
Qed.

(** X27.  A chain the first search returns runs from the input option to
    the target node itself, has at most six nodes, repeats no format
    object before the target, and at every hop the handler of the next
    node declares a readable format with the MIME type of the node
    before; the nodes in between are [to] formats with a MIME type of
    the handlers of the list.  It is the last chain that was tried, and
    the file object then holds bytes that are not empty. *)
Theorem legacy_found_chain handlers fuel target inp r p r' :
  Legacy.buildConvertPath handlers fuel target [[inp]] r = (Legacy.Found p, r') ->
  exists between,
    p = inp :: between ++ [target]
    /\ length p <= 6
    /\ List.NoDup (legacyRefs (inp :: between))
    /\ Forall legacyHop (zip p (tail p))
    /\ Forall (legacyAdded handlers) between
    /\ last (Legacy.tried r') = Some p
    /\ fd_bytes (Legacy.file r') <> [].
Proof.
  unfold Legacy.buildConvertPath. intros H.
  apply (legacy_searchLoop_found handlers inp) in H.
  - destruct H as (path & previous & (Hhead & Hnd & Hhops & Hadded) & Hlen & -> & Hlast
                   & Hclose & Htried & Hbytes).
    destruct path as [|a between]; [done|]. simpl in Hhead. inversion Hhead; subst a.
    exists between. repeat split; try done.
    + rewrite length_app. simpl in *. lia.
    + rewrite (zip_tail_snoc _ previous) by done. apply Forall_app. split; [done|].
      by repeat constructor.
  - repeat constructor. by intros [].
Qed.

Lemma legacy_found_chain_witness :
  exists between,
    [LegacyRow.input; LegacyRow.middle; LegacyRow.output]
    = LegacyRow.input :: between ++ [LegacyRow.output]
    /\ length [LegacyRow.input; LegacyRow.middle; LegacyRow.output] <= 6
    /\ List.NoDup (legacyRefs (LegacyRow.input :: between))
    /\ Forall legacyHop (zip [LegacyRow.input; LegacyRow.middle; LegacyRow.output]
                             (tail [LegacyRow.input; LegacyRow.middle; LegacyRow.output]))
    /\ Forall (legacyAdded [LegacyRow.first; LegacyRow.second]) between
    /\ last (Legacy.tried
               (snd (Legacy.buildConvertPath [LegacyRow.first; LegacyRow.second] 10
                       LegacyRow.output [[LegacyRow.input]] LegacyRow.start)))
       = Some [LegacyRow.input; LegacyRow.middle; LegacyRow.output]
    /\ fd_bytes (Legacy.file
                   (snd (Legacy.buildConvertPath [LegacyRow.first; LegacyRow.second] 10
                           LegacyRow.output [[LegacyRow.input]] LegacyRow.start))) <> [].
Proof.
  apply (legacy_found_chain [LegacyRow.first; LegacyRow.second] 10 LegacyRow.output
           LegacyRow.input LegacyRow.start
           [LegacyRow.input; LegacyRow.middle; LegacyRow.output]
           (snd (Legacy.buildConvertPath [LegacyRow.first; LegacyRow.second] 10
                   LegacyRow.output [[LegacyRow.input]] LegacyRow.start))).
  vm_compute. reflexivity.
Defined.
